(** * Loki write path: Distributor push/quorum logic and promtail WAL Watcher

    A shallow embedding of [pkg/distributor/distributor.go],
    [clients/pkg/promtail/wal/watcher.go] and the client Manager that starts
    the Watchers.

    Conventions.
    - Go [int] values that are lengths, indices or sums of lengths are
      modelled as [Z] (they cannot leave the 64-bit range); where the source
      converts to [int32] or subtracts a caller-supplied [int] the two's
      complement wrap is written out ([int32], [int64]).
    - [time.Time] is a count of nanoseconds in [Z]; [float64] is Rocq's
      primitive binary64 float.
    - [nil] errors and pointers are [None].
    - A Go run-time panic is [None] in the option monad of the functions that
      can raise one.
    - Metrics and logging are not part of the model. *)

From Stdlib Require Import ZArith Floats Uint63 Lia Ascii.
From stdpp Require Import base option list strings gmap pretty.

Local Open Scope Z_scope.

(** ** Errors *)

Definition StatusBadRequest : Z := 400.
Definition StatusTooManyRequests : Z := 429.

Inductive error : Type :=
| EOF                                               (* io.EOF *)
| Opaque (msg : string)                             (* an error made by an injected capability *)
| Wrapf (cause : error) (msg : string)              (* pkg/errors.Wrapf: visible to errors.Cause *)
| Errorf (msg : string) (cause : error)             (* fmt.Errorf with %w: not unwrapped by errors.Cause *)
| RateLimitedError (code : Z) (userID : string) (limit count size : Z)
                                                    (* httpgrpc.Errorf(code, validation.RateLimitedErrorMsg, ...) *)
| InvalidLabelsError (code : Z) (key : string) (cause : error).
                                                    (* httpgrpc.Errorf(code, validation.InvalidLabelsErrorMsg, ...) *)

(** [errors.Cause] of pkg/errors. *)
Fixpoint Cause (e : error) : error :=
  match e with
  | Wrapf c _ => Cause c
  | _ => e
  end.

Definition isEOF (e : error) : bool :=
  match e with EOF => true | _ => false end.

(** ** Fixed-width integers *)

Definition int32 (z : Z) : Z := (z + 2 ^ 31) mod 2 ^ 32 - 2 ^ 31.
Definition int64 (z : Z) : Z := (z + 2 ^ 63) mod 2 ^ 64 - 2 ^ 63.
Definition MaxInt32 : Z := 2 ^ 31 - 1.

(** ** float64 conversions *)

(** [float64(n)] for an [int] n. *)
Definition float64_of_int (z : Z) : float :=
  if z <? 0 then PrimFloat.opp (PrimFloat.of_uint63 (Uint63.of_Z (- z)))
  else PrimFloat.of_uint63 (Uint63.of_Z z).

(** [int(f)] for a [float64] f: truncation towards zero.  For NaN, infinities
    and values outside the 64-bit range Go leaves the result to the
    implementation; amd64 yields the smallest int64. *)
Definition int_of_float64 (f : float) : Z :=
  match Prim2SF f with
  | S754_zero _ => 0
  | S754_finite s m e =>
      let mag := if 0 <=? e then Z.shiftl (Z.pos m) e else Z.shiftr (Z.pos m) (- e) in
      let v := if s then - mag else mag in
      if (- 2 ^ 63 <=? v) && (v <? 2 ^ 63) then v else - 2 ^ 63
  | _ => - 2 ^ 63
  end.

(** * logproto *)

Module logproto.

Record Entry := mkEntry { Timestamp : Z; Line : string }.

Record Stream := mkStream { Labels : string; Entries : list Entry; Hash : Z }.

Record PushRequest := mkPushRequest { Streams : list Stream }.

Record PushResponse := mkPushResponse { }.

End logproto.

(** * Distributor *)

Module distributor.
Import logproto.

(** prometheus [labels.Labels] *)
Record Label := mkLabel { Name : string; Value : string }.

(** dskit [ring.InstanceDesc] and [ring.ReplicationSet] *)
Record InstanceDesc := mkInstanceDesc { Addr : string }.
Record ReplicationSet := mkReplicationSet { Instances : list InstanceDesc; MaxErrors : Z }.

Definition ShardLbName : string := "__stream_shard__".
Definition ShardLbPlaceholder : string := "__placeholder__".

Record validationContext := mkValidationContext {
  userID : string;
  maxLineSize : Z;
  maxLineSizeTruncate : bool;
  incrementDuplicateTimestamps : bool
}.

Record streamTracker := mkStreamTracker {
  stream : Stream;
  minSuccess : Z;
  maxFailures : Z;
  succeeded : Z;   (* atomic.Int32 *)
  failed : Z       (* atomic.Int32 *)
}.

(** [streamTracker{stream: s}]: every other field has its zero value. *)
Definition newStreamTracker (s : Stream) : streamTracker :=
  mkStreamTracker s 0 0 0 0.

(** ** maxT *)

Definition maxT (t1 t2 : Z) : Z := if t1 <? t2 then t2 else t1.

(** ** The entry loop of validateStreams (distributor.go 312-337)

    The loop compacts the valid entries to the front of the slice it ranges
    over.  [vs_arr] is the backing array, shared by the range expression and
    the index expressions. *)

Record vstate := mkVstate {
  vs_arr : list Entry;
  vs_n : nat;
  vs_err : option error;       (* validationErr *)
  vs_size : Z;                 (* validatedSamplesSize *)
  vs_count : Z                 (* validatedSamplesCount *)
}.

Section entry_loop.
Variable ValidateEntry : Entry → option error.
Variable increment : bool.

Definition setTimestamp (t : Z) (e : Entry) : Entry := mkEntry t (Line e).

Definition entryBody (entry : Entry) (st : vstate) : vstate :=
  match ValidateEntry entry with
  | Some err => mkVstate (vs_arr st) (vs_n st) (Some err) (vs_size st) (vs_count st)
  | None =>
      let n := vs_n st in
      let arr1 := <[n := entry]> (vs_arr st) in
      let arr2 :=
        if increment && negb (Nat.eqb n 0) then
          match arr1 !! (n - 1)%nat with
          | Some prev =>
              if String.eqb (Line prev) (Line entry) then arr1
              else alter (setTimestamp (maxT (Timestamp entry) (Timestamp prev + 1))) n arr1
          | None => arr1
          end
        else arr1 in
      mkVstate arr2 (S n) (vs_err st)
               (vs_size st + Z.of_nat (String.length (Line entry))) (vs_count st + 1)
  end.

(** [for _, entry := range stream.Entries]: iteration [i] reads element [i]
    of the backing array as it is then. *)
Fixpoint entryLoop (todo : nat) (i : nat) (st : vstate) : vstate :=
  match todo with
  | O => st
  | S todo' =>
      match vs_arr st !! i with
      | None => st
      | Some entry => entryLoop todo' (S i) (entryBody entry st)
      end
  end.

(** The loop followed by [stream.Entries = stream.Entries[:n]]. *)
Definition validateEntries (entries : list Entry) (verr : option error) (size count : Z)
  : list Entry * option error * Z * Z :=
  let st := entryLoop (length entries) 0 (mkVstate entries 0 verr size count) in
  (take (vs_n st) (vs_arr st), vs_err st, vs_size st, vs_count st).

(** What the loop computes, read off as a function of the valid entries. *)
Definition bump (prev e : Entry) : Entry :=
  if increment then
    if String.eqb (Line prev) (Line e) then e
    else setTimestamp (maxT (Timestamp e) (Timestamp prev + 1)) e
  else e.

Fixpoint bumpFrom (prev : Entry) (l : list Entry) : list Entry :=
  match l with
  | [] => []
  | e :: r => let e' := bump prev e in e' :: bumpFrom e' r
  end.

Definition bumpAll (l : list Entry) : list Entry :=
  match l with
  | [] => []
  | e :: r => e :: bumpFrom e r
  end.

Definition valid (e : Entry) : bool :=
  match ValidateEntry e with None => true | Some _ => false end.

Definition validOnly (l : list Entry) : list Entry := List.filter valid l.

End entry_loop.

(** ** Injected capabilities and configuration of a Distributor

    The validator, the label parser, the ring, the rate limiter, the sharder
    and the label cache are collaborators of the Distributor that live outside
    this file; each is a field here.  [time.Now()] arguments are left
    implicit: a field gives the collaborator's answer at the time of the call. *)

Record Distributor := mkDistributor {
  cfg_ShardStreams_Enabled : bool;
  validator_getValidationContextForTime : string → validationContext;
  validator_ValidateEntry : validationContext → string → Entry → option error;
  validator_ValidateLabels : validationContext → list Label → Stream → option error;
  syntax_ParseLabels : string → list Label + error;
  Labels_String : list Label → string;
  Labels_Hash : list Label → Z;
  util_TokenFor : string → string → Z;
  streamSharder_ShardCountFor : Stream → Z * bool;
  ingestionRateLimiter_AllowN : string → Z → bool;
  ingestionRateLimiter_Limit : string → float;
  ingestersRing_Get : Z → ReplicationSet + error;
  labelCache : Type;
  labelCache_Get : labelCache → string → option string * labelCache;
  labelCache_Add : labelCache → string → string → labelCache
}.

(** What a Push does to the outside, in order. *)
Inductive event : Type :=
| EvAllowN (userID : string) (n : Z) (ok : bool)      (* ingestionRateLimiter.AllowN *)
| EvRingGet (key : Z)                                 (* ingestersRing.Get *)
| EvGo (ingester : InstanceDesc) (samples : list nat). (* go func(...) { ... sendSamples ... } *)

Record pworld (d : Distributor) := mkPworld {
  cache : labelCache d;
  trace : list event
}.
Arguments mkPworld {d}.
Arguments cache {d}.
Arguments trace {d}.

(** ** min, boundsFor, createShard, labelTemplate, shardStream *)

Definition min (x1 x2 : Z) : Z := if x1 <? x2 then x1 else x2.

Definition len {A} (l : list A) : Z := Z.of_nat (length l).

Definition boundsFor (stream : Stream) (totalShards shardNumber : Z) : Z * Z * bool :=
  let entriesPerWindow :=
    PrimFloat.div (float64_of_int (len (Entries stream))) (float64_of_int totalShards) in
  let fIdx := float64_of_int shardNumber in
  let lowerBound := int_of_float64 (PrimFloat.mul fIdx entriesPerWindow) in
  let upperBound :=
    min (int_of_float64 (PrimFloat.mul entriesPerWindow (PrimFloat.add 1%float fIdx)))
        (len (Entries stream)) in
  if upperBound <? lowerBound then (0, 0, false) else (lowerBound, upperBound, true).

(** [s[lo:hi]]; out of range panics.  (Go allows [hi] up to the capacity; the
    callers here never pass more than the length.) *)
Definition slice {A} (lo hi : Z) (l : list A) : option (list A) :=
  if (0 <=? lo) && (lo <=? hi) && (hi <=? len l)
  then Some (take (Z.to_nat (hi - lo)) (drop (Z.to_nat lo) l))
  else None.

(** [strings.Replace(s, old, new, 1)] for a non-empty [old]. *)
Fixpoint replace1 (s old new : string) : string :=
  if String.prefix old s then new +:+ String.substring (String.length old) (String.length s) s
  else match s with
       | EmptyString => EmptyString
       | String c r => String c (replace1 r old new)
       end.

Definition Itoa (z : Z) : string := pretty z.

Definition labelTemplate (d : Distributor) (lbls : string) : list Label :=
  match syntax_ParseLabels d lbls with
  | inr _ => []
  | inl baseLbls => baseLbls ++ [mkLabel ShardLbName ShardLbPlaceholder]
  end.

(** [lbls] is one slice shared by all calls: the updated slice is returned. *)
Definition createShard (d : Distributor) (stream : Stream) (lbls : list Label)
    (streamPattern : string) (totalShards shardNumber : Z)
  : option (Stream * bool * list Label) :=
  let '(lowerBound, upperBound, ok) := boundsFor stream totalShards shardNumber in
  if negb ok then Some (mkStream EmptyString [] 0, false, lbls)
  else
    let shardLabel := Itoa shardNumber in
    lbls' ← (match lbls with
             | [] => None
             | _ => Some (<[(length lbls - 1)%nat := mkLabel ShardLbName shardLabel]> lbls)
             end);
    entries ← slice lowerBound upperBound (Entries stream);
    Some (mkStream (replace1 streamPattern ShardLbPlaceholder shardLabel)
                   entries (Labels_Hash d lbls'),
          true, lbls').

(** [for i := 0; i < shardCount; i++] with [todo] iterations left. *)
Fixpoint shardLoop (d : Distributor) (stream : Stream) (streamPattern userID : string)
    (shardCount : Z) (todo : nat) (i : Z) (lbls : list Label)
    (derivedKeys : list Z) (derivedStreams : list streamTracker)
  : option (list Z * list streamTracker) :=
  match todo with
  | O => Some (derivedKeys, derivedStreams)
  | S todo' =>
      '(shard, ok, lbls') ← createShard d stream lbls streamPattern shardCount i;
      if negb ok
      then shardLoop d stream streamPattern userID shardCount todo' (i + 1) lbls'
                     derivedKeys derivedStreams
      else shardLoop d stream streamPattern userID shardCount todo' (i + 1) lbls'
                     (derivedKeys ++ [util_TokenFor d userID (Labels shard)])
                     (derivedStreams ++ [newStreamTracker shard])
  end.

Definition shardStream (d : Distributor) (stream : Stream) (userID : string)
  : option (list Z * list streamTracker) :=
  let '(shardCount, ok) := streamSharder_ShardCountFor d stream in
  if negb ok || (shardCount <=? 1)
  then Some ([util_TokenFor d userID (Labels stream)], [newStreamTracker stream])
  else
    let streamLabels := labelTemplate d (Labels stream) in
    let streamPattern := Labels_String d streamLabels in
    shardLoop d stream streamPattern userID shardCount (Z.to_nat shardCount) 0
              streamLabels [] [].

(** ** truncateLines, parseStreamLabels *)

Definition truncateLine (maxSize : Z) (e : Entry) : option Entry :=
  if negb (maxSize =? 0) && (maxSize <? Z.of_nat (String.length (Line e)))
  then if maxSize <? 0 then None
       else Some (mkEntry (Timestamp e) (String.substring 0 (Z.to_nat maxSize) (Line e)))
  else Some e.

Definition truncateLines (vContext : validationContext) (entries : list Entry)
  : option (list Entry) :=
  if negb (maxLineSizeTruncate vContext) then Some entries
  else mapM (truncateLine (maxLineSize vContext)) entries.

(** The test of the loop of truncateLines, and its locals [truncatedSamples]
    and [truncatedBytes] once the loop has run to its end: what it reports to
    validation.MutatedSamples and validation.MutatedBytes. *)
Definition tooLong (maxSize : Z) (e : Entry) : bool :=
  negb (maxSize =? 0) && (maxSize <? Z.of_nat (String.length (Line e))).

Definition truncateCounts (vContext : validationContext) (entries : list Entry) : Z * Z :=
  foldl (λ (c : Z * Z) e,
           if tooLong (maxLineSize vContext) e
           then (c.1 + 1, Z.of_nat (String.length (Line e)) - maxLineSize vContext)
           else c)
        (0, 0) entries.

Definition parseStreamLabels (d : Distributor) (vContext : validationContext)
    (key : string) (stream : Stream) (c : labelCache d)
  : (string + error) * labelCache d :=
  match labelCache_Get d c key with
  | (Some labelVal, c1) => (inl labelVal, c1)
  | (None, c1) =>
      match syntax_ParseLabels d key with
      | inr err => (inr (InvalidLabelsError StatusBadRequest key err), c1)
      | inl ls =>
          match validator_ValidateLabels d vContext ls stream with
          | Some err => (inr err, c1)
          | None =>
              let lsVal := Labels_String d ls in
              (inl lsVal, labelCache_Add d c1 key lsVal)
          end
      end
  end.

(** ** validateStreams *)

Record vacc := mkVacc {
  va_keys : list Z;
  va_validStreams : list streamTracker;
  va_validationErr : option error;
  va_validatedSamplesSize : Z;
  va_validatedSamplesCount : Z
}.

(** One iteration of [for _, stream := range streams]. *)
Definition validateStream (d : Distributor) (vctx : validationContext) (userID : string)
    (stream : Stream) (c : labelCache d) (acc : vacc) : option (labelCache d * vacc) :=
  if Nat.eqb (length (Entries stream)) 0 then Some (c, acc)
  else
    entries1 ← truncateLines vctx (Entries stream);
    let stream1 := mkStream (Labels stream) entries1 (Hash stream) in
    match parseStreamLabels d vctx (Labels stream1) stream1 c with
    | (inr err, c1) =>
        Some (c1, mkVacc (va_keys acc) (va_validStreams acc) (Some err)
                         (va_validatedSamplesSize acc) (va_validatedSamplesCount acc))
    | (inl lbls, c1) =>
        let '(entries2, verr, size, count) :=
          validateEntries (validator_ValidateEntry d vctx lbls)
                          (incrementDuplicateTimestamps vctx) entries1
                          (va_validationErr acc) (va_validatedSamplesSize acc)
                          (va_validatedSamplesCount acc) in
        let stream2 := mkStream lbls entries2 (Hash stream) in
        if cfg_ShardStreams_Enabled d then
          '(derivedKeys, derivedStreams) ← shardStream d stream2 userID;
          Some (c1, mkVacc (va_keys acc ++ derivedKeys) (va_validStreams acc ++ derivedStreams)
                           verr size count)
        else
          Some (c1, mkVacc (va_keys acc ++ [util_TokenFor d userID lbls])
                           (va_validStreams acc ++ [newStreamTracker stream2])
                           verr size count)
    end.

Fixpoint validateLoop (d : Distributor) (vctx : validationContext) (userID : string)
    (streams : list Stream) (c : labelCache d) (acc : vacc) : option (labelCache d * vacc) :=
  match streams with
  | [] => Some (c, acc)
  | stream :: rest =>
      '(c1, acc1) ← validateStream d vctx userID stream c acc;
      validateLoop d vctx userID rest c1 acc1
  end.

Definition validateStreams (d : Distributor) (streams : list Stream) (userID : string)
    (w : pworld d)
  : option (list Z * list streamTracker * option error * bool * pworld d) :=
  let validationContext := validator_getValidationContextForTime d userID in
  '(c1, acc) ← validateLoop d validationContext userID streams (cache w) (mkVacc [] [] None 0 0);
  if Nat.eqb (length (va_validStreams acc)) 0
  then Some (va_keys acc, va_validStreams acc, va_validationErr acc, true, mkPworld c1 (trace w))
  else
    let ok := ingestionRateLimiter_AllowN d userID (va_validatedSamplesSize acc) in
    let w1 := mkPworld c1 (trace w ++ [EvAllowN userID (va_validatedSamplesSize acc) ok]) in
    if negb ok
    then Some ([], [], Some (RateLimitedError StatusTooManyRequests userID
                               (int_of_float64 (ingestionRateLimiter_Limit d userID))
                               (va_validatedSamplesCount acc) (va_validatedSamplesSize acc)),
               false, w1)
    else Some (va_keys acc, va_validStreams acc, va_validationErr acc, true, w1).

(** ** pushStreams: ring lookups, quorum parameters, one goroutine per ingester *)

Definition setQuorum (minS maxF : Z) (t : streamTracker) : streamTracker :=
  mkStreamTracker (stream t) minS maxF (succeeded t) (failed t).

(** [samplesByIngester[ingester.Addr] = append(samplesByIngester[ingester.Addr], &streams[i])];
    [ingesterDescs[ingester.Addr] = ingester].  A tracker pointer [&streams[i]]
    is the index [i] into the shared tracker slice. *)
Definition appendSample (i : nat)
    (acc : gmap string (list nat) * gmap string InstanceDesc) (ingester : InstanceDesc)
  : gmap string (list nat) * gmap string InstanceDesc :=
  (<[Addr ingester := default [] (acc.1 !! Addr ingester) ++ [i]]> acc.1,
   <[Addr ingester := ingester]> acc.2).

(** [for i, key := range keys] *)
Fixpoint ringLoop (d : Distributor) (keys : list Z) (i : nat) (streams : list streamTracker)
    (samplesByIngester : gmap string (list nat)) (ingesterDescs : gmap string InstanceDesc)
    (tr : list event)
  : option ((list streamTracker * gmap string (list nat) * gmap string InstanceDesc + error)
            * list event) :=
  match keys with
  | [] => Some (inl (streams, samplesByIngester, ingesterDescs), tr)
  | key :: rest =>
      let tr1 := tr ++ [EvRingGet key] in
      match ingestersRing_Get d key with
      | inr err => Some (inr err, tr1)
      | inl replicationSet =>
          t ← streams !! i;
          let streams1 :=
            <[i := setQuorum (int64 (len (Instances replicationSet) - MaxErrors replicationSet))
                             (MaxErrors replicationSet) t]> streams in
          let acc := foldl (appendSample i) (samplesByIngester, ingesterDescs)
                           (Instances replicationSet) in
          ringLoop d rest (S i) streams1 acc.1 acc.2 tr1
      end
  end.

(** Where a sendSamples goroutine stands.  Each constructor is the point
    before one atomic operation or channel send. *)
Inductive pc : Type :=
| Calling              (* in sendSamplesErr: the RPC has not returned *)
| Looping              (* at the head of [for i := range streamTrackers] *)
| IncSamplesFailed     (* failed.Inc() > maxFailures seen; before samplesFailed.Inc() *)
| SendErr              (* samplesFailed.Inc() == 1 seen; before [pushTracker.err <- err] *)
| DecSamplesPending    (* succeeded.Inc() == minSuccess seen; before samplesPending.Dec() *)
| SendDone.            (* samplesPending.Dec() == 0 seen; before [pushTracker.done <- struct{}{}] *)

Record goroutine := mkGoroutine {
  g_ingester : InstanceDesc;
  g_streamTrackers : list nat;   (* the trackers the loop has still to visit *)
  g_err : option error;          (* result of sendSamplesErr *)
  g_pc : pc
}.

(** The trackers of one Push, its pushTracker and the goroutines it started.
    [done] and [err] list every value ever sent on the channel. *)
Record pushState := mkPushState {
  trackers : list streamTracker;
  samplesPending : Z;            (* atomic.Int32 *)
  samplesFailed : Z;             (* atomic.Int32 *)
  done : list unit;
  err : list error;
  goroutines : list goroutine
}.

Definition spawn (ingesterDescs : gmap string InstanceDesc) (p : string * list nat) : goroutine :=
  mkGoroutine (default (mkInstanceDesc EmptyString) (ingesterDescs !! p.1)) p.2 None Calling.

Definition pushStreams (d : Distributor) (keys : list Z) (streams : list streamTracker)
    (userID : string) (w : pworld d) : option ((pushState + error) * pworld d) :=
  '(r, tr) ← ringLoop d keys 0 streams ∅ ∅ (trace w);
  match r with
  | inr err => Some (inr err, mkPworld (cache w) tr)
  | inl (streams1, samplesByIngester, ingesterDescs) =>
      let gs := spawn ingesterDescs <$> map_to_list samplesByIngester in
      Some (inl (mkPushState streams1 (int32 (len streams1)) 0 [] [] gs),
            mkPworld (cache w)
                     (tr ++ ((λ g, EvGo (g_ingester g) (g_streamTrackers g)) <$> gs)))
  end.

(** ** sendSamples, one atomic step at a time

    [advance k rpc s] lets goroutine [k] take its next step.  [rpc] is the
    result of the RPC, used only when the goroutine is at [Calling].  [None]:
    the goroutine has returned (or does not exist). *)

Definition setGoroutine (k : nat) (g : goroutine) (s : pushState) : pushState :=
  mkPushState (trackers s) (samplesPending s) (samplesFailed s) (done s) (err s)
              (<[k := g]> (goroutines s)).

Definition at_pc (g : goroutine) (rest : list nat) (p : pc) : goroutine :=
  mkGoroutine (g_ingester g) rest (g_err g) p.

Definition advance (k : nat) (rpc : option error) (s : pushState) : option pushState :=
  g ← goroutines s !! k;
  match g_pc g with
  | Calling =>
      Some (setGoroutine k (mkGoroutine (g_ingester g) (g_streamTrackers g) rpc Looping) s)
  | Looping =>
      match g_streamTrackers g with
      | [] => None
      | i :: rest =>
          t ← trackers s !! i;
          match g_err g with
          | Some _ =>
              let v := int32 (failed t + 1) in
              let t' := mkStreamTracker (stream t) (minSuccess t) (maxFailures t) (succeeded t) v in
              let p := if v <=? int32 (maxFailures t) then Looping else IncSamplesFailed in
              Some (mkPushState (<[i := t']> (trackers s)) (samplesPending s) (samplesFailed s)
                                (done s) (err s) (<[k := at_pc g rest p]> (goroutines s)))
          | None =>
              let v := int32 (succeeded t + 1) in
              let t' := mkStreamTracker (stream t) (minSuccess t) (maxFailures t) v (failed t) in
              let p := if negb (v =? int32 (minSuccess t)) then Looping else DecSamplesPending in
              Some (mkPushState (<[i := t']> (trackers s)) (samplesPending s) (samplesFailed s)
                                (done s) (err s) (<[k := at_pc g rest p]> (goroutines s)))
          end
      end
  | IncSamplesFailed =>
      let v := int32 (samplesFailed s + 1) in
      let p := if v =? 1 then SendErr else Looping in
      Some (mkPushState (trackers s) (samplesPending s) v (done s) (err s)
                        (<[k := at_pc g (g_streamTrackers g) p]> (goroutines s)))
  | SendErr =>
      e ← g_err g;
      Some (mkPushState (trackers s) (samplesPending s) (samplesFailed s) (done s) (err s ++ [e])
                        (<[k := at_pc g (g_streamTrackers g) Looping]> (goroutines s)))
  | DecSamplesPending =>
      let v := int32 (samplesPending s - 1) in
      let p := if v =? 0 then SendDone else Looping in
      Some (mkPushState (trackers s) v (samplesFailed s) (done s) (err s)
                        (<[k := at_pc g (g_streamTrackers g) p]> (goroutines s)))
  | SendDone =>
      Some (mkPushState (trackers s) (samplesPending s) (samplesFailed s) (done s ++ [()]) (err s)
                        (<[k := at_pc g (g_streamTrackers g) Looping]> (goroutines s)))
  end.

(** A schedule is any interleaving of the goroutines' steps. *)
Fixpoint runSchedule (sched : list (nat * option error)) (s : pushState) : option pushState :=
  match sched with
  | [] => Some s
  | (k, rpc) :: rest => s' ← advance k rpc s; runSchedule rest s'
  end.

Definition reachable (s0 s : pushState) : Prop :=
  ∃ sched, runSchedule sched s0 = Some s.

Definition returned (g : goroutine) : bool :=
  match g_pc g, g_streamTrackers g with
  | Looping, [] => true
  | _, _ => false
  end.

(** Every goroutine has returned from sendSamples. *)
Definition quiescent (s : pushState) : Prop :=
  Forall (λ g, returned g = true) (goroutines s).

(** ** Push *)

Inductive pushResult : Type :=
| Returned (resp : option PushResponse) (e : option error)
| Awaiting (validationErr : option error) (s : pushState).  (* blocked in the final select *)

Definition Push (d : Distributor) (tenantID : string + error) (req : PushRequest)
    (w : pworld d) : option (pushResult * pworld d) :=
  match tenantID with
  | inr err => Some (Returned None (Some err), w)
  | inl userID =>
      if Nat.eqb (length (Streams req)) 0 then Some (Returned (Some mkPushResponse) None, w)
      else
        '(keys, streams, validationErr, ok, w1) ← validateStreams d (Streams req) userID w;
        if negb ok then Some (Returned None validationErr, w1)
        else if Nat.eqb (length streams) 0
        then Some (Returned (Some mkPushResponse) validationErr, w1)
        else
          '(r, w2) ← pushStreams d keys streams userID w1;
          match r with
          | inr err => Some (Returned None (Some err), w2)
          | inl s => Some (Awaiting validationErr s, w2)
          end
  end.

(** The final select of Push: what it may return when the tracker is in
    state [s] and the caller's context has error [ctxErr] (when done). *)
Inductive Push_select (ctxErr validationErr : option error) (s : pushState)
  : option PushResponse → option error → Prop :=
| select_err e rest : err s = e :: rest → Push_select ctxErr validationErr s None (Some e)
| select_done u rest : done s = u :: rest →
    Push_select ctxErr validationErr s (Some mkPushResponse) validationErr
| select_ctx e : ctxErr = Some e → Push_select ctxErr validationErr s None (Some e).

(** ** What the proofs speak of *)

Arguments validateEntries : simpl never.
Arguments shardStream : simpl never.

Global Instance pc_eq_dec : EqDecision pc.
Proof. solve_decision. Defined.

(** *** The entry loop *)

(** Bytes of the lines of [l]. *)
Definition sizeOf (l : list Entry) : Z :=
  foldr (λ e a, Z.of_nat (String.length (Line e)) + a) 0 l.

(** The state of the entry loop before iteration [i] over the slice [arr0]:
    the first [vs_n] cells hold the valid entries met so far, incremented;
    the cells from [i] on are untouched. *)
Definition loop_inv (ValidateEntry : Entry → option error) (increment : bool)
    (arr0 : list Entry) (verr0 : option error) (size0 count0 : Z)
    (i : nat) (st : vstate) : Prop :=
  length (vs_arr st) = length arr0 ∧
  (vs_n st ≤ i)%nat ∧
  drop i (vs_arr st) = drop i arr0 ∧
  take (vs_n st) (vs_arr st) = bumpAll increment (validOnly ValidateEntry (take i arr0)) ∧
  vs_count st = count0 + len (validOnly ValidateEntry (take i arr0)) ∧
  vs_size st = size0 + sizeOf (validOnly ValidateEntry (take i arr0)) ∧
  vs_err st = from_option Some verr0 (last (omap ValidateEntry (take i arr0))).

(** *** Validation *)

(** A tracker as validateStreams makes it: no quorum yet, nothing counted. *)
Definition zeroed (t : streamTracker) : Prop :=
  minSuccess t = 0 ∧ maxFailures t = 0 ∧ succeeded t = 0 ∧ failed t = 0.

Definition fresh_acc (acc : vacc) : Prop :=
  length (va_keys acc) = length (va_validStreams acc) ∧ Forall zeroed (va_validStreams acc).

(** A stream that validation passes over: it has no entries, or its labels
    are refused whatever the cache holds. *)
Definition skipped (d : Distributor) (vctx : validationContext) (s : Stream) : Prop :=
  Entries s = [] ∨
  ∀ entries c, ∃ e, (parseStreamLabels d vctx (Labels s)
                       (mkStream (Labels s) entries (Hash s)) c).1 = inr e.

Definition isAllowN (ev : event) : bool :=
  match ev with EvAllowN _ _ _ => true | _ => false end.

(** *** Sharding in exact arithmetic

    The windows as section 4.3 of the specification words them, with
    len(entries)/N a rational number: shard [i] of [N] covers
    [floor(i*len/N), min(floor((i+1)*len/N), len)]. *)
Definition spec_window {A} (l : list A) (N : Z) (i : Z) : list A :=
  let lo := i * len l / N in
  let hi := Z.min ((i + 1) * len l / N) (len l) in
  take (Z.to_nat (hi - lo)) (drop (Z.to_nat lo) l).

(** *** Counting over the goroutines and trackers of a Push *)

Definition sumZ {A} (f : A → Z) (l : list A) : Z := foldr (λ x a, f x + a) 0 l.

(** How often tracker [i] is still to be visited: in one list, by all
    goroutines, in the lists of samplesByIngester. *)
Definition occ (i : nat) (l : list nat) : Z := sumZ (λ j, if decide (i = j) then 1 else 0) l.
Definition pendOcc (i : nat) (gs : list goroutine) : Z :=
  sumZ (λ g, occ i (g_streamTrackers g)) gs.
Definition occM (f : list nat → Z) (m : gmap string (list nat)) : Z :=
  sumZ (λ p, f p.2) (map_to_list m).

(** The goroutines standing at [p]; the visits all goroutines have left. *)
Definition atpc (p : pc) (gs : list goroutine) : Z :=
  sumZ (λ g, if decide (g_pc g = p) then 1 else 0) gs.
Definition todoTotal (gs : list goroutine) : Z := sumZ (λ g, len (g_streamTrackers g)) gs.

(** [succeeded.Inc()] has returned minSuccess for this tracker. *)
Definition hit (t : streamTracker) : bool :=
  (1 <=? int32 (minSuccess t)) && (int32 (minSuccess t) <=? succeeded t).
Definition hits (ts : list streamTracker) : Z := sumZ (λ t, if hit t then 1 else 0) ts.

(** [failed.Inc()] has returned more than maxFailures for this tracker. *)
Definition over (t : streamTracker) : Prop := int32 (maxFailures t) < failed t ∧ 0 < failed t.

(** *** The invariant of the goroutines of one Push

    [R i] is the number of replicas of tracker [i], [T0] the number of visits
    the goroutines start with, [n] the number of trackers.
    - [inv_tracker]: the replicas of a tracker are those that succeeded,
      those that failed and those not yet counted; a quorum that can be
      reached leaves room for no more than maxFailures failures.
    - [inv_pending]: samplesPending has been decremented once for every
      tracker that reached its quorum, but for the decrements still due.
    - [inv_done], [inv_err]: a send made or due on done answers a decrement
      to 0, one on err the first increment of samplesFailed.
    - [inv_over]: samplesFailed counts, but for the increments still due,
      visits that took a tracker beyond maxFailures. *)
Record inv (R : nat → Z) (T0 n : Z) (s : pushState) : Prop := mkInv {
  inv_len : len (trackers s) = n;
  inv_n : n < 2 ^ 31;
  inv_tracker : ∀ i t, trackers s !! i = Some t →
      0 ≤ succeeded t ∧ 0 ≤ failed t ∧
      succeeded t + failed t + pendOcc i (goroutines s) = R i ∧ R i < 2 ^ 31 ∧
      (1 ≤ int32 (minSuccess t) → R i ≤ int32 (minSuccess t) + int32 (maxFailures t));
  inv_pending : 0 ≤ n - samplesPending s ∧
      n - samplesPending s + atpc DecSamplesPending (goroutines s) = hits (trackers s);
  inv_done : len (done s) + atpc SendDone (goroutines s) =
      (if (samplesPending s =? 0) && negb (n =? 0) then 1 else 0);
  inv_failed : 0 ≤ samplesFailed s ∧
      samplesFailed s + atpc IncSamplesFailed (goroutines s) + todoTotal (goroutines s) ≤ T0;
  inv_T0 : T0 < 2 ^ 31;
  inv_over : 1 ≤ samplesFailed s + atpc IncSamplesFailed (goroutines s) ↔
      ∃ i t, trackers s !! i = Some t ∧ over t;
  inv_err : len (err s) + atpc SendErr (goroutines s) =
      (if 1 <=? samplesFailed s then 1 else 0)
}.

(** Every tracker has a quorum of at least one replica and, with maxFailures
    failures, replicas enough left to reach it. *)
Definition live (R : nat → Z) (s : pushState) : Prop :=
  ∀ i t, trackers s !! i = Some t →
    1 ≤ int32 (minSuccess t) ∧ 0 ≤ int32 (maxFailures t) ∧
    int32 (minSuccess t) + int32 (maxFailures t) ≤ R i.

(** Every goroutine points at trackers that exist, and one that is about to
    report an error has one. *)
Definition sound (s : pushState) : Prop :=
  ∀ k g, goroutines s !! k = Some g →
    (∀ i, i ∈ g_streamTrackers g → (i < length (trackers s))%nat) ∧
    (g_pc g = IncSamplesFailed ∨ g_pc g = SendErr → is_Some (g_err g)).

Definition idxOK (n : nat) (m : gmap string (list nat)) : Prop :=
  ∀ a l i, m !! a = Some l → i ∈ l → (i < n)%nat.

(** The steps a goroutine has left, at most. *)
Definition weight (g : goroutine) : nat :=
  3 * length (g_streamTrackers g) +
  match g_pc g with
  | Looping => 0
  | Calling | SendErr | SendDone => 1
  | IncSamplesFailed | DecSamplesPending => 2
  end.

Definition measure (s : pushState) : nat := sum_list_with weight (goroutines s).

(** *** validateStreams without sharding *)

(** What validateStreams makes of one stream of the request that it keeps,
    sharding off: the labels parseStreamLabels answered, and the entries,
    truncated as configured, that ValidateEntry accepts under those labels. *)
Definition forwarded (d : Distributor) (vctx : validationContext) (s : Stream)
    (t : streamTracker) : Prop :=
  ∃ entries1 c,
    Entries s ≠ [] ∧
    truncateLines vctx (Entries s) = Some entries1 ∧
    (parseStreamLabels d vctx (Labels s) (mkStream (Labels s) entries1 (Hash s)) c).1
      = inl (Labels (stream t)) ∧
    t = newStreamTracker
          (mkStream (Labels (stream t))
             (bumpAll (incrementDuplicateTimestamps vctx)
                (validOnly (validator_ValidateEntry d vctx (Labels (stream t))) entries1))
             (Hash s)).

(** The line bytes and the entries of the streams of [ts]. *)
Definition bytesOf (ts : list streamTracker) : Z := sumZ (λ t, sizeOf (Entries (stream t))) ts.
Definition entriesOf (ts : list streamTracker) : Z := sumZ (λ t, len (Entries (stream t))) ts.

(** *** The shards of a stream *)

(** Shard number [i] of [totalShards] of [stream], whose labels parse to
    [base]: the labels and the hash carry the shard label with value [i], the
    entries are the window boundsFor gives. *)
Definition shardOf (d : Distributor) (stream : Stream) (base : list Label)
    (totalShards i : Z) : option Stream :=
  let b := boundsFor stream totalShards i in
  entries ← slice b.1.1 b.1.2 (Entries stream);
  Some (mkStream
          (replace1 (Labels_String d (base ++ [mkLabel ShardLbName ShardLbPlaceholder]))
                    ShardLbPlaceholder (Itoa i))
          entries
          (Labels_Hash d (base ++ [mkLabel ShardLbName (Itoa i)]))).

(** boundsFor accepts the bounds of shard [i]. *)
Definition usable (stream : Stream) (totalShards i : Z) : bool :=
  (boundsFor stream totalShards i).2.

(** *** The fan-out of pushStreams *)

(** Ingester address [a] serves the stream with key number [i]: the ring
    lists an instance with that address for the key. *)
Definition replicaOf (d : Distributor) (keys : list Z) (i : nat) (a : string) : Prop :=
  ∃ key rs ing, keys !! i = Some key ∧ ingestersRing_Get d key = inl rs ∧
                ing ∈ Instances rs ∧ Addr ing = a.

(** [l] never steps down. *)
Definition ascending (l : list nat) : Prop :=
  ∀ p q x y, l !! p = Some x → l !! q = Some y → (p ≤ q)%nat → (x ≤ y)%nat.

(** The maps of pushStreams after the keys before number [n], and the
    instances [cur] of key number [n], have been gone through. *)
Record fanout (d : Distributor) (keys : list Z) (n : nat) (cur : list InstanceDesc)
    (sbi : gmap string (list nat)) (descs : gmap string InstanceDesc) : Prop := mkFanout {
  fo_dom : ∀ a, is_Some (sbi !! a) ↔ is_Some (descs !! a);
  fo_addr : ∀ a ing, descs !! a = Some ing → Addr ing = a;
  fo_mem : ∀ a l j, sbi !! a = Some l → j ∈ l →
             ((j < n)%nat ∧ replicaOf d keys j a) ∨ (j = n ∧ ∃ ing, ing ∈ cur ∧ Addr ing = a);
  fo_ne : ∀ a l, sbi !! a = Some l → l ≠ [];
  fo_asc : ∀ a l, sbi !! a = Some l → ascending l;
  fo_all : ∀ j a, (j < n)%nat → replicaOf d keys j a → ∃ l, sbi !! a = Some l ∧ j ∈ l;
  fo_cur : ∀ ing, ing ∈ cur → ∃ l, sbi !! Addr ing = Some l ∧ n ∈ l
}.

(** *** What the counters of a tracker count

    [gs0] are the goroutines as pushStreams started them, [gs] the same
    goroutines as they stand. *)

(** The visits a goroutine has made to tracker [i]. *)
Definition visited (i : nat) (g0 g : goroutine) : Z :=
  occ i (g_streamTrackers g0) - occ i (g_streamTrackers g).

(** The visits to tracker [i] by goroutines whose RPC returned nil, and by
    those whose RPC returned an error. *)
Definition acks (i : nat) (gs0 gs : list goroutine) : Z :=
  sumZ (λ p, match g_err p.2 with None => visited i p.1 p.2 | Some _ => 0 end) (zip gs0 gs).
Definition nacks (i : nat) (gs0 gs : list goroutine) : Z :=
  sumZ (λ p, match g_err p.2 with None => 0 | Some _ => visited i p.1 p.2 end) (zip gs0 gs).

(** The replicas of stream [i] whose RPC has returned nil, and those whose
    RPC has returned an error. *)
Definition okReplicas (i : nat) (gs0 gs : list goroutine) : Z :=
  sumZ (λ p, match g_pc p.2, g_err p.2 with
             | Calling, _ => 0
             | _, None => occ i (g_streamTrackers p.1)
             | _, Some _ => 0
             end) (zip gs0 gs).
Definition failedReplicas (i : nat) (gs0 gs : list goroutine) : Z :=
  sumZ (λ p, match g_pc p.2, g_err p.2 with
             | Calling, _ => 0
             | _, None => 0
             | _, Some _ => occ i (g_streamTrackers p.1)
             end) (zip gs0 gs).

(** succeeded and failed count the visits made; a value on err is the error
    of a goroutine whose RPC has returned. *)
Record counted (gs0 : list goroutine) (s : pushState) : Prop := mkCounted {
  ct_len : length (goroutines s) = length gs0;
  ct_calling : ∀ k g0 g, gs0 !! k = Some g0 → goroutines s !! k = Some g →
      g_pc g = Calling → g_streamTrackers g = g_streamTrackers g0;
  ct_tracker : ∀ i t, trackers s !! i = Some t →
      succeeded t = acks i gs0 (goroutines s) ∧ failed t = nacks i gs0 (goroutines s);
  ct_err : ∀ e, e ∈ err s →
      ∃ k g, goroutines s !! k = Some g ∧ g_pc g ≠ Calling ∧ g_err g = Some e
}.

(** ** A Distributor to run

    Labels are a comma-separated list of values; an entry is refused when
    its line is longer than 8 bytes; the rate limiter allows 100 bytes; every
    key has the replicas a, b and c, one of which may fail.  [shards] is the
    answer of the sharder, [None] with sharding off. *)

Definition demo_parse (s : string) : list Label + error :=
  if String.eqb s EmptyString then inr (Opaque "empty label set") else inl [mkLabel "job" s].

Definition demo_string (ls : list Label) : string := String.concat "," (Value <$> ls).

Definition demo_validateEntry (vctx : validationContext) (labels : string) (e : Entry)
  : option error :=
  if negb (maxLineSize vctx =? 0) && (maxLineSize vctx <? Z.of_nat (String.length (Line e)))
  then Some (Opaque "line too long") else None.

Definition demo_ring (key : Z) : ReplicationSet + error :=
  inl (mkReplicationSet [mkInstanceDesc "a"; mkInstanceDesc "b"; mkInstanceDesc "c"] 1).

Definition demo (shards : option Z) : Distributor := {|
  cfg_ShardStreams_Enabled := bool_decide (is_Some shards);
  validator_getValidationContextForTime := λ u, mkValidationContext u 8 false true;
  validator_ValidateEntry := demo_validateEntry;
  validator_ValidateLabels := λ _ _ _, None;
  syntax_ParseLabels := demo_parse;
  Labels_String := demo_string;
  Labels_Hash := λ ls, len ls;
  util_TokenFor := λ u l, Z.of_nat (String.length u + String.length l);
  streamSharder_ShardCountFor := λ _, (default 0 shards, bool_decide (is_Some shards));
  ingestionRateLimiter_AllowN := λ _ n, n <=? 100;
  ingestionRateLimiter_Limit := λ _, 100%float;
  ingestersRing_Get := demo_ring;
  labelCache := gmap string string;
  labelCache_Get := λ c k, (c !! k, c);
  labelCache_Add := λ c k v, <[k := v]> c
|}.

Definition demo_world (shards : option Z) : pworld (demo shards) :=
  @mkPworld (demo shards) (∅ : gmap string string) [].

Definition accept_all (e : Entry) : option error := None.

(** Two entries with one timestamp and different lines. *)
Definition demo_req : PushRequest :=
  mkPushRequest [mkStream "app" [mkEntry 5 "a"; mkEntry 5 "b"] 0].

(** 13 entries of 8 bytes: 104 bytes, over the limit of 100. *)
Definition demo_big_req : PushRequest :=
  mkPushRequest [mkStream "app" (replicate 13 (mkEntry 5 "12345678")) 0].

(** One entry, with a line of more than 8 bytes. *)
Definition demo_long_req : PushRequest :=
  mkPushRequest [mkStream "app" [mkEntry 5 "a line that is too long"] 0].

(** 15 entries, to be cut into 11 shards. *)
Definition demo_entries15 : list Entry := (λ i, mkEntry i "x") <$> seqZ 1 15.
Definition demo_shard_req : PushRequest := mkPushRequest [mkStream "app" demo_entries15 0].

(** The state the Push of [demo_req] waits in, and that state after the RPC
    to a and c succeeded and the RPC to b failed. *)
Definition demo_s0 : pushState :=
  match Push (demo None) (inl "tenant") demo_req (demo_world None) with
  | Some (Awaiting _ s, _) => s
  | _ => mkPushState [] 0 0 [] [] []
  end.

Definition demo_sched : list (nat * option error) :=
  [(0, None); (1, Some (Opaque "unreachable")); (0, None); (1, None);
   (2, None); (2, None); (2, None); (2, None)]%nat.

Definition demo_s1 : pushState := default demo_s0 (runSchedule demo_sched demo_s0).

(** A context that cuts lines to 3 bytes. *)
Definition demo_truncating : validationContext := mkValidationContext "tenant" 3 true false.

(** The tracker validateStreams makes of [demo_req]. *)
Definition demo_tracker : streamTracker :=
  newStreamTracker (mkStream "app" [mkEntry 5 "a"; mkEntry 6 "b"] 0).

(** The RPC to c and to a fail; b is not heard of. *)
Definition demo_sched_fail : list (nat * option error) :=
  [(0, Some (Opaque "unreachable")); (1, Some (Opaque "timeout")); (0, None); (1, None);
   (1, None); (1, None)]%nat.

Definition demo_s2 : pushState := default demo_s0 (runSchedule demo_sched_fail demo_s0).

(** The Distributor [demo None] with a ring that has no instance. *)
Definition demo_no_ring : Distributor := {|
  cfg_ShardStreams_Enabled := false;
  validator_getValidationContextForTime := λ u, mkValidationContext u 8 false true;
  validator_ValidateEntry := demo_validateEntry;
  validator_ValidateLabels := λ _ _ _, None;
  syntax_ParseLabels := demo_parse;
  Labels_String := demo_string;
  Labels_Hash := λ ls, len ls;
  util_TokenFor := λ u l, Z.of_nat (String.length u + String.length l);
  streamSharder_ShardCountFor := λ _, (0, false);
  ingestionRateLimiter_AllowN := λ _ n, n <=? 100;
  ingestionRateLimiter_Limit := λ _, 100%float;
  ingestersRing_Get := λ _, inr (Opaque "empty ring");
  labelCache := gmap string string;
  labelCache_Get := λ c k, (c !! k, c);
  labelCache_Add := λ c k v, <[k := v]> c
|}.

Definition demo_no_ring_world : pworld demo_no_ring :=
  @mkPworld demo_no_ring (∅ : gmap string string) [].

End distributor.

(** * WAL Watcher *)

Module wal.

(** ** Data model *)

(** prometheus [record.RefSeries] *)
Record RefSeries := mkRefSeries { SeriesRef : Z; SeriesLabels : string }.

(** [wal.RefEntries] and [wal.Record] of pkg/ingester/wal *)
Record RefEntries := mkRefEntries { Ref : Z; Entries : list logproto.Entry }.
Record Record_ := mkRecord { Series : list RefSeries; RefEntries_ : list RefEntries }.

(** The WriteTo interface: a sink with its own state. *)
Record WriteTo := mkWriteTo {
  sink : Type;
  StoreSeries : list RefSeries → Z → sink → sink;
  AppendEntries : RefEntries → sink → option error * sink;
  SeriesReset : Z → sink → sink
}.

(** The calls the Watcher makes on its sink, in order. *)
Inductive call : Type :=
| CallStoreSeries (series : list RefSeries) (segmentNum : Z)
| CallAppendEntries (entries : RefEntries) (result : option error)
| CallSeriesReset (segmentNum : Z).

(** One call of [r.Next()] on a wlog.LiveReader. *)
Inductive next : Type :=
| NextRecord (b : list Byte.byte) (rerr : option error)  (* true; then r.Record() and r.Err() *)
| NextEnd (rerr : option error).                         (* false; then r.Err() *)

(** Modelled from the spec: the type [diffset] with [newDiffset] and
    [Difference] is declared outside the files at hand.  Section 4.6 has the
    sweep "diff the newly observed segment-id set against the previously
    observed set" to find the "previously-seen segment ids [that] are now
    absent": a finite set of ids, built from the listed ids, with set
    difference. *)
Definition diffset : Type := gset Z.
Definition newDiffset (segments : list Z) : diffset := list_to_set segments.
Definition Difference (s other : diffset) : diffset := s ∖ other.

(** The Watcher: its sink, its configuration and the collaborators it reads
    the WAL through.
    - [quitAt]: the quit channel is closed from instant [q] on ([None]: Stop
      is never called); every look at the channel happens at the next instant
      of [w_clock].
    - [wlog_OpenReadSegment n]: opening segment [n] fails, or gives a reader
      whose successive [Next()] calls answer as listed; past the end of the
      list every call finds no complete record ([io.EOF]). *)
Record Watcher := mkWatcher {
  writeTo : WriteTo;
  MaxSegment : Z;
  quitAt : option nat;
  wal_DecodeRecord : list Byte.byte → Record_ + error;
  wlog_OpenReadSegment : Z → list next + error
}.

Record world (wt : WriteTo) := mkWorld {
  w_sink : sink wt;
  w_calls : list call;
  w_clock : nat;
  w_seenSegments : diffset;
  w_opened : list Z                (* the segments opened by watch, in order *)
}.
Arguments mkWorld {wt}.
Arguments w_sink {wt}.
Arguments w_calls {wt}.
Arguments w_clock {wt}.
Arguments w_seenSegments {wt}.
Arguments w_opened {wt}.

(** What wakes the select of watch: the directory is listed on a segment tick. *)
Inductive tick : Type :=
| QuitTick
| SegmentTick (dir : list string + error)
| ReadTick.

(** ** strconv.Atoi (64-bit int) *)

Definition digit (a : Ascii.ascii) : option Z :=
  let n := Z.of_nat (Ascii.nat_of_ascii a) in
  if (48 <=? n) && (n <=? 57) then Some (n - 48) else None.

Fixpoint digits (s : string) (acc : Z) : option Z :=
  match s with
  | EmptyString => Some acc
  | String c r => d ← digit c; digits r (10 * acc + d)
  end.

Definition Atoi (s : string) : option Z :=
  let '(neg, body) :=
    match s with
    | String "-"%char r => (true, r)
    | String "+"%char r => (false, r)
    | _ => (false, s)
    end in
  match body with
  | EmptyString => None
  | _ =>
      v ← digits body 0;
      let k := if neg : bool then - v else v in
      if (- 2 ^ 63 <=? k) && (k <? 2 ^ 63) then Some k else None
  end.

(** ** readSegmentNumbers, firstAndLast *)

(** [dir] is what [os.ReadDir(w.walDir)] answers: the entry names, or an error. *)
Definition readSegmentNumbers (dir : list string + error) : list Z + error :=
  match dir with
  | inr err => inr err
  | inl files =>
      inl (foldl (λ refs f, match Atoi f with
                            | None => refs
                            | Some k => refs ++ [k]
                            end) [] files)
  end.

Definition firstAndLast (dir : list string + error) : Z * Z * option error :=
  match readSegmentNumbers dir with
  | inr err => (-1, -1, Some err)
  | inl refs =>
      if Nat.eqb (length refs) 0 then (-1, -1, None)
      else
        let fl := foldl (λ (fl : Z * Z) segmentReg,
                           (if segmentReg <? fl.1 then segmentReg else fl.1,
                            if fl.2 <? segmentReg then segmentReg else fl.2))
                        (MaxInt32, -1) refs in
        (fl.1, fl.2, None)
  end.

(** ** isClosed *)

Definition closedAt (wc : Watcher) (t : nat) : bool :=
  match quitAt wc with
  | Some q => (q <=? t)%nat
  | None => false
  end.

Definition isClosed (wc : Watcher) (w : world (writeTo wc)) : bool * world (writeTo wc) :=
  (closedAt wc (w_clock w),
   mkWorld (w_sink w) (w_calls w) (S (w_clock w)) (w_seenSegments w) (w_opened w)).

(** ** readSegmentsAndEmitSeriesResets *)

Definition readSegmentsAndEmitSeriesResets (wc : Watcher) (dir : list string + error)
    (w : world (writeTo wc)) : option error * world (writeTo wc) :=
  match readSegmentNumbers dir with
  | inr err => (Some err, w)
  | inl segments =>
      let newSeenSegments := newDiffset segments in
      let diff := Difference (w_seenSegments w) newSeenSegments in
      if Nat.eqb (size diff) 0
      then (None, mkWorld (w_sink w) (w_calls w) (w_clock w) newSeenSegments (w_opened w))
      else
        let maxDeleted := set_fold (λ s maxDeleted, if maxDeleted <? s then s else maxDeleted)
                                   (-1) diff in
        (None, mkWorld (SeriesReset (writeTo wc) maxDeleted (w_sink w))
                       (w_calls w ++ [CallSeriesReset maxDeleted])
                       (w_clock w) newSeenSegments (w_opened w))
  end.

(** ** decodeAndDispatch *)

(** [for _, entries := range rec.RefEntries] *)
Fixpoint appendLoop (wc : Watcher) (l : list RefEntries) (firstErr : option error)
    (w : world (writeTo wc)) : option error * world (writeTo wc) :=
  match l with
  | [] => (firstErr, w)
  | entries :: rest =>
      let r := AppendEntries (writeTo wc) entries (w_sink w) in
      let w1 := mkWorld r.2 (w_calls w ++ [CallAppendEntries entries r.1])
                        (w_clock w) (w_seenSegments w) (w_opened w) in
      let firstErr1 := match r.1, firstErr with
                       | Some err, None => Some err
                       | _, _ => firstErr
                       end in
      appendLoop wc rest firstErr1 w1
  end.

Definition decodeAndDispatch (wc : Watcher) (b : list Byte.byte) (segmentNum : Z)
    (w : world (writeTo wc)) : option error * world (writeTo wc) :=
  match wal_DecodeRecord wc b with
  | inr err => (Some err, w)
  | inl rec =>
      let w1 := mkWorld (StoreSeries (writeTo wc) (Series rec) segmentNum (w_sink w))
                        (w_calls w ++ [CallStoreSeries (Series rec) segmentNum])
                        (w_clock w) (w_seenSegments w) (w_opened w) in
      appendLoop wc (RefEntries_ rec) None w1
  end.

(** ** readSegment *)

(** [errors.Wrapf(err, ...)]: nil stays nil. *)
Definition Wrapf_opt (e : option error) (msg : string) : option error :=
  (λ c, Wrapf c msg) <$> e.

(** [errors.Cause(err) != io.EOF] *)
Definition causeNotEOF (e : option error) : bool :=
  match e with
  | None => true
  | Some c => negb (isEOF (Cause c))
  end.

Fixpoint readSegment (wc : Watcher) (r : list next) (segmentNum : Z)
    (w : world (writeTo wc)) : option error * list next * world (writeTo wc) :=
  match r with
  | [] => (Wrapf_opt (Some EOF) "segment", [], w)
  | NextEnd rerr :: r' => (Wrapf_opt rerr "segment", r', w)
  | NextRecord b rerr :: r' =>
      let c := isClosed wc w in
      if c.1 then (Wrapf_opt rerr "segment", r', c.2)
      else
        match rerr with
        | Some err => (Some err, r', c.2)
        | None =>
            let d := decodeAndDispatch wc b segmentNum c.2 in
            match d.1 with
            | Some err => (Some err, r', d.2)
            | None => readSegment wc r' segmentNum d.2
            end
        end
  end.

(** ** watch *)

Inductive watchResult : Type :=
| WReturned (e : option error)
| WTailing.                       (* nothing more happens: still waiting in the select *)

Fixpoint watchLoop (wc : Watcher) (segmentNum : Z) (ticks : list tick) (reader : list next)
    (w : world (writeTo wc)) : watchResult * list tick * world (writeTo wc) :=
  match ticks with
  | [] => (WTailing, [], w)
  | QuitTick :: rest =>
      match quitAt wc with
      | None => (WTailing, ticks, w)
      | Some q =>
          (WReturned None, rest,
           mkWorld (w_sink w) (w_calls w) (S (Nat.max q (w_clock w)))
                   (w_seenSegments w) (w_opened w))
      end
  | SegmentTick dir :: rest =>
      match firstAndLast dir with
      | (_, _, Some err) => (WReturned (Some (Errorf "segments" err)), rest, w)
      | (_, last, None) =>
          if last <=? segmentNum then watchLoop wc segmentNum rest reader w
          else
            let rs := readSegment wc reader segmentNum w in
            if causeNotEOF rs.1.1 then (WReturned rs.1.1, rest, rs.2)
            else (WReturned None, rest, rs.2)
      end
  | ReadTick :: rest =>
      let rs := readSegment wc reader segmentNum w in
      if causeNotEOF rs.1.1 then (WReturned rs.1.1, rest, rs.2)
      else watchLoop wc segmentNum rest rs.1.2 rs.2
  end.

Definition watch (wc : Watcher) (segmentNum : Z) (ticks : list tick)
    (w : world (writeTo wc)) : watchResult * list tick * world (writeTo wc) :=
  match wlog_OpenReadSegment wc segmentNum with
  | inr err => (WReturned (Some err), ticks, w)
  | inl reader =>
      watchLoop wc segmentNum ticks reader
                (mkWorld (w_sink w) (w_calls w) (w_clock w) (w_seenSegments w)
                         (w_opened w ++ [segmentNum]))
  end.

(** ** run *)

Inductive runResult : Type :=
| RReturned (e : option error)
| RTailing (segmentNum : Z)       (* inside watch of this segment, waiting *)
| ROutOfFuel.

(** [for !isClosed(w.quit)] with [fuel] iterations allowed. *)
Fixpoint runLoop (wc : Watcher) (fuel : nat) (currentSegment : Z) (ticks : list tick)
    (w : world (writeTo wc)) : runResult * list tick * world (writeTo wc) :=
  match fuel with
  | O => (ROutOfFuel, ticks, w)
  | S fuel' =>
      let c := isClosed wc w in
      if c.1 then (RReturned None, ticks, c.2)
      else
        match watch wc currentSegment ticks c.2 with
        | (WTailing, ticks1, w1) => (RTailing currentSegment, ticks1, w1)
        | (WReturned (Some err), ticks1, w1) => (RReturned (Some err), ticks1, w1)
        | (WReturned None, ticks1, w1) =>
            if currentSegment =? MaxSegment wc then (RReturned None, ticks1, w1)
            else runLoop wc fuel' (currentSegment + 1) ticks1 w1
        end
  end.

(** [dir] is the listing seen by the first discovery; every later listing
    comes with its segment tick. *)
Definition run (wc : Watcher) (fuel : nat) (dir : list string + error) (ticks : list tick)
    (w : world (writeTo wc)) : runResult * list tick * world (writeTo wc) :=
  match firstAndLast dir with
  | (_, _, Some err) => (RReturned (Some (Errorf "wal.Segments" err)), ticks, w)
  | (_, lastSegment, None) => runLoop wc fuel lastSegment ticks w
  end.

(** ** NewWatcher *)

(** [NewWatcher]: MaxSegment is -1 and no segment has been seen.  The
    directory, the logger and the metrics are not part of the model; the
    collaborators the Watcher reads the WAL through are given with the sink,
    and [quitAt] says when Stop closes the quit channel. *)
Definition NewWatcher (writeTo : WriteTo) (quitAt : option nat)
    (decode : list Byte.byte → Record_ + error) (open : Z → list next + error) : Watcher :=
  mkWatcher writeTo (-1) quitAt decode open.

(** The world a new Watcher starts in, around the sink state [s]. *)
Definition newWorld (wt : WriteTo) (s : sink wt) : world wt := mkWorld s [] 0%nat ∅ [].

(** ** runSeriesResetWatcher *)

(** What wakes the select of runSeriesResetWatcher: the ticker, with the
    directory as the sweep then lists it, or the quit channel. *)
Inductive resetTick : Type :=
| SweepTick (dir : list string + error)
| SweepQuit.

(** [true]: the goroutine has returned; [false]: it waits in its select.
    The error of a sweep is logged and the loop goes on. *)
Fixpoint runSeriesResetWatcher (wc : Watcher) (ticks : list resetTick)
    (w : world (writeTo wc)) : bool * world (writeTo wc) :=
  match ticks with
  | [] => (false, w)
  | SweepTick dir :: rest =>
      runSeriesResetWatcher wc rest (readSegmentsAndEmitSeriesResets wc dir w).2
  | SweepQuit :: _ =>
      match quitAt wc with
      | None => (false, w)
      | Some q =>
          (true, mkWorld (w_sink w) (w_calls w) (S (Nat.max q (w_clock w)))
                         (w_seenSegments w) (w_opened w))
      end
  end.

(** ** mainLoop *)

(** What ends the pause of mainLoop after a run. *)
Inductive wake : Type :=
| WakeQuit               (* case <-w.quit *)
| WakeTimer.             (* case <-time.After(5 * time.Second) *)

(** One turn of the loop as its surroundings decide it: the listing the
    discovery of run sees, the ticks its watch calls receive, and what ends
    the pause that follows. *)
Record turn := mkTurn {
  t_dir : list string + error;
  t_ticks : list tick;
  t_wake : wake
}.

Inductive mainResult : Type :=
| MReturned                    (* mainLoop has returned and closed w.done *)
| MInRun (segmentNum : Z)      (* inside run, in the watch of this segment *)
| MPaused                      (* in the select after run *)
| MAtHead.                     (* at the head of the loop, no turn left *)

(** The error of run is logged and the loop goes on.  run is given one
    iteration more than it has ticks, which is all it can use. *)
Fixpoint mainLoop (wc : Watcher) (turns : list turn) (w : world (writeTo wc))
  : mainResult * world (writeTo wc) :=
  match turns with
  | [] => (MAtHead, w)
  | t :: rest =>
      let c := isClosed wc w in
      if c.1 then (MReturned, c.2)
      else
        match run wc (S (length (t_ticks t))) (t_dir t) (t_ticks t) c.2 with
        | (RTailing n, _, w1) => (MInRun n, w1)
        | (_, _, w1) =>
            match t_wake t with
            | WakeTimer => mainLoop wc rest w1
            | WakeQuit =>
                match quitAt wc with
                | None => (MPaused, w1)
                | Some q =>
                    (MReturned,
                     mkWorld (w_sink w1) (w_calls w1) (S (Nat.max q (w_clock w1)))
                             (w_seenSegments w1) (w_opened w1))
                end
            end
        end
  end.

(** ** What the proofs speak of *)

(** One step of the fold of firstAndLast, and of the loop over the diff. *)
Definition minmax (fl : Z * Z) (segmentReg : Z) : Z * Z :=
  (if segmentReg <? fl.1 then segmentReg else fl.1,
   if fl.2 <? segmentReg then segmentReg else fl.2).

Definition maxStep (s maxDeleted : Z) : Z := if maxDeleted <? s then s else maxDeleted.

(** The first error among the answers of the sink. *)
Fixpoint firstError (results : list (option error)) : option error :=
  match results with
  | [] => None
  | Some e :: _ => Some e
  | None :: rest => firstError rest
  end.

(** The discovery as the specification words it: the ids are the names that
    parse as a non-negative integer; the answer is their least and greatest,
    or (-1, -1) when there is none. *)
Definition spec_segment_id (name : string) : option Z :=
  k ← Atoi name; if 0 <=? k then Some k else None.

Definition spec_firstAndLast (files : list string) : Z * Z :=
  match omap spec_segment_id files with
  | [] => (-1, -1)
  | k :: ks => (foldr Z.min k ks, foldr Z.max k ks)
  end.

(** The calls decodeAndDispatch makes for a record the sink takes whole. *)
Definition dispatched (segmentNum : Z) (rec : Record_) : list call :=
  CallStoreSeries (Series rec) segmentNum
    :: ((λ e, CallAppendEntries e None) <$> RefEntries_ rec).

(** A call the tailing of segments [lo] up to [hi] may make. *)
Definition tailCall (lo hi : Z) (c : call) : Prop :=
  match c with
  | CallStoreSeries _ n => lo ≤ n < hi
  | CallAppendEntries _ _ => True
  | CallSeriesReset _ => False
  end.

(** A call that is not SeriesReset. *)
Definition notReset (c : call) : Prop :=
  match c with CallSeriesReset _ => False | _ => True end.

(** A WAL directory that moves forward: each listing holds the segments
    from [lo'] up to [hi'], and neither bound lies before that of the
    listing before it. *)
Fixpoint advancing (lo hi : Z) (sweeps : list (Z * Z * list string)) : Prop :=
  match sweeps with
  | [] => True
  | (lo', hi', files) :: rest =>
      lo ≤ lo' ∧ hi ≤ hi' ∧ (∀ x, x ∈ omap Atoi files ↔ lo' ≤ x < hi') ∧
      advancing lo' hi' rest
  end.

(** Every element is greater than those before it. *)
Definition increasing (l : list Z) : Prop :=
  ∀ p q x y, l !! p = Some x → l !! q = Some y → (p < q)%nat → x < y.

(** ** A Watcher to run

    Segment 0 holds two records: one with three series and an entry batch
    for each, one with an entry batch for series 3.  Segment 1 is empty. *)

Definition demo_entries (ref : Z) : RefEntries :=
  mkRefEntries ref [logproto.mkEntry 1 "line"].

Definition demo_decode (b : list Byte.byte) : Record_ + error :=
  match b with
  | [Byte.x00] =>
      inl (mkRecord [mkRefSeries 1 "a"; mkRefSeries 2 "b"; mkRefSeries 3 "c"]
                    [demo_entries 1; demo_entries 2; demo_entries 3])
  | [Byte.x01] => inl (mkRecord [] [demo_entries 3])
  | _ => inr (Opaque "corrupt record")
  end.

Definition demo_open (segmentNum : Z) : list next + error :=
  if segmentNum =? 0 then inl [NextRecord [Byte.x00] None; NextRecord [Byte.x01] None]
  else if segmentNum =? 1 then inl []
  else inr (Opaque "no such segment").

(** A sink that keeps the references it was given and refuses those of series
    [refused]. *)
Definition demo_sink (refused : Z) : WriteTo := {|
  sink := list Z;
  StoreSeries := λ _ _ s, s;
  AppendEntries := λ e s,
    if Ref e =? refused then (Some (Opaque "sink closed"), s) else (None, s ++ [Ref e]);
  SeriesReset := λ n s, List.filter (λ r, n <? r) s
|}.

Definition demo_watcher (refused : Z) : Watcher :=
  mkWatcher (demo_sink refused) (-1) None demo_decode demo_open.

Definition demo_wal (refused : Z) (seen : list Z) : world (writeTo (demo_watcher refused)) :=
  @mkWorld (demo_sink refused) [] [] 0 (list_to_set seen) [].

(** A sink that takes everything and keeps the references it was given. *)
Definition demo_sink_all : WriteTo := {|
  sink := list Z;
  StoreSeries := λ _ _ s, s;
  AppendEntries := λ e s, (None, s ++ [Ref e]);
  SeriesReset := λ n s, List.filter (λ r, n <? r) s
|}.

Definition demo_watcher_all : Watcher := NewWatcher demo_sink_all None demo_decode demo_open.

(** A Watcher whose quit channel is closed from the start. *)
Definition demo_watcher_stopped : Watcher :=
  NewWatcher demo_sink_all (Some 0%nat) demo_decode demo_open.

(** Segments 0, 1 and 2, then 2 and 3 once the first two are deleted. *)
Definition demo_sweeps : list (Z * Z * list string) :=
  [(0, 3, ["00000000"; "00000001"; "00000002"]); (2, 4, ["00000002"; "00000003"])].

End wal.

(** * The client Manager that starts the Watchers *)

Module client.

(** What NewManager fails with. *)
Inductive managerError : Type :=
| NoClientConfig                    (* "at least one client config should be provided" *)
| DuplicateClient (name : string)   (* "duplicate client configs are not allowed, ..." *)
| ClientError (e : error).          (* the error of New *)

(** [walWatchers] holds the Watchers by their id. *)
Record Manager (Client : Type) := mkManager {
  clients : list Client;
  walWatchers : list string
}.
Arguments mkManager {Client}.
Arguments clients {Client}.
Arguments walWatchers {Client}.

(** What Stop does, in order. *)
Inductive stopEvent (Client : Type) : Type :=
| CloseEntries                      (* m.once.Do(func() { close(m.entries) }); m.wg.Wait() *)
| WatcherStop (id : string)         (* walWatcher.Stop() *)
| ClientStop (c : Client).          (* c.Stop() *)
Arguments CloseEntries {Client}.
Arguments WatcherStop {Client}.
Arguments ClientStop {Client}.

Section manager.
Variables Config Client : Type.
Variable cfg_Name : Config → string.          (* cfg.Name *)
Variable New : Config → Client + error.       (* client.New(metrics, cfg, ...) *)
Variable Name : Client → string.              (* client.Name() *)

(** [for _, cfg := range clientCfgs]; [started] lists the ids of the Watchers
    made by wal.NewWatcher and started by watcher.Start(), in order. *)
Fixpoint managerLoop (cfgs : list Config) (clientsCheck : gset string)
    (clients : list Client) (watchers started : list string)
  : (list Client * list string + managerError) * list string :=
  match cfgs with
  | [] => (inl (clients, watchers), started)
  | cfg :: rest =>
      match New cfg with
      | inr err => (inr (ClientError err), started)
      | inl client =>
          if decide (Name client ∈ clientsCheck)
          then (inr (DuplicateClient (cfg_Name cfg)), started)
          else managerLoop rest ({[Name client]} ∪ clientsCheck) (clients ++ [client])
                           (watchers ++ [Name client]) (started ++ [Name client])
      end
  end.

(** [manager := &Manager{clients: clients, entries: ...}]: the local
    [watchers] is not stored; walWatchers keeps its zero value. *)
Definition NewManager (clientCfgs : list Config)
  : (Manager Client + managerError) * list string :=
  if Nat.eqb (length clientCfgs) 0 then (inr NoClientConfig, [])
  else
    match managerLoop clientCfgs ∅ [] [] [] with
    | (inl (clients, watchers), started) => (inl (mkManager clients []), started)
    | (inr err, started) => (inr err, started)
    end.

Definition Stop (m : Manager Client) : list (stopEvent Client) :=
  CloseEntries :: (WatcherStop <$> walWatchers m) ++ (ClientStop <$> clients m).

(** [for i, c := range m.clients] of Manager.Name, from index [i] on. *)
Fixpoint nameLoop (n i : Z) (cs : list Client) (sb : string) : string :=
  match cs with
  | [] => sb
  | c :: rest =>
      let sb1 := sb +:+ Name c in
      nameLoop n (i + 1) rest (if negb (i =? n - 1) then sb1 +:+ "," else sb1)
  end.

Definition Manager_Name (m : Manager Client) : string :=
  nameLoop (Z.of_nat (length (clients m))) 0 (clients m) "wal:".

End manager.

(** Clients named by their configuration; the configuration [bad] cannot
    be made a client of. *)
Definition demo_New (cfg : string) : string + error :=
  if String.eqb cfg "bad" then inr (Opaque "bad url") else inl cfg.

End client.

(** * Facts about the Distributor *)

Module distributor_facts.
Import logproto distributor.

(** ** The entry loop of validateStreams *)

Lemma drop_S_eq {A} (l1 l2 : list A) (i : nat) :
  drop i l1 = drop i l2 → drop (S i) l1 = drop (S i) l2.
Proof.
  intros H. replace (S i) with (i + 1)%nat by lia.
  rewrite <- !drop_drop. by rewrite H.
Qed.

Lemma alter_insert_same {A} (f : A → A) (l : list A) (n : nat) (x : A) :
  alter f n (<[n := x]> l) = <[n := f x]> l.
Proof.
  revert n; induction l as [|y r IH]; intros [|n]; try done.
  cbn. f_equal. apply IH.
Qed.

Lemma sizeOf_snoc l e : sizeOf (l ++ [e]) = sizeOf l + Z.of_nat (String.length (Line e)).
Proof. unfold sizeOf. induction l as [|x r IH]; simpl; lia. Qed.

Section entry_loop_facts.
Variable ValidateEntry : Entry → option error.
Variable increment : bool.

Lemma bumpFrom_length p l : length (bumpFrom increment p l) = length l.
Proof. revert p; induction l as [|e r IH]; intros p; simpl; [done|]. by rewrite IH. Qed.

Lemma bumpAll_length l : length (bumpAll increment l) = length l.
Proof. destruct l; simpl; [done|]. by rewrite bumpFrom_length. Qed.

Lemma bumpFrom_snoc p l e :
  bumpFrom increment p (l ++ [e]) =
  bumpFrom increment p l ++ [bump increment (default p (last (bumpFrom increment p l))) e].
Proof.
  revert p; induction l as [|x r IH]; intros p; simpl; [done|].
  rewrite IH. f_equal. f_equal. f_equal.
  destruct (bumpFrom increment (bump increment p x) r) as [|y r'] eqn:E; simpl; [done|].
  by rewrite last_cons; destruct (last r').
Qed.

Lemma bumpAll_snoc l e :
  bumpAll increment (l ++ [e]) =
  bumpAll increment l ++
    [match last (bumpAll increment l) with Some p => bump increment p e | None => e end].
Proof.
  destruct l as [|x r]; simpl; [done|].
  rewrite bumpFrom_snoc. f_equal. f_equal.
  rewrite last_cons. by destruct (last (bumpFrom increment x r)).
Qed.

Lemma validOnly_snoc l e :
  validOnly ValidateEntry (l ++ [e]) =
  validOnly ValidateEntry l ++ (if valid ValidateEntry e then [e] else []).
Proof. unfold validOnly. by rewrite List.filter_app. Qed.

(** A valid entry is stored at index [n], bumped against its predecessor. *)
Lemma entryBody_valid entry st :
  ValidateEntry entry = None →
  (vs_n st < length (vs_arr st))%nat →
  entryBody ValidateEntry increment entry st =
  mkVstate (<[vs_n st := match (if Nat.eqb (vs_n st) 0 then None
                                else vs_arr st !! (vs_n st - 1)%nat) with
                         | Some p => bump increment p entry
                         | None => entry
                         end]> (vs_arr st))
           (S (vs_n st)) (vs_err st)
           (vs_size st + Z.of_nat (String.length (Line entry))) (vs_count st + 1).
Proof.
  intros Hv Hn. unfold entryBody. rewrite Hv. f_equal.
  destruct (Nat.eqb_spec (vs_n st) 0) as [H0|H0].
  { by rewrite andb_false_r. }
  rewrite andb_true_r.
  rewrite list_lookup_insert_ne by lia.
  destruct (lookup_lt_is_Some_2 (vs_arr st) (vs_n st - 1)%nat) as [p Hp]; [lia|].
  rewrite Hp. unfold bump. destruct increment; [|done].
  destruct (String.eqb (Line p) (Line entry)); [done|].
  by rewrite alter_insert_same.
Qed.

Lemma entryBody_inv arr0 verr0 size0 count0 i st entry :
  loop_inv ValidateEntry increment arr0 verr0 size0 count0 i st →
  arr0 !! i = Some entry →
  vs_arr st !! i = Some entry ∧
  loop_inv ValidateEntry increment arr0 verr0 size0 count0 (S i) (entryBody ValidateEntry increment entry st).
Proof.
  intros (Hlen & Hn & Hdrop & Htake & Hcount & Hsize & Herr) Hi.
  assert (Hai : vs_arr st !! i = Some entry).
  { rewrite <- (Nat.add_0_r i), <- lookup_drop, Hdrop, lookup_drop, Nat.add_0_r. done. }
  split; [done|].
  assert (Hil : (i < length arr0)%nat) by (by eapply lookup_lt_Some).
  unfold loop_inv.
  rewrite (take_S_r _ _ _ Hi), validOnly_snoc, omap_app. unfold valid. simpl.
  destruct (ValidateEntry entry) as [e|] eqn:Hv.
  - unfold entryBody. rewrite Hv. simpl. rewrite !app_nil_r.
    rewrite last_snoc. simpl.
    repeat split; try done; try lia. by apply drop_S_eq.
  - rewrite entryBody_valid by (done || lia). simpl. rewrite app_nil_r.
    rewrite length_insert, bumpAll_snoc, sizeOf_snoc.
    unfold len in *. rewrite length_app. simpl.
    repeat split; try done; try lia.
    + rewrite drop_insert_lt by lia. by apply drop_S_eq.
    + erewrite take_S_r by (apply list_lookup_insert_eq; lia).
      rewrite take_insert_ge by lia. rewrite Htake. f_equal. f_equal.
      rewrite <- Htake, last_lookup, length_take, lookup_take.
      replace (vs_n st `min` length (vs_arr st))%nat with (vs_n st) by lia.
      destruct (Nat.eqb_spec (vs_n st) 0) as [H0|H0].
      * rewrite H0. simpl. done.
      * rewrite decide_True by lia. 
        replace (Init.Nat.pred (vs_n st)) with (vs_n st - 1)%nat by lia. done.
Qed.

Lemma entryLoop_inv arr0 verr0 size0 count0 todo i st :
  loop_inv ValidateEntry increment arr0 verr0 size0 count0 i st →
  (i + todo = length arr0)%nat →
  loop_inv ValidateEntry increment arr0 verr0 size0 count0 (length arr0) (entryLoop ValidateEntry increment todo i st).
Proof.
  revert i st; induction todo as [|todo IH]; intros i st Hinv Hlen; simpl.
  - by replace (length arr0) with i by lia.
  - destruct (lookup_lt_is_Some_2 arr0 i) as [entry Hi]; [lia|].
    destruct (entryBody_inv _ _ _ _ _ _ _ Hinv Hi) as [-> Hinv'].
    apply IH; [done|lia].
Qed.

Lemma validateEntries_spec entries verr size count :
  validateEntries ValidateEntry increment entries verr size count =
  (bumpAll increment (validOnly ValidateEntry entries),
   from_option Some verr (last (omap ValidateEntry entries)),
   size + sizeOf (validOnly ValidateEntry entries),
   count + len (validOnly ValidateEntry entries)).
Proof.
  unfold validateEntries.
  destruct (entryLoop_inv entries verr size count (length entries) 0%nat
              (mkVstate entries 0 verr size count))
    as (Hlen & Hn & Hdrop & Htake & Hcount & Hsize & Herr).
  - unfold loop_inv; simpl. repeat split; try done; unfold len; simpl; lia.
  - lia.
  - rewrite firstn_all in *. by rewrite Htake, Herr, Hsize, Hcount.
Qed.

Lemma bumpFrom_lookup r p k prev e :
  (p :: bumpFrom increment p r) !! k = Some prev →
  r !! k = Some e →
  bumpFrom increment p r !! k = Some (bump increment prev e).
Proof.
  revert p k; induction r as [|e0 r IH]; intros p k Hp He; [done|].
  destruct k as [|k]; simpl in *.
  - by simplify_eq.
  - by apply IH.
Qed.

Lemma bumpAll_lookup_S l k prev e :
  bumpAll increment l !! k = Some prev →
  l !! S k = Some e →
  bumpAll increment l !! S k = Some (bump increment prev e).
Proof.
  destruct l as [|x r]; [done|]. simpl. intros Hp He.
  by apply bumpFrom_lookup.
Qed.

Lemma bumpFrom_Line p l : Line <$> bumpFrom increment p l = Line <$> l.
Proof.
  revert p; induction l as [|e r IH]; intros p; simpl; [done|].
  rewrite IH. f_equal. unfold bump. destruct increment; [|done].
  by destruct (String.eqb (Line p) (Line e)).
Qed.

Lemma bumpAll_Line l : Line <$> bumpAll increment l = Line <$> l.
Proof. destruct l; simpl; [done|]. by rewrite bumpFrom_Line. Qed.

End entry_loop_facts.

(** C5: with duplicate-timestamp incrementing on, a valid entry whose line
    differs from the line of the valid entry stored just before it gets the
    timestamp max(own, predecessor + 1ns): predecessor + 1ns when its own
    timestamp is not already greater, its own otherwise.  An entry whose line
    is identical to its predecessor's is stored unchanged, whatever the
    timestamps.  [v] are the entries that pass ValidateEntry, in order;
    [out] is what the loop leaves in stream.Entries. *)
Theorem C5_duplicate_timestamps_incremented
    (ValidateEntry : Entry → option error) (entries : list Entry)
    (verr : option error) (size count : Z) (k : nat) (prev e : Entry) :
  let out := (validateEntries ValidateEntry true entries verr size count).1.1.1 in
  let v := validOnly ValidateEntry entries in
  out !! k = Some prev →
  v !! S k = Some e →
  length out = length v ∧
  (∃ e0, v !! k = Some e0 ∧ Line prev = Line e0) ∧
  ∃ cur, out !! S k = Some cur ∧ Line cur = Line e ∧
    (Line e ≠ Line prev →
       Timestamp cur = maxT (Timestamp e) (Timestamp prev + 1) ∧
       (Timestamp e ≤ Timestamp prev → Timestamp cur = Timestamp prev + 1) ∧
       (Timestamp prev < Timestamp e → Timestamp cur = Timestamp e)) ∧
    (Line e = Line prev → cur = e).
Proof.
  intros out v Hprev He. subst out v. rewrite validateEntries_spec in *. simpl in *.
  split; [apply bumpAll_length|]. split.
  - assert (HL := bumpAll_Line true (validOnly ValidateEntry entries)).
    apply (f_equal (λ l, l !! k)) in HL. rewrite !list_lookup_fmap, Hprev in HL.
    destruct (validOnly ValidateEntry entries !! k) as [e0|]; [|done].
    exists e0. split; [done|]. simpl in HL. by simplify_eq.
  - exists (bump true prev e). split; [by apply bumpAll_lookup_S|].
    unfold bump. destruct (String.eqb_spec (Line prev) (Line e)) as [Heq|Hne].
    + repeat split; try done; intros Hne; by destruct Hne.
    + simpl. repeat split; try done; unfold maxT; intros; try congruence;
        destruct (Z.ltb_spec (Timestamp e) (Timestamp prev + 1)); lia.
Qed.

Lemma C5_witness :
  ∃ cur, (validateEntries accept_all true [mkEntry 5 "a"; mkEntry 5 "b"] None 0 0).1.1.1 !! 1%nat
         = Some cur ∧ Timestamp cur = 6.
Proof.
  destruct (C5_duplicate_timestamps_incremented accept_all
              [mkEntry 5 "a"; mkEntry 5 "b"] None 0 0 0 (mkEntry 5 "a") (mkEntry 5 "b")
              eq_refl eq_refl)
    as (_ & _ & cur & Hcur & _ & Hne & _).
  exists cur. split; [exact Hcur|].
  destruct Hne as (_ & Hle & _); [discriminate|]. apply Hle. simpl. lia.
Defined.

(** ** The rate limit *)

Lemma ringLoop_trace d keys i streams sbi descs tr r tr' :
  ringLoop d keys i streams sbi descs tr = Some (r, tr') →
  ∃ ks, tr' = tr ++ (EvRingGet <$> ks).
Proof.
  revert i streams sbi descs tr; induction keys as [|key rest IH];
    intros i streams sbi descs tr H; simplify_eq/=.
  { exists []. by rewrite app_nil_r. }
  destruct (ingestersRing_Get d key) as [rs|e].
  - destruct (streams !! i) as [t|]; simplify_eq/=.
    apply IH in H as [ks ->]. exists (key :: ks). by rewrite <- app_assoc.
  - simplify_eq. by exists [key].
Qed.

Lemma pushStreams_trace d keys streams userID (w : pworld d) r w2 :
  pushStreams d keys streams userID w = Some (r, w2) →
  ∃ evs, trace w2 = trace w ++ evs ∧ Forall (λ ev, isAllowN ev = false) evs.
Proof.
  unfold pushStreams. intros H.
  destruct (ringLoop d keys 0 streams ∅ ∅ (trace w)) as [[r' tr']|] eqn:Hr; [|done].
  apply ringLoop_trace in Hr as [ks ->]. cbn [mbind option_bind] in H.
  destruct r' as [[[streams1 sbi] descs]|e]; simplify_eq; simpl.
  - eexists. rewrite <- app_assoc. split; [done|].
    apply Forall_app. split; apply Forall_fmap, Forall_forall; done.
  - eexists. split; [done|]. apply Forall_fmap, Forall_forall; done.
Qed.

(** What one stream adds to the validated count and byte size: nothing when
    it is passed over, else the number and the line bytes of its entries,
    truncated as configured, that ValidateEntry accepts. *)
Lemma validateStream_totals d vctx userID stream c acc c' acc' :
  validateStream d vctx userID stream c acc = Some (c', acc') →
  ∃ kept,
    va_validatedSamplesSize acc' = va_validatedSamplesSize acc + sizeOf kept ∧
    va_validatedSamplesCount acc' = va_validatedSamplesCount acc + len kept ∧
    (kept = [] ∨
     ∃ entries1 lbls,
       truncateLines vctx (Entries stream) = Some entries1 ∧
       (parseStreamLabels d vctx (Labels stream)
          (mkStream (Labels stream) entries1 (Hash stream)) c).1 = inl lbls ∧
       kept = validOnly (validator_ValidateEntry d vctx lbls) entries1).
Proof.
  unfold validateStream. intros H.
  destruct (Nat.eqb (length (Entries stream)) 0).
  { simplify_eq. exists []. unfold sizeOf, len. simpl. split; [lia|]. split; [lia|by left]. }
  destruct (truncateLines vctx (Entries stream)) as [entries1|]; [|done].
  cbn [mbind option_bind Labels] in H.
  destruct (parseStreamLabels d vctx (Labels stream) _ c) as [[lbls|e] c1] eqn:Hp.
  - rewrite validateEntries_spec in H.
    exists (validOnly (validator_ValidateEntry d vctx lbls) entries1).
    assert (Hacc : va_validatedSamplesSize acc' =
                   va_validatedSamplesSize acc +
                   sizeOf (validOnly (validator_ValidateEntry d vctx lbls) entries1) ∧
                   va_validatedSamplesCount acc' =
                   va_validatedSamplesCount acc +
                   len (validOnly (validator_ValidateEntry d vctx lbls) entries1)).
    { destruct (cfg_ShardStreams_Enabled d).
      - destruct (shardStream d _ userID) as [[dk ds]|]; [|done].
        cbn [mbind option_bind] in H. by simplify_eq.
      - by simplify_eq. }
    destruct Hacc as [-> ->]. split; [done|]. split; [done|]. right.
    exists entries1, lbls. by rewrite Hp.
  - simplify_eq. exists []. unfold sizeOf, len. simpl. split; [lia|]. split; [lia|by left].
Qed.

(** C2: when the rate limiter answers false to a Push, the Push returns nil
    and the 429 error that carries the tenant's limit and the count and byte
    size of the validated entries, and the one call of AllowN is all the Push
    did to the outside: no ring lookup, no goroutine, no RPC. *)
Theorem C2_rate_limited_batch_rejected
    (d : Distributor) (tenantID : string + error) (req : PushRequest) (w w' : pworld d)
    (out : pushResult) (u : string) (n : Z) :
  Push d tenantID req w = Some (out, w') →
  EvAllowN u n false ∉ trace w →
  EvAllowN u n false ∈ trace w' →
  ∃ c1 acc,
    tenantID = inl u ∧
    validateLoop d (validator_getValidationContextForTime d u) u (Streams req) (cache w)
                 (mkVacc [] [] None 0 0) = Some (c1, acc) ∧
    n = va_validatedSamplesSize acc ∧
    out = Returned None (Some (RateLimitedError StatusTooManyRequests u
                                 (int_of_float64 (ingestionRateLimiter_Limit d u))
                                 (va_validatedSamplesCount acc) n)) ∧
    trace w' = trace w ++ [EvAllowN u n false].
Proof.
  unfold Push. intros H Hnot Hin.
  destruct tenantID as [userID|e]; [|by simplify_eq].
  destruct (Nat.eqb (length (Streams req)) 0); [by simplify_eq|].
  unfold validateStreams in H.
  destruct (validateLoop d _ userID (Streams req) (cache w) _) as [[c1 acc]|] eqn:Hloop; [|done].
  cbn [mbind option_bind] in H.
  destruct (Nat.eqb (length (va_validStreams acc)) 0) eqn:Hz.
  { cbn [mbind option_bind negb] in H. rewrite Hz in H. by simplify_eq. }
  destruct (ingestionRateLimiter_AllowN d userID (va_validatedSamplesSize acc)) eqn:Hallow;
    cbn [mbind option_bind negb] in H.
  - exfalso. rewrite Hz in H.
    destruct (pushStreams d _ _ userID _) as [[r w2]|] eqn:Hps; [|done].
    apply pushStreams_trace in Hps as (evs & Htr & Hevs). cbn [mbind option_bind] in H.
    assert (Hw : w' = w2) by (destruct r; by simplify_eq). subst w2.
    rewrite Htr in Hin. simpl in Hin.
    apply elem_of_app in Hin as [Hin|Hin].
    + apply elem_of_app in Hin as [Hin|Hin]; [done|].
      apply list_elem_of_singleton in Hin. discriminate.
    + rewrite Forall_forall in Hevs. by specialize (Hevs _ Hin).
  - simplify_eq. simpl in *.
    apply elem_of_app in Hin as [Hin|Hin]; [done|].
    apply list_elem_of_singleton in Hin. simplify_eq.
    by exists c1, acc.
Qed.

Lemma C2_witness :
  fst <$> Push (demo None) (inl "tenant") demo_big_req (demo_world None) =
  Some (Returned None (Some (RateLimitedError 429 "tenant" 100 13 104))).
Proof.
  destruct (C2_rate_limited_batch_rejected (demo None) (inl "tenant") demo_big_req
              (demo_world None)
              (default (demo_world None)
                 (snd <$> Push (demo None) (inl "tenant") demo_big_req (demo_world None)))
              (Returned None (Some (RateLimitedError 429 "tenant" 100 13 104)))
              "tenant" 104)
    as (c1 & acc & _ & _ & _ & _ & _).
  - vm_compute. reflexivity.
  - intros H. by apply elem_of_nil in H.
  - vm_compute. by left.
  - vm_compute. reflexivity.
Defined.

(** ** Streams that validation drops *)

Lemma validateStream_skipped d vctx userID stream c acc c' acc' :
  skipped d vctx stream →
  validateStream d vctx userID stream c acc = Some (c', acc') →
  va_keys acc' = va_keys acc ∧ va_validStreams acc' = va_validStreams acc.
Proof.
  unfold validateStream. intros [Hs|Hs] H.
  - rewrite Hs in H. simpl in H. by simplify_eq.
  - destruct (Nat.eqb (length (Entries stream)) 0); [by simplify_eq|].
    destruct (truncateLines vctx (Entries stream)) as [entries1|]; [|done].
    cbn [mbind option_bind Labels] in H.
    destruct (Hs entries1 c) as [e He].
    destruct (parseStreamLabels d vctx (Labels stream) _ c) as [[lbls|e'] c1];
      simpl in He; by simplify_eq.
Qed.

Lemma validateLoop_skipped d vctx userID streams c acc c' acc' :
  Forall (skipped d vctx) streams →
  validateLoop d vctx userID streams c acc = Some (c', acc') →
  va_keys acc' = va_keys acc ∧ va_validStreams acc' = va_validStreams acc.
Proof.
  intros Hall. revert c acc. induction Hall as [|stream rest Hs _ IH]; intros c acc H;
    simplify_eq/=; [done|].
  destruct (validateStream d vctx userID stream c acc) as [[c1 acc1]|] eqn:Hv; simplify_eq/=.
  apply IH in H as [-> ->]. by eapply validateStream_skipped.
Qed.

(** The part of C10 that the source does: when every stream of a non-empty
    request has no entries or has its labels refused, Push answers with an
    empty response and the validation error, without asking the rate limiter
    or the ring and without starting a goroutine. *)
Lemma Push_all_streams_skipped d u req (w w' : pworld d) out :
  Push d (inl u) req w = Some (out, w') →
  Forall (skipped d (validator_getValidationContextForTime d u)) (Streams req) →
  ∃ validationErr, out = Returned (Some mkPushResponse) validationErr ∧ trace w' = trace w.
Proof.
  unfold Push. intros H Hall.
  destruct (Nat.eqb (length (Streams req)) 0); [simplify_eq; by eexists|].
  unfold validateStreams in H.
  destruct (validateLoop d _ u (Streams req) (cache w) _) as [[c1 acc]|] eqn:Hloop; [|done].
  apply (validateLoop_skipped _ _ _ _ _ _ _ _ Hall) in Hloop as [Hk Hv]. simpl in Hk, Hv.
  cbn [mbind option_bind] in H. rewrite Hv in H. simpl in H. simplify_eq. by eexists.
Qed.

(** C10 at a request whose only stream has one entry, refused by
    ValidateEntry: the stream is kept, with no entries, and Push goes on to
    the rate limiter (for 0 bytes), the ring and one goroutine for each of the
    three replicas, waiting for their quorum instead of returning. *)
Theorem C10_emptied_stream_is_still_pushed :
  ∃ s w', Push (demo None) (inl "tenant") demo_long_req (demo_world None)
          = Some (Awaiting (Some (Opaque "line too long")) s, w') ∧
    (λ t, Entries (stream t)) <$> trackers s = [[]] ∧
    trace w' = [EvAllowN "tenant" 0 true; EvRingGet 9;
                EvGo (mkInstanceDesc "c") [0%nat]; EvGo (mkInstanceDesc "a") [0%nat];
                EvGo (mkInstanceDesc "b") [0%nat]].
Proof. eexists _, _. split; [vm_compute; reflexivity|]. split; reflexivity. Qed.

(** ** Sharding *)

(** In exact arithmetic the windows of section 4.3 do partition the entries:
    the first [k] of [N] windows make up the entries before
    floor(k*len/N), and all [N] make up the whole sequence. *)
Lemma spec_windows_prefix {A} (l : list A) (N : Z) (k : nat) :
  0 < N → Z.of_nat k ≤ N →
  concat ((λ i : nat, spec_window l N (Z.of_nat i)) <$> seq 0 k) =
  take (Z.to_nat (Z.of_nat k * len l / N)) l.
Proof.
  intros HN. induction k as [|k IH]; intros Hk.
  { simpl. by rewrite Z.div_0_l by lia. }
  rewrite seq_S, fmap_app, concat_app, IH by lia. simpl. rewrite app_nil_r.
  unfold spec_window.
  assert (Hlen : 0 ≤ len l) by (unfold len; lia).
  assert (Hmono : Z.of_nat k * len l / N ≤ (Z.of_nat k + 1) * len l / N).
  { apply Z.div_le_mono; [lia|nia]. }
  assert (Hup : (Z.of_nat k + 1) * len l / N ≤ len l).
  { apply Z.div_le_upper_bound; [lia|nia]. }
  assert (H0 : 0 ≤ Z.of_nat k * len l / N) by (apply Z.div_pos; nia).
  rewrite Z.min_l by lia.
  rewrite take_take_drop. f_equal.
  replace (Z.of_nat (S k)) with (Z.of_nat k + 1) by lia. lia.
Qed.

Lemma spec_windows_partition {A} (l : list A) (N : nat) :
  (0 < N)%nat →
  concat ((λ i : nat, spec_window l (Z.of_nat N) (Z.of_nat i)) <$> seq 0 N) = l.
Proof.
  intros HN. rewrite spec_windows_prefix by lia.
  rewrite Z.mul_comm, Z.div_mul by lia. unfold len. rewrite Nat2Z.id. apply firstn_all.
Qed.

(** C4 at a stream of 15 entries cut into 11 shards: float64(15)/float64(11)
    times 11 is just below 15, so the last shard ends at 14; no shard is
    dropped, and the shards together hold the first 14 entries only. *)
Theorem C4_sharding_loses_last_entry :
  boundsFor (mkStream "app" demo_entries15 0) 11 10 = (13, 14, true) ∧
  ∃ s w', Push (demo (Some 11)) (inl "tenant") demo_shard_req (demo_world (Some 11))
          = Some (Awaiting None s, w') ∧
    length (trackers s) = 11%nat ∧
    concat ((λ t, Entries (stream t)) <$> trackers s) = take 14 demo_entries15 ∧
    concat ((λ t, Entries (stream t)) <$> trackers s) ≠ demo_entries15.
Proof.
  split; [vm_compute; reflexivity|].
  eexists _, _. split; [vm_compute; reflexivity|].
  split; [reflexivity|]. split; [vm_compute; reflexivity|]. vm_compute. discriminate.
Qed.

(** ** The goroutines of sendSamples *)

(** *** Sums over goroutines and trackers *)

Lemma sumZ_insert {A} (f : A → Z) (l : list A) (k : nat) (x y : A) :
  l !! k = Some x → sumZ f (<[k := y]> l) = sumZ f l - f x + f y.
Proof.
  revert k; induction l as [|z r IH]; intros [|k] H; simplify_eq/=; [lia|].
  rewrite (IH _ H). lia.
Qed.

Lemma sumZ_nonneg {A} (f : A → Z) (l : list A) : (∀ x, 0 ≤ f x) → 0 ≤ sumZ f l.
Proof. intros Hf. induction l as [|z r IH]; simpl; [lia|]. specialize (Hf z). lia. Qed.

Lemma sumZ_lookup_le {A} (f : A → Z) (l : list A) (k : nat) (x : A) :
  (∀ x, 0 ≤ f x) → l !! k = Some x → f x ≤ sumZ f l.
Proof.
  intros Hf. revert k; induction l as [|z r IH]; intros [|k] H; simplify_eq/=.
  - pose proof (sumZ_nonneg f r Hf). lia.
  - specialize (IH _ H). specialize (Hf z). lia.
Qed.

Lemma sumZ_indicator_le {A} (P : A → bool) (l : list A) :
  sumZ (λ x, if P x then 1 else 0) l ≤ len l.
Proof. unfold len. induction l as [|z r IH]; simpl; [lia|]. destruct (P z); lia. Qed.

Lemma sumZ_indicator_all {A} (P : A → bool) (l : list A) :
  len l ≤ sumZ (λ x, if P x then 1 else 0) l → ∀ k x, l !! k = Some x → P x = true.
Proof.
  unfold len. induction l as [|z r IH]; intros H [|k] x Hk; simplify_eq/=.
  - pose proof (sumZ_indicator_le P r). unfold len in *. destruct (P x); [done|lia].
  - apply (IH ltac:(pose proof (sumZ_indicator_le P r); unfold len in *; destruct (P z); lia) k x Hk).
Qed.

Lemma occ_nonneg i l : 0 ≤ occ i l.
Proof. apply sumZ_nonneg. intros j. by destruct (decide _). Qed.

Lemma int32_id z : - 2 ^ 31 ≤ z < 2 ^ 31 → int32 z = z.
Proof. intros H. unfold int32. rewrite Z.mod_small; lia. Qed.

Lemma occ_cons i j l : occ i (j :: l) = (if decide (i = j) then 1 else 0) + occ i l.
Proof. done. Qed.

Lemma atpc_insert p gs k g g' :
  gs !! k = Some g →
  atpc p (<[k := g']> gs) =
  atpc p gs - (if decide (g_pc g = p) then 1 else 0) + (if decide (g_pc g' = p) then 1 else 0).
Proof. intros H. unfold atpc. by rewrite (sumZ_insert _ _ _ _ _ H). Qed.

Lemma pendOcc_insert i gs k g g' :
  gs !! k = Some g →
  pendOcc i (<[k := g']> gs) =
  pendOcc i gs - occ i (g_streamTrackers g) + occ i (g_streamTrackers g').
Proof. intros H. unfold pendOcc. by rewrite (sumZ_insert _ _ _ _ _ H). Qed.

Lemma todoTotal_insert gs k g g' :
  gs !! k = Some g →
  todoTotal (<[k := g']> gs) =
  todoTotal gs - len (g_streamTrackers g) + len (g_streamTrackers g').
Proof. intros H. unfold todoTotal. by rewrite (sumZ_insert _ _ _ _ _ H). Qed.

Lemma hits_insert ts i t t' :
  ts !! i = Some t →
  hits (<[i := t']> ts) = hits ts - (if hit t then 1 else 0) + (if hit t' then 1 else 0).
Proof. intros H. unfold hits. by rewrite (sumZ_insert _ _ _ _ _ H). Qed.

Lemma atpc_nonneg p gs : 0 ≤ atpc p gs.
Proof. apply sumZ_nonneg. intros g. by destruct (decide _). Qed.

Lemma atpc_pos p gs k g : gs !! k = Some g → g_pc g = p → 1 ≤ atpc p gs.
Proof.
  intros H Hp. unfold atpc.
  pose proof (sumZ_lookup_le (λ g, if decide (g_pc g = p) then 1 else 0) gs k g) as Hle.
  simpl in Hle. rewrite decide_True in Hle by done. apply Hle; [|done].
  intros x. by destruct (decide _).
Qed.

Lemma pendOcc_pos i gs k g rest :
  gs !! k = Some g → g_streamTrackers g = i :: rest → 1 ≤ pendOcc i gs.
Proof.
  intros H Hp. unfold pendOcc.
  pose proof (sumZ_lookup_le (λ g, occ i (g_streamTrackers g)) gs k g) as Hle.
  simpl in Hle. rewrite Hp, occ_cons, decide_True in Hle by done.
  pose proof (occ_nonneg i rest).
  specialize (Hle (λ x, occ_nonneg i _) H). lia.
Qed.

Lemma todoTotal_nonneg gs : 0 ≤ todoTotal gs.
Proof. apply sumZ_nonneg. intros g. unfold len. lia. Qed.

Lemma hits_le ts : hits ts ≤ len ts.
Proof. apply sumZ_indicator_le. Qed.

(** *** Every step keeps the invariant *)

Ltac sums Hg :=
  repeat first
    [ rewrite (atpc_insert _ _ _ _ _ Hg)
    | rewrite (pendOcc_insert _ _ _ _ _ Hg)
    | rewrite (todoTotal_insert _ _ _ _ Hg) ];
  simpl.

Ltac pcs Hpc := rewrite ?Hpc; repeat (case_decide; try congruence).

Lemma advance_inv R T0 n k rpc s s' :
  inv R T0 n s → advance k rpc s = Some s' → inv R T0 n s'.
Proof.
  intros [Hlen Hn Htr [HD Hpend] Hdone [HF HT] HT0 Hover Herr] Hadv.
  unfold advance in Hadv.
  destruct (goroutines s !! k) as [g|] eqn:Hg; simplify_eq/=.
  pose proof (atpc_nonneg DecSamplesPending (goroutines s)).
  pose proof (atpc_nonneg IncSamplesFailed (goroutines s)).
  pose proof (atpc_nonneg SendErr (goroutines s)).
  pose proof (atpc_nonneg SendDone (goroutines s)).
  pose proof (todoTotal_nonneg (goroutines s)).
  destruct (g_pc g) eqn:Hpc.
  - (* Calling *)
    simplify_eq. constructor; simpl; sums Hg; pcs Hpc; try done.
    + intros i t Hi. sums Hg. destruct (Htr i t Hi) as (? & ? & ? & ? & ?).
      repeat split; try done; lia.
    + split; lia.
    + lia.
    + split; lia.
    + rewrite <- Hover. lia.
    + lia.
  - (* Looping *)
    destruct (g_streamTrackers g) as [|i rest] eqn:Htodo; [done|].
    destruct (trackers s !! i) as [t|] eqn:Hti; simplify_eq/=.
    destruct (Htr i t Hti) as (Hs0 & Hf0 & HR & HRb & Hgood).
    pose proof (pendOcc_pos i _ _ _ _ Hg Htodo) as Hpos.
    assert (Hil : (i < length (trackers s))%nat) by (by eapply lookup_lt_Some).
    assert (Hlenrest : len (i :: rest) = len rest + 1) by (unfold len; simpl; lia).
    destruct (g_err g) as [e|] eqn:Hge; simplify_eq.
    + (* the RPC failed: failed.Inc() *)
      rewrite (int32_id (failed t + 1)) by lia.
      constructor; simpl.
      * unfold len. by rewrite length_insert.
      * done.
      * intros j tj Hj. sums Hg. rewrite Htodo, occ_cons.
        destruct (decide (j = i)) as [->|Hne].
        -- rewrite list_lookup_insert_eq in Hj by done. simplify_eq. simpl. repeat split; try done; lia.
        -- rewrite list_lookup_insert_ne in Hj by done.
           destruct (Htr j tj Hj) as (? & ? & ? & ? & ?). repeat split; try done; lia.
      * rewrite (hits_insert _ _ _ _ Hti). sums Hg. unfold len. rewrite ?length_insert.
        unfold hit at 2. simpl. fold (hit t).
        destruct (failed t + 1 <=? int32 (maxFailures t)); simpl; pcs Hpc;
          (split; [done|]); unfold len in *; destruct (hit t); lia.
      * sums Hg. unfold len. rewrite ?length_insert.
        destruct (failed t + 1 <=? int32 (maxFailures t)); simpl; pcs Hpc; unfold len in *; lia.
      * sums Hg. rewrite Htodo, Hlenrest.
        destruct (failed t + 1 <=? int32 (maxFailures t)); simpl; pcs Hpc; (split; [done|]); lia.
      * done.
      * sums Hg. destruct (Z.leb_spec (failed t + 1) (int32 (maxFailures t))) as [Hle|Hgt];
          simpl; pcs Hpc.
        -- split.
           ++ intros H1'. destruct (proj1 Hover ltac:(lia)) as (j & tj & Hj & Hov).
              destruct (decide (j = i)) as [->|Hne].
              ** simplify_eq. unfold over in Hov. lia.
              ** exists j, tj. by rewrite list_lookup_insert_ne.
           ++ intros (j & tj & Hj & Hov). destruct (decide (j = i)) as [->|Hne].
              ** rewrite list_lookup_insert_eq in Hj by done. simplify_eq.
                 unfold over in Hov. simpl in Hov. lia.
              ** rewrite list_lookup_insert_ne in Hj by done.
                 pose proof (proj2 Hover (ex_intro _ j (ex_intro _ tj (conj Hj Hov)))). lia.
        -- split; [|lia]. intros _. eexists i, _.
           rewrite list_lookup_insert_eq by done. split; [done|]. unfold over. simpl. lia.
      * sums Hg. destruct (failed t + 1 <=? int32 (maxFailures t)); simpl; pcs Hpc; lia.
    + (* the RPC succeeded: succeeded.Inc() *)
      rewrite (int32_id (succeeded t + 1)) by lia.
      constructor; simpl.
      * unfold len. by rewrite length_insert.
      * done.
      * intros j tj Hj. sums Hg. rewrite Htodo, occ_cons.
        destruct (decide (j = i)) as [->|Hne].
        -- rewrite list_lookup_insert_eq in Hj by done. simplify_eq. simpl. repeat split; try done; lia.
        -- rewrite list_lookup_insert_ne in Hj by done.
           destruct (Htr j tj Hj) as (? & ? & ? & ? & ?). repeat split; try done; lia.
      * rewrite (hits_insert _ _ _ _ Hti). sums Hg. unfold len. rewrite ?length_insert.
        unfold hit. simpl. unfold len in *.
        destruct (Z.eqb_spec (succeeded t + 1) (int32 (minSuccess t))); simpl; pcs Hpc;
          (split; [done|]);
          destruct (Z.leb_spec 1 (int32 (minSuccess t)));
          destruct (Z.leb_spec (int32 (minSuccess t)) (succeeded t));
          destruct (Z.leb_spec (int32 (minSuccess t)) (succeeded t + 1)); simpl; lia.
      * sums Hg. unfold len. rewrite ?length_insert.
        destruct (succeeded t + 1 =? int32 (minSuccess t)); simpl; pcs Hpc; unfold len in *; lia.
      * sums Hg. rewrite Htodo, Hlenrest.
        destruct (succeeded t + 1 =? int32 (minSuccess t)); simpl; pcs Hpc; (split; [done|]); lia.
      * done.
      * sums Hg.
        assert (Hsame : (∃ j tj, <[i := mkStreamTracker (stream t) (minSuccess t) (maxFailures t)
                                         (succeeded t + 1) (failed t)]> (trackers s) !! j = Some tj
                                 ∧ over tj) ↔
                        (∃ j tj, trackers s !! j = Some tj ∧ over tj)).
        { split; intros (j & tj & Hj & Hov); destruct (decide (j = i)) as [->|Hne].
          - rewrite list_lookup_insert_eq in Hj by done. simplify_eq. by exists i, t.
          - rewrite list_lookup_insert_ne in Hj by done. by exists j, tj.
          - simplify_eq. eexists i, _. rewrite list_lookup_insert_eq by done. split; [done|]. done.
          - exists j, tj. by rewrite list_lookup_insert_ne. }
        rewrite Hsame, <- Hover.
        destruct (succeeded t + 1 =? int32 (minSuccess t)); simpl; pcs Hpc; lia.
      * sums Hg. destruct (succeeded t + 1 =? int32 (minSuccess t)); simpl; pcs Hpc; lia.
  - (* IncSamplesFailed *)
    pose proof (atpc_pos _ _ _ _ Hg Hpc) as Hpos.
    simplify_eq. rewrite (int32_id (samplesFailed s + 1)) by lia.
    constructor; simpl; sums Hg; try done.
    + intros i t Hi. sums Hg. destruct (Htr i t Hi) as (? & ? & ? & ? & ?).
      repeat split; try done; lia.
    + destruct (samplesFailed s + 1 =? 1); simpl; pcs Hpc; split; lia.
    + destruct (samplesFailed s + 1 =? 1); simpl; pcs Hpc; lia.
    + destruct (samplesFailed s + 1 =? 1); simpl; pcs Hpc; split; lia.
    + rewrite <- Hover. destruct (samplesFailed s + 1 =? 1); simpl; pcs Hpc; lia.
    + destruct (Z.eqb_spec (samplesFailed s + 1) 1); simpl; pcs Hpc;
        destruct (Z.leb_spec 1 (samplesFailed s)); destruct (Z.leb_spec 1 (samplesFailed s + 1)); lia.
  - (* SendErr *)
    pose proof (atpc_pos _ _ _ _ Hg Hpc) as Hpos.
    destruct (g_err g) as [e|] eqn:Hge; simplify_eq/=.
    constructor; simpl; sums Hg; pcs Hpc; try done.
    + intros i t Hi. sums Hg. destruct (Htr i t Hi) as (? & ? & ? & ? & ?).
      repeat split; try done; lia.
    + split; lia.
    + lia.
    + split; lia.
    + rewrite <- Hover. lia.
    + unfold len in *. rewrite length_app. simpl. lia.
  - (* DecSamplesPending *)
    pose proof (atpc_pos _ _ _ _ Hg Hpc) as Hpos.
    pose proof (hits_le (trackers s)) as Hhl.
    simplify_eq. rewrite (int32_id (samplesPending s - 1)) by lia.
    constructor; simpl; sums Hg; try done.
    + intros i t Hi. sums Hg. destruct (Htr i t Hi) as (? & ? & ? & ? & ?).
      repeat split; try done; lia.
    + destruct (samplesPending s - 1 =? 0); simpl; pcs Hpc; split; lia.
    + destruct (Z.eqb_spec (samplesPending s - 1) 0); simpl; pcs Hpc;
        destruct (Z.eqb_spec (samplesPending s) 0); simpl in *; try lia;
        destruct (Z.eqb_spec (len (trackers s)) 0); simpl in *; lia.
    + destruct (samplesPending s - 1 =? 0); simpl; pcs Hpc; split; lia.
    + rewrite <- Hover. destruct (samplesPending s - 1 =? 0); simpl; pcs Hpc; lia.
    + destruct (samplesPending s - 1 =? 0); simpl; pcs Hpc; lia.
  - (* SendDone *)
    pose proof (atpc_pos _ _ _ _ Hg Hpc) as Hpos.
    simplify_eq.
    constructor; simpl; sums Hg; pcs Hpc; try done.
    + intros i t Hi. sums Hg. destruct (Htr i t Hi) as (? & ? & ? & ? & ?).
      repeat split; try done; lia.
    + split; lia.
    + unfold len in *. rewrite length_app. simpl. lia.
    + split; lia.
    + rewrite <- Hover. lia.
    + lia.
Qed.

Lemma advance_live R k rpc s s' : live R s → advance k rpc s = Some s' → live R s'.
Proof.
  intros HL Hadv. unfold advance in Hadv.
  destruct (goroutines s !! k) as [g|] eqn:Hg; simplify_eq/=.
  destruct (g_pc g); simplify_eq; try done.
  - destruct (g_streamTrackers g) as [|i rest]; [done|].
    destruct (trackers s !! i) as [t|] eqn:Hti; simplify_eq/=.
    assert (Hil : (i < length (trackers s))%nat) by (by eapply lookup_lt_Some).
    destruct (g_err g); simplify_eq; intros j tj Hj; simpl in Hj;
      (destruct (decide (j = i)) as [->|Hne];
       [ rewrite list_lookup_insert_eq in Hj by done; simplify_eq; simpl; by apply HL
       | rewrite list_lookup_insert_ne in Hj by done; by apply HL ]).
  - destruct (g_err g); simplify_eq/=. done.
Qed.

Lemma runSchedule_inv R T0 n sched s s' :
  inv R T0 n s → runSchedule sched s = Some s' → inv R T0 n s'.
Proof.
  revert s; induction sched as [|[k rpc] rest IH]; intros s Hinv Hrun; simplify_eq/=; [done|].
  destruct (advance k rpc s) as [s1|] eqn:Hadv; simplify_eq/=.
  eapply IH; [|done]. by eapply advance_inv.
Qed.

Lemma runSchedule_live R sched s s' :
  live R s → runSchedule sched s = Some s' → live R s'.
Proof.
  revert s; induction sched as [|[k rpc] rest IH]; intros s Hinv Hrun; simplify_eq/=; [done|].
  destruct (advance k rpc s) as [s1|] eqn:Hadv; simplify_eq/=.
  eapply IH; [|done]. by eapply advance_live.
Qed.

(** *** What the invariant gives *)

Lemma pendOcc_nonneg i gs : 0 ≤ pendOcc i gs.
Proof. apply sumZ_nonneg. intros g. apply occ_nonneg. Qed.

(** Sends made or about to be made: at most one in all. *)
Lemma inv_exclusive R T0 n s :
  inv R T0 n s →
  len (done s) + atpc SendDone (goroutines s) +
  (len (err s) + atpc SendErr (goroutines s)) ≤ 1.
Proof.
  intros [Hlen Hn Htr [HD Hpend] Hdone [HF HT] HT0 Hover Herr].
  rewrite Hdone, Herr.
  destruct (Z.eqb_spec (samplesPending s) 0) as [HP|HP]; simpl;
    destruct (Z.eqb_spec n 0) as [Hn0|Hn0]; simpl;
    destruct (Z.leb_spec 1 (samplesFailed s)) as [H1|H1]; try lia.
  exfalso.
  pose proof (atpc_nonneg DecSamplesPending (goroutines s)).
  pose proof (atpc_nonneg IncSamplesFailed (goroutines s)).
  destruct (proj1 Hover ltac:(lia)) as (i & t & Hi & Hov1 & Hov2).
  assert (Hhit : hit t = true).
  { apply (sumZ_indicator_all hit (trackers s)) with (k := i); [|done].
    fold (hits (trackers s)). lia. }
  unfold hit in Hhit. apply andb_true_iff in Hhit as [Hh1 Hh2].
  apply Z.leb_le in Hh1, Hh2.
  destruct (Htr i t Hi) as (? & ? & HR & ? & Hgood).
  pose proof (pendOcc_nonneg i (goroutines s)). specialize (Hgood Hh1). lia.
Qed.

Lemma sumZ_zero {A} (f : A → Z) (l : list A) : Forall (λ x, f x = 0) l → sumZ f l = 0.
Proof. induction 1 as [|x r Hx _ IH]; simpl; lia. Qed.

Lemma sumZ_indicator_eq {A} (P : A → bool) (l : list A) :
  (∀ k x, l !! k = Some x → P x = true) → sumZ (λ x, if P x then 1 else 0) l = len l.
Proof.
  unfold len. induction l as [|z r IH]; intros H; simpl; [done|].
  rewrite (H 0%nat z eq_refl). rewrite IH; [lia|]. intros k x Hk. apply (H (S k) x Hk).
Qed.

Lemma quiescent_sums s p i :
  quiescent s → p ≠ Looping → atpc p (goroutines s) = 0 ∧ pendOcc i (goroutines s) = 0.
Proof.
  intros Hq Hp. split; apply sumZ_zero; eapply Forall_impl; try exact Hq;
    intros g Hg; simpl in *; unfold returned in Hg;
    destruct (g_pc g) eqn:Hpc; try done; destruct (g_streamTrackers g); try done.
  by rewrite decide_False.
Qed.

(** Once every goroutine has returned, exactly one send has been made. *)
Lemma inv_quiescent R T0 n s :
  inv R T0 n s → live R s → 1 ≤ n → quiescent s →
  len (done s) + len (err s) = 1.
Proof.
  intros Hinv HL Hn1 Hq. pose proof (inv_exclusive _ _ _ _ Hinv) as Hex.
  destruct Hinv as [Hlen Hn Htr [HD Hpend] Hdone [HF HT] HT0 Hover Herr].
  destruct (quiescent_sums s SendDone 0 Hq ltac:(done)) as [HsD _].
  destruct (quiescent_sums s SendErr 0 Hq ltac:(done)) as [HsE _].
  destruct (quiescent_sums s DecSamplesPending 0 Hq ltac:(done)) as [HsP _].
  destruct (quiescent_sums s IncSamplesFailed 0 Hq ltac:(done)) as [HsF _].
  rewrite HsD, HsE in *. rewrite HsP in Hpend. rewrite HsF in Hover.
  revert Herr. destruct (Z.leb_spec 1 (samplesFailed s)) as [H1|H1]; intros Herr; [unfold len in *; lia|].
  assert (Hall : ∀ k t, trackers s !! k = Some t → hit t = true).
  { intros k t Hk. destruct (Htr k t Hk) as (? & ? & HR & ? & Hgood).
    destruct (HL k t Hk) as (Hms & Hmf & Hsum).
    destruct (quiescent_sums s SendDone k Hq ltac:(done)) as [_ Hpo]. rewrite Hpo in HR.
    unfold hit. apply andb_true_iff. split; [by apply Z.leb_le|]. apply Z.leb_le.
    destruct (Z.le_gt_cases (int32 (minSuccess t)) (succeeded t)) as [|Hlt]; [done|].
    exfalso. assert (Hov : over t) by (unfold over; lia).
    pose proof (proj2 Hover (ex_intro _ k (ex_intro _ t (conj Hk Hov)))). lia. }
  pose proof (sumZ_indicator_eq hit (trackers s) Hall) as Hh. fold (hits (trackers s)) in Hh.
  assert (HP0 : samplesPending s = 0) by lia.
  rewrite HP0 in Hdone. simpl in Hdone.
  destruct (Z.eqb_spec n 0); simpl in *; lia.
Qed.

(** *** The quorum parameters as the comparisons of sendSamples see them *)

Lemma int32_range z : - 2 ^ 31 ≤ int32 z < 2 ^ 31.
Proof. unfold int32. pose proof (Z.mod_pos_bound (z + 2 ^ 31) (2 ^ 32) ltac:(lia)). lia. Qed.

Lemma int32_int64 z : int32 (int64 z) = int32 z.
Proof. unfold int32, int64. Z.div_mod_to_equations. lia. Qed.

Lemma int64_add_l a b : int64 (int64 a + b) = int64 (a + b).
Proof. unfold int64. Z.div_mod_to_equations. lia. Qed.

Lemma int32_repr z : ∃ q, int32 z = z - 2 ^ 32 * q.
Proof.
  exists ((z + 2 ^ 31) / 2 ^ 32). unfold int32. rewrite Z.mod_eq by lia. lia.
Qed.

Lemma quorum_good l m :
  0 ≤ l < 2 ^ 31 → 1 ≤ int32 (int64 (l - m)) → l ≤ int32 (int64 (l - m)) + int32 m.
Proof.
  rewrite int32_int64. intros Hl H1.
  pose proof (int32_range m). pose proof (int32_range (l - m)).
  destruct (int32_repr m) as [q1 Hq1]. destruct (int32_repr (l - m)) as [q2 Hq2].
  lia.
Qed.

Lemma quorum_live l m :
  0 ≤ m < l → l < 2 ^ 31 →
  1 ≤ int32 (int64 (l - m)) ∧ 0 ≤ int32 m ∧ int32 (int64 (l - m)) + int32 m ≤ l.
Proof.
  intros Hm Hl. rewrite int32_int64, !int32_id by lia. lia.
Qed.

(** *** The state pushStreams starts the goroutines in *)

Lemma sumZ_perm {A} (f : A → Z) (l l' : list A) : l ≡ₚ l' → sumZ f l = sumZ f l'.
Proof. induction 1; simpl; lia. Qed.

Lemma sumZ_fmap {A B} (f : B → Z) (g : A → B) (l : list A) :
  sumZ f (g <$> l) = sumZ (λ x, f (g x)) l.
Proof. induction l as [|x r IH]; [done|]. cbn. f_equal. apply IH. Qed.

Lemma sumZ_le {A} (f g : A → Z) (l : list A) : (∀ x, f x ≤ g x) → sumZ f l ≤ sumZ g l.
Proof. intros H. induction l as [|x r IH]; simpl; [lia|]. specialize (H x). lia. Qed.

Lemma sumZ_app {A} (f : A → Z) (l l' : list A) : sumZ f (l ++ l') = sumZ f l + sumZ f l'.
Proof. induction l as [|x r IH]; simpl; lia. Qed.

Lemma occ_le_len i l : occ i l ≤ len l.
Proof.
  unfold occ, len. induction l as [|x r IH]; simpl; [lia|]. destruct (decide _); lia.
Qed.

Lemma occM_insert (f : list nat → Z) (m : gmap string (list nat)) a l' :
  f [] = 0 →
  occM f (<[a := l']> m) = occM f m - f (default [] (m !! a)) + f l'.
Proof.
  intros Hf. unfold occM. destruct (m !! a) as [l|] eqn:Hma; simpl.
  - rewrite <- (insert_delete_eq m).
    rewrite (sumZ_perm _ _ _ (map_to_list_insert (delete a m) a l' (lookup_delete_eq m a))).
    rewrite <- (sumZ_perm _ _ _ (map_to_list_delete m a l Hma)). simpl. lia.
  - rewrite (sumZ_perm _ _ _ (map_to_list_insert m a l' Hma)). simpl. lia.
Qed.

Lemma appendSample_occM (f : list nat → Z) (c : Z) i acc ingester :
  f [] = 0 → (∀ l, f (l ++ [i]) = f l + c) →
  occM f (appendSample i acc ingester).1 = occM f acc.1 + c.
Proof.
  intros Hf Hc. unfold appendSample. simpl. rewrite occM_insert, Hc by done. lia.
Qed.

Lemma foldl_appendSample_occM (f : list nat → Z) (c : Z) i instances acc :
  f [] = 0 → (∀ l, f (l ++ [i]) = f l + c) →
  occM f (foldl (appendSample i) acc instances).1 = occM f acc.1 + c * len instances.
Proof.
  intros Hf Hc. revert acc. unfold len.
  induction instances as [|x r IH]; intros acc; simpl; [lia|].
  rewrite IH, (appendSample_occM f c) by done. lia.
Qed.

Lemma occ_snoc j l i : occ j (l ++ [i]) = occ j l + (if decide (j = i) then 1 else 0).
Proof. unfold occ. rewrite sumZ_app. simpl. lia. Qed.

Lemma ringLoop_spec d keys i streams sbi descs tr streams' sbi' descs' tr' :
  ringLoop d keys i streams sbi descs tr = Some (inl (streams', sbi', descs'), tr') →
  length streams' = length streams ∧
  ∀ j t, streams' !! j = Some t →
    (streams !! j = Some t ∧ occM (occ j) sbi' = occM (occ j) sbi ∧
     (j < i ∨ i + length keys ≤ j)%nat)
    ∨ (∃ key rs t0, keys !! (j - i)%nat = Some key ∧ (i ≤ j)%nat ∧
         ingestersRing_Get d key = inl rs ∧ streams !! j = Some t0 ∧
         t = setQuorum (int64 (len (Instances rs) - MaxErrors rs)) (MaxErrors rs) t0 ∧
         occM (occ j) sbi' = occM (occ j) sbi + len (Instances rs)).
Proof.
  revert i streams sbi descs tr.
  induction keys as [|key rest IH]; intros i streams sbi descs tr Hrun; simplify_eq/=.
  { split; [done|]. intros j t Hj. left. repeat split; try done. lia. }
  destruct (ingestersRing_Get d key) as [rs|e] eqn:Hget; [|done].
  destruct (streams !! i) as [t0|] eqn:Hti; simplify_eq/=.
  assert (Hil : (i < length streams)%nat) by (by eapply lookup_lt_Some).
  apply IH in Hrun as [Hlen Hspec]. rewrite length_insert in Hlen. split; [done|].
  intros j t Hj.
  assert (Hocc : ∀ j, occM (occ j)
             (foldl (appendSample i) (sbi, descs) (Instances rs)).1 =
           occM (occ j) sbi + (if decide (j = i) then 1 else 0) * len (Instances rs)).
  { intros j'. rewrite (foldl_appendSample_occM (occ j') (if decide (j' = i) then 1 else 0));
      [done|done|]. intros l. apply occ_snoc. }
  destruct (Hspec j t Hj) as [(Hsame & Ho & Hrange)|(k & rs' & t1 & Hk & Hle & Hg & Ht1 & Ht & Ho)].
  - destruct (decide (j = i)) as [->|Hne].
    + rewrite list_lookup_insert_eq in Hsame by done. simplify_eq.
      right. exists key, rs, t0. rewrite Nat.sub_diag. repeat split; try done.
      rewrite Ho, Hocc, decide_True by done. lia.
    + rewrite list_lookup_insert_ne in Hsame by done. left. repeat split; try done; [|lia].
      rewrite Ho, Hocc, decide_False by done. lia.
  - assert (Hne : j ≠ i) by lia.
    rewrite list_lookup_insert_ne in Ht1 by done.
    right. exists k, rs', t1. replace (j - i)%nat with (S (j - S i)) by lia.
    repeat split; try done; [lia|]. rewrite Ho, Hocc, decide_False by done. lia.
Qed.

Lemma occM_empty f : occM f ∅ = 0.
Proof. unfold occM. by rewrite map_to_list_empty. Qed.

(** **** validateStreams hands over fresh trackers, one key for each *)

Lemma shardLoop_fresh d stream pat userID shardCount todo i lbls keys streams keys' streams' :
  shardLoop d stream pat userID shardCount todo i lbls keys streams = Some (keys', streams') →
  length keys = length streams → Forall zeroed streams →
  length keys' = length streams' ∧ Forall zeroed streams'.
Proof.
  revert i lbls keys streams. induction todo as [|todo IH]; intros i lbls keys streams H Hl Hz;
    simplify_eq/=; [done|].
  destruct (createShard d stream lbls pat shardCount i) as [[[shard ok] lbls']|]; simplify_eq/=.
  destruct ok; simpl in H; apply IH in H; try done.
  - rewrite !length_app. simpl. lia.
  - apply Forall_app. split; [done|]. by repeat constructor.
Qed.

Lemma shardStream_fresh d stream userID keys' streams' :
  shardStream d stream userID = Some (keys', streams') →
  length keys' = length streams' ∧ Forall zeroed streams'.
Proof.
  unfold shardStream. destruct (streamSharder_ShardCountFor d stream) as [shardCount ok].
  destruct (negb ok || (shardCount <=? 1)).
  - intros ?; simplify_eq. split; [done|]. by repeat constructor.
  - intros H. by apply shardLoop_fresh in H.
Qed.

Lemma validateStream_fresh d vctx userID stream c acc c' acc' :
  validateStream d vctx userID stream c acc = Some (c', acc') →
  fresh_acc acc → fresh_acc acc'.
Proof.
  unfold validateStream. intros H [Hl Hz].
  destruct (Nat.eqb (length (Entries stream)) 0); [by simplify_eq|].
  destruct (truncateLines vctx (Entries stream)) as [entries1|]; [|done].
  cbn [mbind option_bind Labels] in H.
  destruct (parseStreamLabels d vctx (Labels stream) _ c) as [[lbls|e] c1]; [|by simplify_eq].
  destruct (validateEntries _ _ _ _ _ _) as [[[entries2 verr] size] count].
  destruct (cfg_ShardStreams_Enabled d).
  - destruct (shardStream d _ userID) as [[dk ds]|] eqn:Hsh; [|done].
    cbn [mbind option_bind] in H. simplify_eq.
    apply shardStream_fresh in Hsh as [Hl' Hz']. split; simpl.
    + rewrite !length_app. lia.
    + by apply Forall_app.
  - simplify_eq. split; simpl.
    + rewrite !length_app. simpl. lia.
    + apply Forall_app. split; [done|]. by repeat constructor.
Qed.

Lemma validateLoop_fresh d vctx userID streams c acc c' acc' :
  validateLoop d vctx userID streams c acc = Some (c', acc') →
  fresh_acc acc → fresh_acc acc'.
Proof.
  revert c acc. induction streams as [|stream rest IH]; intros c acc H Hf; simplify_eq/=; [done|].
  destruct (validateStream d vctx userID stream c acc) as [[c1 acc1]|] eqn:Hs; simplify_eq/=.
  eapply IH; [done|]. by eapply validateStream_fresh.
Qed.

Lemma validateStreams_fresh d streams userID w keys trackers verr w' :
  validateStreams d streams userID w = Some (keys, trackers, verr, true, w') →
  length keys = length trackers ∧ Forall zeroed trackers.
Proof.
  unfold validateStreams. intros H.
  destruct (validateLoop _ _ _ _ _ _) as [[c1 acc]|] eqn:Hl; simplify_eq/=.
  apply validateLoop_fresh in Hl; [|by split].
  destruct (Nat.eqb _ 0); [by simplify_eq|].
  destruct (ingestionRateLimiter_AllowN _ _ _); simplify_eq/=. done.
Qed.

Lemma Push_awaiting d tenantID req w vErr s0 w' :
  Push d tenantID req w = Some (Awaiting vErr s0, w') →
  ∃ userID keys streams w1 sbi descs tr',
    tenantID = inl userID ∧
    validateStreams d (Streams req) userID w = Some (keys, streams, vErr, true, w1) ∧
    streams ≠ [] ∧
    ringLoop d keys 0 streams ∅ ∅ (trace w1) = Some (inl (trackers s0, sbi, descs), tr') ∧
    s0 = mkPushState (trackers s0) (int32 (len (trackers s0))) 0 [] []
                     (spawn descs <$> map_to_list sbi).
Proof.
  unfold Push. intros H. destruct tenantID as [userID|e]; [|by simplify_eq].
  destruct (Nat.eqb (length (Streams req)) 0); [by simplify_eq|].
  destruct (validateStreams d (Streams req) userID w) as [[[[[keys streams] verr] ok] w1]|] eqn:Hv;
    [|done].
  cbn [mbind option_bind] in H. destruct ok; simpl in H; [|by simplify_eq].
  destruct (Nat.eqb_spec (length streams) 0) as [Hz|Hnz]; [by simplify_eq|].
  unfold pushStreams in H.
  destruct (ringLoop d keys 0 streams ∅ ∅ (trace w1)) as [[[[[streams1 sbi] descs]|e] tr']|] eqn:Hr;
    [| |done]; cbn [mbind option_bind] in H; simplify_eq.
  exists userID, keys, streams, w1, sbi, descs, tr'. repeat split; try done.
  by destruct streams.
Qed.

Lemma spawned_pendOcc descs j (l : list (string * list nat)) :
  pendOcc j (spawn descs <$> l) = sumZ (λ p, occ j p.2) l.
Proof. unfold pendOcc. by rewrite sumZ_fmap. Qed.

Lemma spawned_atpc descs p (l : list (string * list nat)) :
  p ≠ Calling → atpc p (spawn descs <$> l) = 0.
Proof.
  intros Hp. unfold atpc. rewrite sumZ_fmap. apply sumZ_zero, Forall_forall.
  intros x _. simpl. by rewrite decide_False.
Qed.

Lemma pendOcc_le_todoTotal j gs : pendOcc j gs ≤ todoTotal gs.
Proof. apply sumZ_le. intros g. apply occ_le_len. Qed.

Lemma hits_zero ts : Forall (λ t, succeeded t = 0) ts → hits ts = 0.
Proof.
  intros H. apply sumZ_zero. eapply Forall_impl; [exact H|]. intros t Ht. simpl in *.
  unfold hit. rewrite Ht.
  destruct (Z.leb_spec 1 (int32 (minSuccess t))); destruct (Z.leb_spec (int32 (minSuccess t)) 0);
    simpl; try done; lia.
Qed.

(** The invariant holds when pushStreams returns. *)
Lemma Push_inv d tenantID req w vErr s0 w' :
  Push d tenantID req w = Some (Awaiting vErr s0, w') →
  len (trackers s0) < 2 ^ 31 →
  todoTotal (goroutines s0) < 2 ^ 31 →
  inv (λ i, pendOcc i (goroutines s0)) (todoTotal (goroutines s0)) (len (trackers s0)) s0 ∧
  1 ≤ len (trackers s0).
Proof.
  intros HP Hn HT.
  destruct (Push_awaiting _ _ _ _ _ _ _ HP)
    as (userID & keys & streams & w1 & sbi & descs & tr' & -> & Hv & Hne & Hr & Hs0).
  apply validateStreams_fresh in Hv as [Hkl Hz].
  apply ringLoop_spec in Hr as [Hlen Hspec].
  assert (Hcounters : ∀ j t, trackers s0 !! j = Some t → succeeded t = 0 ∧ failed t = 0).
  { intros j t Hj. rewrite Forall_lookup in Hz.
    destruct (Hspec j t Hj) as [(Hsame & _)|(k & rs & t0 & _ & _ & _ & Ht0 & -> & _)].
    - destruct (Hz j t Hsame) as (_ & _ & ? & ?). done.
    - destruct (Hz j t0 Ht0) as (_ & _ & ? & ?). done. }
  split; [|destruct streams; [done|]; unfold len; rewrite Hlen; simpl; lia].
  rewrite Hs0 in *. simpl in *. rewrite int32_id by (unfold len in *; lia).
  constructor; simpl; rewrite ?spawned_atpc by done; try done.
  - intros j t Hj. destruct (Hcounters j t Hj) as [-> ->].
    pose proof (pendOcc_le_todoTotal j (spawn descs <$> map_to_list sbi)).
    repeat split; try lia.
    rewrite spawned_pendOcc. fold (occM (occ j) sbi).
    rewrite Forall_lookup in Hz.
    destruct (Hspec j t Hj) as [(Hsame & Ho & _)|(k & rs & t0 & _ & _ & _ & Ht0 & -> & Ho)].
    + destruct (Hz j t Hsame) as (-> & _). intros Hc. vm_compute in Hc. by destruct Hc.
    + rewrite Ho, occM_empty. simpl. intros H1.
      apply quorum_good; [|done].
      pose proof (pendOcc_le_todoTotal j (spawn descs <$> map_to_list sbi)) as Hle.
      rewrite spawned_pendOcc in Hle. fold (occM (occ j) sbi) in Hle.
      rewrite Ho, occM_empty in Hle. unfold len in *. lia.
  - rewrite hits_zero; [split; lia|]. apply Forall_lookup. intros j t Hj.
    by destruct (Hcounters j t Hj).
  - destruct (len (trackers s0) =? 0); simpl; unfold len; simpl; lia.
  - split; [lia|]. intros (j & t & Hj & Hov). destruct (Hcounters j t Hj) as [_ Hf].
    unfold over in Hov. lia.
Qed.

(** With a replica set that tolerates fewer failures than it has members,
    every tracker can still reach its quorum or exceed its failures. *)
Lemma Push_live d tenantID req w vErr s0 w' :
  Push d tenantID req w = Some (Awaiting vErr s0, w') →
  todoTotal (goroutines s0) < 2 ^ 31 →
  (∀ key rs, ingestersRing_Get d key = inl rs → 0 ≤ MaxErrors rs < len (Instances rs)) →
  live (λ i, pendOcc i (goroutines s0)) s0.
Proof.
  intros HP HT Hring.
  destruct (Push_awaiting _ _ _ _ _ _ _ HP)
    as (userID & keys & streams & w1 & sbi & descs & tr' & -> & Hv & Hne & Hr & Hs0).
  apply validateStreams_fresh in Hv as [Hkl Hz].
  apply ringLoop_spec in Hr as [Hlen Hspec].
  intros j t Hj.
  pose proof (pendOcc_le_todoTotal j (goroutines s0)) as Hle.
  rewrite Hs0 in *. simpl in *. rewrite spawned_pendOcc in *. fold (occM (occ j) sbi) in *.
  destruct (Hspec j t Hj) as [(Hsame & _ & Hrange)|(k & rs & t0 & _ & _ & Hg & Ht0 & -> & Ho)].
  - apply lookup_lt_Some in Hsame. lia.
  - rewrite Ho, occM_empty in *. simpl. apply quorum_live; [by apply (Hring k)|]. lia.
Qed.

Lemma inv_over_no_done R T0 n s :
  inv R T0 n s → (∃ i t, trackers s !! i = Some t ∧ over t) →
  len (done s) + atpc SendDone (goroutines s) = 0.
Proof.
  intros [Hlen Hn Htr [HD Hpend] Hdone [HF HT] HT0 Hover Herr] (i & t & Hi & Hov1 & Hov2).
  rewrite Hdone.
  destruct (Z.eqb_spec (samplesPending s) 0) as [HP|HP]; simpl; [|done].
  destruct (Z.eqb_spec n 0) as [Hn0|Hn0]; simpl; [done|].
  exfalso.
  pose proof (atpc_nonneg DecSamplesPending (goroutines s)).
  assert (Hhit : hit t = true).
  { apply (sumZ_indicator_all hit (trackers s)) with (k := i); [|done].
    fold (hits (trackers s)). lia. }
  unfold hit in Hhit. apply andb_true_iff in Hhit as [Hh1 Hh2].
  apply Z.leb_le in Hh1, Hh2.
  destruct (Htr i t Hi) as (? & ? & HR & ? & Hgood).
  pose proof (pendOcc_nonneg i (goroutines s)). specialize (Hgood Hh1). lia.
Qed.

(** *** The goroutines run to completion *)

Lemma sum_list_with_insert {A} (f : A → nat) (l : list A) (k : nat) (x y : A) :
  l !! k = Some x → (sum_list_with f (<[k := y]> l) + f x = sum_list_with f l + f y)%nat.
Proof.
  revert k; induction l as [|z r IH]; intros [|k] H; simplify_eq/=; [lia|].
  specialize (IH _ H). lia.
Qed.

Lemma advance_sound k rpc s s' : sound s → advance k rpc s = Some s' → sound s'.
Proof.
  intros Hs Hadv. unfold advance in Hadv.
  destruct (goroutines s !! k) as [g|] eqn:Hg; simplify_eq/=.
  destruct (Hs k g Hg) as [Hidx Herr].
  assert (Hkl : (k < length (goroutines s))%nat) by (by eapply lookup_lt_Some).
  assert (Hgen : ∀ ts' p f dn er g',
             length ts' = length (trackers s) →
             (∀ i, i ∈ g_streamTrackers g' → i ∈ g_streamTrackers g) →
             (g_pc g' = IncSamplesFailed ∨ g_pc g' = SendErr → is_Some (g_err g')) →
             sound (mkPushState ts' p f dn er (<[k := g']> (goroutines s)))).
  { intros ts' p f dn er g' Hl Hsub He k' g'' Hk'. simpl in *. rewrite Hl.
    destruct (decide (k' = k)) as [->|Hne].
    - rewrite list_lookup_insert_eq in Hk' by done. simplify_eq. split; [|done].
      intros i Hi. by apply Hidx, Hsub.
    - rewrite list_lookup_insert_ne in Hk' by done. exact (Hs k' g'' Hk'). }
  destruct (g_pc g) eqn:Hpc.
  - simplify_eq. apply (Hgen _ _ _ _ _ (mkGoroutine _ _ _ _)); simpl; try done; by intros [|].
  - destruct (g_streamTrackers g) as [|i rest] eqn:Htodo; [done|].
    destruct (trackers s !! i) as [t|] eqn:Hti; simplify_eq/=.
    destruct (g_err g) as [e|] eqn:Hge; simplify_eq;
      apply (Hgen _ _ _ _ _ (at_pc g rest _)); simpl; rewrite ?length_insert, ?Hge; try done;
      try (intros j Hj; by right); try (destruct (negb _); by intros [|]).
  - simplify_eq. apply (Hgen _ _ _ _ _ (at_pc g _ _)); simpl; try done;
      intros _; apply Herr; by left.
  - destruct (g_err g) as [e|] eqn:Hge; simplify_eq/=.
    apply (Hgen _ _ _ _ _ (at_pc g _ _)); simpl; try done; by intros [|].
  - simplify_eq. apply (Hgen _ _ _ _ _ (at_pc g _ _)); simpl; try done;
      destruct (_ =? 0); by intros [|].
  - simplify_eq. apply (Hgen _ _ _ _ _ (at_pc g _ _)); simpl; try done; by intros [|].
Qed.

Lemma advance_measure k rpc s s' : advance k rpc s = Some s' → (measure s' < measure s)%nat.
Proof.
  intros Hadv. unfold advance in Hadv.
  destruct (goroutines s !! k) as [g|] eqn:Hg; simplify_eq/=.
  unfold measure.
  destruct (g_pc g) eqn:Hpc.
  - simplify_eq. simpl.
    pose proof (sum_list_with_insert weight _ _ _
                  (mkGoroutine (g_ingester g) (g_streamTrackers g) rpc Looping) Hg) as H.
    unfold weight in H at 2 4. simpl in H. rewrite Hpc in H. lia.
  - destruct (g_streamTrackers g) as [|i rest] eqn:Htodo; [done|].
    destruct (trackers s !! i) as [t|] eqn:Hti; simplify_eq/=.
    destruct (g_err g) as [e|] eqn:Hge; simplify_eq; simpl;
      match goal with |- context [at_pc g rest ?p] =>
        pose proof (sum_list_with_insert weight _ _ _ (at_pc g rest p) Hg) as H;
        unfold weight in H at 2 4; simpl in H; rewrite Hpc, Htodo in H; simpl in H
      end.
    + destruct (_ <=? _); lia.
    + destruct (negb _); lia.
  - simplify_eq. simpl.
    match goal with |- context [at_pc g ?l ?p] =>
      pose proof (sum_list_with_insert weight _ _ _ (at_pc g l p) Hg) as H;
      unfold weight in H at 2 4; simpl in H; rewrite Hpc in H end.
    destruct (_ =? 1); lia.
  - destruct (g_err g) as [e|] eqn:Hge; simplify_eq/=.
    match goal with |- context [at_pc g ?l ?p] =>
      pose proof (sum_list_with_insert weight _ _ _ (at_pc g l p) Hg) as H;
      unfold weight in H at 2 4; simpl in H; rewrite Hpc in H end. lia.
  - simplify_eq. simpl.
    match goal with |- context [at_pc g ?l ?p] =>
      pose proof (sum_list_with_insert weight _ _ _ (at_pc g l p) Hg) as H;
      unfold weight in H at 2 4; simpl in H; rewrite Hpc in H end.
    destruct (_ =? 0); lia.
  - simplify_eq. simpl.
    match goal with |- context [at_pc g ?l ?p] =>
      pose proof (sum_list_with_insert weight _ _ _ (at_pc g l p) Hg) as H;
      unfold weight in H at 2 4; simpl in H; rewrite Hpc in H end. lia.
Qed.

(** A goroutine that has not returned can take its next step: no send and no
    tracker access holds it up. *)
Lemma advance_progress k g s :
  sound s → goroutines s !! k = Some g → returned g = false →
  ∃ s', advance k None s = Some s'.
Proof.
  intros Hs Hg Hret. unfold advance. rewrite Hg. simpl.
  destruct (Hs k g Hg) as [Hidx Herr]. unfold returned in Hret.
  destruct (g_pc g) eqn:Hpc; try by eexists.
  - destruct (g_streamTrackers g) as [|i rest] eqn:Htodo; [done|].
    destruct (lookup_lt_is_Some_2 (trackers s) i) as [t Ht]; [apply Hidx; by left|].
    rewrite Ht. simpl. destruct (g_err g); by eexists.
  - destruct Herr as [e He]; [by right|]. rewrite He. by eexists.
Qed.

Lemma quiescent_dec s : quiescent s ∨ ∃ k g, goroutines s !! k = Some g ∧ returned g = false.
Proof.
  unfold quiescent. induction (goroutines s) as [|g gs IH].
  - left. constructor.
  - destruct (returned g) eqn:Hr.
    + destruct IH as [IH|(k & g' & Hk & Hg')].
      * left. by constructor.
      * right. by exists (S k), g'.
    + right. by exists 0%nat, g.
Qed.

(** From any sound state the goroutines run to completion. *)
Lemma runs_to_quiescence s :
  sound s → ∃ sched s', runSchedule sched s = Some s' ∧ quiescent s'.
Proof.
  remember (measure s) as m eqn:Hm. revert s Hm.
  induction m as [m IH] using lt_wf_ind. intros s -> Hs.
  destruct (quiescent_dec s) as [Hq|(k & g & Hk & Hg)].
  { by exists [], s. }
  destruct (advance_progress k g s Hs Hk Hg) as [s1 Hadv].
  destruct (IH (measure s1) (advance_measure _ _ _ _ Hadv) s1 eq_refl
              (advance_sound _ _ _ _ Hs Hadv)) as (sched & s' & Hrun & Hq).
  exists ((k, None) :: sched), s'. simpl. rewrite Hadv. done.
Qed.

Lemma runSchedule_sound sched s s' : sound s → runSchedule sched s = Some s' → sound s'.
Proof.
  revert s; induction sched as [|[k rpc] rest IH]; intros s Hinv Hrun; simplify_eq/=; [done|].
  destruct (advance k rpc s) as [s1|] eqn:Hadv; simplify_eq/=.
  eapply IH; [|done]. by eapply advance_sound.
Qed.

Lemma appendSample_idxOK n i acc ingester :
  (i < n)%nat → idxOK n acc.1 → idxOK n (appendSample i acc ingester).1.
Proof.
  intros Hi Hok a l j Hl Hj. unfold appendSample in Hl. simpl in Hl.
  destruct (decide (Addr ingester = a)) as [<-|Hne].
  - rewrite lookup_insert_eq in Hl. simplify_eq.
    apply elem_of_app in Hj as [Hj|Hj].
    + destruct (acc.1 !! Addr ingester) as [l|] eqn:Hl; simpl in Hj.
      * by eapply Hok.
      * by apply elem_of_nil in Hj.
    + apply list_elem_of_singleton in Hj. by subst.
  - rewrite lookup_insert_ne in Hl by done. by eapply Hok.
Qed.

Lemma foldl_appendSample_idxOK n i instances acc :
  (i < n)%nat → idxOK n acc.1 → idxOK n (foldl (appendSample i) acc instances).1.
Proof.
  intros Hi. revert acc. induction instances as [|x r IH]; intros acc Hok; simpl; [done|].
  apply IH. by apply appendSample_idxOK.
Qed.

Lemma ringLoop_idxOK d keys i streams sbi descs tr streams' sbi' descs' tr' :
  ringLoop d keys i streams sbi descs tr = Some (inl (streams', sbi', descs'), tr') →
  idxOK (length streams) sbi → idxOK (length streams') sbi'.
Proof.
  revert i streams sbi descs tr.
  induction keys as [|key rest IH]; intros i streams sbi descs tr Hrun Hok; simplify_eq/=; [done|].
  destruct (ingestersRing_Get d key) as [rs|e] eqn:Hget; [|done].
  destruct (streams !! i) as [t0|] eqn:Hti; simplify_eq/=.
  assert (Hil : (i < length streams)%nat) by (by eapply lookup_lt_Some).
  apply IH in Hrun; [done|]. rewrite length_insert.
  by apply (foldl_appendSample_idxOK _ _ _ (sbi, descs)).
Qed.

Lemma Push_sound d tenantID req w vErr s0 w' :
  Push d tenantID req w = Some (Awaiting vErr s0, w') → sound s0.
Proof.
  intros HP.
  destruct (Push_awaiting _ _ _ _ _ _ _ HP)
    as (userID & keys & streams & w1 & sbi & descs & tr' & -> & Hv & Hne & Hr & Hs0).
  apply ringLoop_idxOK in Hr; [|by intros a l i Ha].
  intros k g Hk. rewrite Hs0 in Hk. simpl in Hk.
  apply list_lookup_fmap_Some in Hk as ([a l] & -> & Hal).
  apply list_elem_of_lookup_2, elem_of_map_to_list in Hal. simpl. split.
  - intros i Hi. by eapply Hr.
  - by intros [|].
Qed.

(** *** The signals of the pushTracker *)

(** C1: in every state the sendSamples goroutines of a Push can reach, under
    any interleaving of their atomic steps and any RPC results, at most one
    value has been sent on done, at most one on err, and not on both; a
    tracker whose failures exceed maxFailures rules out any send on done;
    once every goroutine has returned exactly one send has been made (given
    replica sets that tolerate fewer failures than they have members); and
    from every such state the goroutines can run on until all have returned:
    with at most one send on each channel of capacity 1, no send blocks. *)
Theorem C1_done_err_once_and_exclusive
    (d : Distributor) (tenantID : string + error) (req : PushRequest) (w w' : pworld d)
    (vErr : option error) (s0 s : pushState) :
  Push d tenantID req w = Some (Awaiting vErr s0, w') →
  len (trackers s0) < 2 ^ 31 →
  todoTotal (goroutines s0) < 2 ^ 31 →
  reachable s0 s →
  (length (done s) ≤ 1 ∧ length (err s) ≤ 1 ∧ length (done s) + length (err s) ≤ 1)%nat ∧
  ((∃ i t, trackers s !! i = Some t ∧ int32 (maxFailures t) < failed t ∧ 0 < failed t) →
   done s = []) ∧
  (err s ≠ [] →
   ∃ i t, trackers s !! i = Some t ∧ int32 (maxFailures t) < failed t ∧ 0 < failed t) ∧
  ((∀ key rs, ingestersRing_Get d key = inl rs → 0 ≤ MaxErrors rs < len (Instances rs)) →
   quiescent s → (length (done s) + length (err s) = 1)%nat) ∧
  (∃ sched' s', runSchedule sched' s = Some s' ∧ quiescent s').
Proof.
  intros HP Hn HT [sched Hrun].
  destruct (Push_inv _ _ _ _ _ _ _ HP Hn HT) as [Hinv0 Hn1].
  pose proof (runSchedule_inv _ _ _ _ _ _ Hinv0 Hrun) as Hinv.
  pose proof (inv_exclusive _ _ _ _ Hinv) as Hex.
  pose proof (atpc_nonneg SendDone (goroutines s)).
  pose proof (atpc_nonneg SendErr (goroutines s)).
  pose proof (atpc_nonneg IncSamplesFailed (goroutines s)).
  unfold len in Hex. split; [lia|]. split; [|split; [|split]].
  - intros Hov. pose proof (inv_over_no_done _ _ _ _ Hinv Hov) as Hnd.
    unfold len in Hnd. destruct (done s); [done|simpl in Hnd; lia].
  - intros Hne. apply (inv_over _ _ _ _ Hinv).
    pose proof (inv_err _ _ _ _ Hinv) as He. pose proof (inv_failed _ _ _ _ Hinv) as [HF _].
    destruct (Z.leb_spec 1 (samplesFailed s)); [lia|].
    unfold len in He. destruct (err s); [done|simpl in He; lia].
  - intros Hring Hq.
    pose proof (Push_live _ _ _ _ _ _ _ HP HT Hring) as HL0.
    pose proof (runSchedule_live _ _ _ _ HL0 Hrun) as HL.
    pose proof (inv_quiescent _ _ _ _ Hinv HL Hn1 Hq) as Hone. unfold len in Hone. lia.
  - apply runs_to_quiescence. eapply runSchedule_sound; [|done]. by eapply Push_sound.
Qed.

Lemma C1_witness :
  (length (done demo_s1) ≤ 1 ∧ length (err demo_s1) ≤ 1 ∧
   length (done demo_s1) + length (err demo_s1) ≤ 1)%nat ∧
  (length (done demo_s1) + length (err demo_s1) = 1)%nat.
Proof.
  destruct (C1_done_err_once_and_exclusive (demo None) (inl "tenant") demo_req
              (demo_world None)
              (default (demo_world None)
                 (snd <$> Push (demo None) (inl "tenant") demo_req (demo_world None)))
              None demo_s0 demo_s1)
    as (Hsafe & _ & _ & Hlive & _).
  - vm_compute. reflexivity.
  - vm_compute. reflexivity.
  - vm_compute. reflexivity.
  - exists demo_sched. vm_compute. reflexivity.
  - split; [exact Hsafe|]. apply Hlive.
    + intros key rs Hget. vm_compute in Hget. injection Hget as <-. vm_compute. split; [discriminate|reflexivity].
    + vm_compute. repeat constructor.
Defined.

(** C9: every tracker handed to the goroutines of a Push carries
    maxFailures = MaxErrors and minSuccess = |Instances| - MaxErrors of the
    replication set the ring returned for that tracker's key, so that
    minSuccess + maxFailures gives back the size of the set. *)
Theorem C9_quorum_parameters
    (d : Distributor) (tenantID : string + error) (req : PushRequest) (w w' : pworld d)
    (vErr : option error) (s0 : pushState) (i : nat) (t : streamTracker) :
  Push d tenantID req w = Some (Awaiting vErr s0, w') →
  trackers s0 !! i = Some t →
  ∃ userID keys streams w1 key rs,
    tenantID = inl userID ∧
    validateStreams d (Streams req) userID w = Some (keys, streams, vErr, true, w1) ∧
    keys !! i = Some key ∧
    ingestersRing_Get d key = inl rs ∧
    maxFailures t = MaxErrors rs ∧
    minSuccess t = int64 (len (Instances rs) - MaxErrors rs) ∧
    int64 (minSuccess t + maxFailures t) = int64 (len (Instances rs)) ∧
    (- 2 ^ 63 ≤ len (Instances rs) - MaxErrors rs < 2 ^ 63 →
     minSuccess t = len (Instances rs) - MaxErrors rs ∧
     minSuccess t + maxFailures t = len (Instances rs)).
Proof.
  intros HP Hi.
  destruct (Push_awaiting _ _ _ _ _ _ _ HP)
    as (userID & keys & streams & w1 & sbi & descs & tr' & -> & Hv & Hne & Hr & Hs0).
  exists userID, keys, streams, w1.
  destruct (validateStreams_fresh _ _ _ _ _ _ _ _ Hv) as [Hkl Hz].
  apply ringLoop_spec in Hr as [Hlen Hspec].
  destruct (Hspec i t Hi) as [(Hsame & _ & Hrange)|(key & rs & t0 & Hk & _ & Hg & Ht0 & -> & _)].
  { apply lookup_lt_Some in Hsame. lia. }
  rewrite Nat.sub_0_r in Hk. exists key, rs. simpl. repeat split; try done.
  - rewrite int64_add_l. f_equal. lia.
  - unfold int64. rewrite Z.mod_small by lia. lia.
  - unfold int64. rewrite Z.mod_small by lia. lia.
Qed.

Lemma C9_witness :
  ∃ t, trackers demo_s0 !! 0%nat = Some t ∧ minSuccess t = 2 ∧ maxFailures t = 1 ∧
       minSuccess t + maxFailures t = 3.
Proof.
  destruct (C9_quorum_parameters (demo None) (inl "tenant") demo_req (demo_world None)
              (default (demo_world None)
                 (snd <$> Push (demo None) (inl "tenant") demo_req (demo_world None)))
              None demo_s0 0%nat
              (mkStreamTracker (mkStream "app" [mkEntry 5 "a"; mkEntry 6 "b"] 0) 2 1 0 0))
    as (u & keys & streams & w1 & key & rs & _ & _ & _ & Hget & Hmf & Hms & _ & Hex).
  - vm_compute. reflexivity.
  - vm_compute. reflexivity.
  - eexists. split; [vm_compute; reflexivity|]. simpl. repeat split; reflexivity.
Defined.

(** ** More of the Distributor *)

(** ** truncateLines *)

Lemma substring_0_length (n : nat) (s : string) :
  String.length (String.substring 0 n s) = Nat.min n (String.length s).
Proof.
  revert n; induction s as [|c s IH]; intros [|n]; simpl; try done. by rewrite IH.
Qed.

Lemma substring_0_prefix (n : nat) (s : string) :
  String.prefix (String.substring 0 n s) s = true.
Proof.
  revert n; induction s as [|c s IH]; intros [|n]; simpl; try done.
  destruct (Ascii.ascii_dec c c); [apply IH|done].
Qed.

Lemma prefix_refl (s : string) : String.prefix s s = true.
Proof. induction s as [|c s IH]; simpl; [done|]. by destruct (Ascii.ascii_dec c c). Qed.

Lemma truncateLine_spec maxSize e :
  0 ≤ maxSize →
  ∃ e', truncateLine maxSize e = Some e' ∧ Timestamp e' = Timestamp e ∧
    String.prefix (Line e') (Line e) = true ∧
    (tooLong maxSize e = false → e' = e) ∧
    (0 < maxSize → Z.of_nat (String.length (Line e')) =
                   Z.min (Z.of_nat (String.length (Line e))) maxSize).
Proof.
  intros Hmax. unfold truncateLine, tooLong.
  destruct (Z.eqb_spec maxSize 0) as [H0|H0]; simpl.
  { exists e. repeat split; try done; [apply prefix_refl|lia]. }
  destruct (Z.ltb_spec maxSize (Z.of_nat (String.length (Line e)))) as [Hlt|Hge].
  - destruct (Z.ltb_spec maxSize 0); [lia|].
    eexists. split; [done|]. simpl. split; [done|]. split; [apply substring_0_prefix|].
    split; [done|]. intros _. rewrite substring_0_length. lia.
  - exists e. repeat split; try done; [apply prefix_refl|lia].
Qed.

(** X1: truncateLines leaves the entries as they are when truncation is off or
    the limit is 0.  With truncation on and a positive limit every entry keeps
    its place and its timestamp, and its line is cut to its first
    min(length, maxLineSize) bytes; a line within the limit is not changed.
    With truncation on and a negative limit the slice expression panics at
    the first entry. *)
Theorem X1_truncateLines_caps_every_line (vContext : validationContext) (entries : list Entry) :
  (maxLineSizeTruncate vContext = false ∨ maxLineSize vContext = 0 →
   truncateLines vContext entries = Some entries) ∧
  (maxLineSizeTruncate vContext = true → 0 < maxLineSize vContext →
   ∃ out, truncateLines vContext entries = Some out ∧ length out = length entries ∧
     ∀ i e, entries !! i = Some e →
       ∃ e', out !! i = Some e' ∧ Timestamp e' = Timestamp e ∧
         String.prefix (Line e') (Line e) = true ∧
         Z.of_nat (String.length (Line e')) =
           Z.min (Z.of_nat (String.length (Line e))) (maxLineSize vContext) ∧
         (Z.of_nat (String.length (Line e)) ≤ maxLineSize vContext → e' = e)) ∧
  (maxLineSizeTruncate vContext = true → maxLineSize vContext < 0 → entries ≠ [] →
   truncateLines vContext entries = None).
Proof.
  unfold truncateLines. split; [|split].
  - intros [->| H0]; [done|]. destruct (maxLineSizeTruncate vContext); [|done]. simpl.
    apply mapM_Some_2, Forall_Forall2_diag, Forall_forall. intros e _.
    unfold truncateLine. by rewrite H0.
  - intros -> Hpos. simpl.
    destruct (mapM_is_Some_2 (truncateLine (maxLineSize vContext)) entries) as [out Hout].
    { apply Forall_forall. intros e _.
      destruct (truncateLine_spec (maxLineSize vContext) e ltac:(lia)) as (e' & He' & _).
      by exists e'. }
    exists out. split; [done|]. split; [symmetry; by eapply length_mapM|].
    apply mapM_Some_1 in Hout.
    intros i e Hi. destruct (Forall2_lookup_l _ _ _ _ _ Hout Hi) as (e' & Hi' & He').
    exists e'. split; [done|].
    destruct (truncateLine_spec (maxLineSize vContext) e ltac:(lia))
      as (e'' & He'' & Hts & Hpre & Hsame & Hlen).
    rewrite He' in He''. injection He'' as <-. repeat split; try done; [by apply Hlen|].
    intros Hle. apply Hsame. unfold tooLong.
    destruct (Z.ltb_spec (maxLineSize vContext) (Z.of_nat (String.length (Line e)))); [lia|].
    by rewrite andb_false_r.
  - intros -> Hneg Hne. simpl. destruct entries as [|e r]; [done|].
    apply mapM_None_2, Exists_cons_hd. unfold truncateLine.
    destruct (Z.eqb_spec (maxLineSize vContext) 0); [lia|].
    destruct (Z.ltb_spec (maxLineSize vContext) (Z.of_nat (String.length (Line e)))); [|lia].
    destruct (Z.ltb_spec (maxLineSize vContext) 0); [|lia]. done.
Qed.

Lemma X1_witness :
  ∃ out, truncateLines demo_truncating [mkEntry 1 "abcdef"; mkEntry 2 "ab"] = Some out ∧
         out !! 0%nat = Some (mkEntry 1 "abc") ∧ out !! 1%nat = Some (mkEntry 2 "ab").
Proof.
  destruct (X1_truncateLines_caps_every_line demo_truncating
              [mkEntry 1 "abcdef"; mkEntry 2 "ab"]) as (_ & H & _).
  destruct H as (out & Hout & _ & _); [reflexivity|reflexivity|].
  exists out. split; [exact Hout|]. vm_compute in Hout. injection Hout as <-.
  split; reflexivity.
Defined.

(** X2: when the loop of truncateLines runs to its end, what it adds to
    MutatedSamples is the number of lines over the limit, and what it adds to
    MutatedBytes is the excess of the last such line alone (0 when there is
    none): truncatedBytes is assigned in the loop, not added to. *)
Theorem X2_truncateLines_reports_last_excess (vContext : validationContext) (entries : list Entry) :
  let over := List.filter (tooLong (maxLineSize vContext)) entries in
  truncateCounts vContext entries =
    (len over,
     match last over with
     | Some e => Z.of_nat (String.length (Line e)) - maxLineSize vContext
     | None => 0
     end).
Proof.
  unfold truncateCounts. induction entries as [|e r IH] using rev_ind; [done|].
  rewrite foldl_app, List.filter_app. simpl. rewrite IH. fold (tooLong (maxLineSize vContext) e).
  destruct (tooLong (maxLineSize vContext) e); simpl.
  - rewrite last_snoc. unfold len. rewrite length_app. simpl. f_equal. lia.
  - by rewrite app_nil_r.
Qed.

(** ** The entry loop, read as a whole *)

Lemma bump_Timestamp inc p e : Timestamp e ≤ Timestamp (bump inc p e).
Proof.
  unfold bump. destruct inc; [|lia]. destruct (String.eqb (Line p) (Line e)); [lia|].
  simpl. unfold maxT. destruct (Z.ltb_spec (Timestamp e) (Timestamp p + 1)); lia.
Qed.

Lemma bumpFrom_Timestamp inc p l k e o :
  l !! k = Some e → bumpFrom inc p l !! k = Some o → Timestamp e ≤ Timestamp o.
Proof.
  revert p k; induction l as [|x r IH]; intros p k; [done|].
  destruct k as [|k]; simpl.
  - intros ? ?; simplify_eq. apply bump_Timestamp.
  - apply IH.
Qed.

Lemma bumpAll_Timestamp inc l k e o :
  l !! k = Some e → bumpAll inc l !! k = Some o → Timestamp e ≤ Timestamp o.
Proof.
  destruct l as [|x r]; [done|]. destruct k as [|k]; simpl.
  - intros ? ?; simplify_eq. lia.
  - apply bumpFrom_Timestamp.
Qed.

Lemma bumpFrom_off p l : bumpFrom false p l = l.
Proof. revert p; induction l as [|x r IH]; intros p; simpl; [done|]. by rewrite IH. Qed.

Lemma bumpAll_off l : bumpAll false l = l.
Proof. destruct l; simpl; [done|]. by rewrite bumpFrom_off. Qed.

(** X3: the entry loop of validateStreams keeps the entries ValidateEntry
    accepts, in order and with their lines.  The timestamp of a kept entry is
    never moved back, and not moved at all when incrementDuplicateTimestamps
    is off.  The validation error it leaves is that of the last rejected
    entry, or the one it started with when none is rejected; the size and the
    count grow by the line bytes and by the number of the accepted entries. *)
Theorem X3_validateEntries_keeps_the_valid_entries
    (ValidateEntry : Entry → option error) (increment : bool) (entries : list Entry)
    (verr : option error) (size count : Z) :
  let r := validateEntries ValidateEntry increment entries verr size count in
  let v := validOnly ValidateEntry entries in
  length r.1.1.1 = length v ∧
  Line <$> r.1.1.1 = Line <$> v ∧
  (∀ k e o, v !! k = Some e → r.1.1.1 !! k = Some o → Timestamp e ≤ Timestamp o) ∧
  (increment = false → r.1.1.1 = v) ∧
  r.1.1.2 = from_option Some verr (last (omap ValidateEntry entries)) ∧
  r.1.2 = size + sizeOf v ∧
  r.2 = count + len v.
Proof.
  intros r v. subst r v. rewrite validateEntries_spec. simpl.
  split; [apply bumpAll_length|]. split; [apply bumpAll_Line|].
  split; [intros k e o; apply bumpAll_Timestamp|].
  split; [intros ->; apply bumpAll_off|]. done.
Qed.

(** X4: with incrementDuplicateTimestamps on, two neighbours in the output of
    the entry loop whose lines differ have strictly increasing timestamps. *)
Theorem X4_validateEntries_orders_distinct_lines
    (ValidateEntry : Entry → option error) (entries : list Entry)
    (verr : option error) (size count : Z) (k : nat) (a b : Entry) :
  let out := (validateEntries ValidateEntry true entries verr size count).1.1.1 in
  out !! k = Some a → out !! S k = Some b → Line a ≠ Line b → Timestamp a < Timestamp b.
Proof.
  intros out Ha Hb Hne. subst out. rewrite validateEntries_spec in *. simpl in *.
  destruct (lookup_lt_is_Some_2 (validOnly ValidateEntry entries) (S k)) as [e He].
  { rewrite <- (bumpAll_length true). by eapply lookup_lt_Some. }
  rewrite (bumpAll_lookup_S true _ _ _ _ Ha He) in Hb. injection Hb as <-.
  unfold bump in *. destruct (String.eqb_spec (Line a) (Line e)) as [Heq|Hneq]; [done|].
  simpl. unfold maxT. destruct (Z.ltb_spec (Timestamp e) (Timestamp a + 1)); lia.
Qed.

Lemma X4_witness :
  Timestamp (mkEntry 5 "a") < Timestamp (mkEntry 6 "b").
Proof.
  apply (X4_validateEntries_orders_distinct_lines accept_all
           [mkEntry 5 "a"; mkEntry 5 "b"] None 0 0 0); [reflexivity|reflexivity|discriminate].
Defined.

(** ** validateStreams without sharding *)

Lemma sizeOf_Line l l' : Line <$> l = Line <$> l' → sizeOf l = sizeOf l'.
Proof.
  revert l'; induction l as [|e r IH]; intros [|e' r'] H; simplify_eq/=; [done|].
  rewrite (IH r') by done. congruence.
Qed.

Lemma validateStream_unsharded d vctx userID stream c acc c' acc' :
  cfg_ShardStreams_Enabled d = false →
  validateStream d vctx userID stream c acc = Some (c', acc') →
  (va_keys acc' = va_keys acc ∧ va_validStreams acc' = va_validStreams acc ∧
   va_validatedSamplesSize acc' = va_validatedSamplesSize acc ∧
   va_validatedSamplesCount acc' = va_validatedSamplesCount acc)
  ∨ ∃ t, forwarded d vctx stream t ∧
      va_keys acc' = va_keys acc ++ [util_TokenFor d userID (Labels (distributor.stream t))] ∧
      va_validStreams acc' = va_validStreams acc ++ [t] ∧
      va_validatedSamplesSize acc' =
        va_validatedSamplesSize acc + sizeOf (Entries (distributor.stream t)) ∧
      va_validatedSamplesCount acc' =
        va_validatedSamplesCount acc + len (Entries (distributor.stream t)).
Proof.
  unfold validateStream. intros Hoff H. rewrite Hoff in H.
  destruct (Nat.eqb_spec (length (Entries stream)) 0) as [Hz|Hnz]; [simplify_eq; by left|].
  destruct (truncateLines vctx (Entries stream)) as [entries1|] eqn:Htr; [|done].
  cbn [mbind option_bind Labels] in H.
  destruct (parseStreamLabels d vctx (Labels stream) _ c) as [[lbls|e] c1] eqn:Hp.
  - rewrite validateEntries_spec in H. simplify_eq. right.
    eexists. split; [|simpl; repeat split; try done].
    + exists entries1, c. simpl. rewrite Hp. repeat split; try done.
      intros He. by rewrite He in Hnz.
    + simpl. f_equal. apply sizeOf_Line. symmetry. apply bumpAll_Line.
    + simpl. f_equal. unfold len. by rewrite bumpAll_length.
  - simplify_eq. by left.
Qed.

Lemma validateLoop_unsharded d vctx userID streams c acc c' acc' :
  cfg_ShardStreams_Enabled d = false →
  validateLoop d vctx userID streams c acc = Some (c', acc') →
  ∃ kept new,
    sublist kept streams ∧ Forall2 (forwarded d vctx) kept new ∧
    va_validStreams acc' = va_validStreams acc ++ new ∧
    va_keys acc' = va_keys acc ++
      ((λ t, util_TokenFor d userID (Labels (stream t))) <$> new) ∧
    va_validatedSamplesSize acc' = va_validatedSamplesSize acc + bytesOf new ∧
    va_validatedSamplesCount acc' = va_validatedSamplesCount acc + entriesOf new.
Proof.
  intros Hoff. revert c acc. induction streams as [|s rest IH]; intros c acc H; simplify_eq/=.
  { exists [], []. rewrite !app_nil_r. unfold bytesOf, entriesOf. simpl.
    repeat split; try done; try lia. }
  destruct (validateStream d vctx userID s c acc) as [[c1 acc1]|] eqn:Hs; simplify_eq/=.
  apply IH in H as (kept & new & Hsub & Hfw & Hv & Hk & Hsz & Hct).
  destruct (validateStream_unsharded _ _ _ _ _ _ _ _ Hoff Hs)
    as [(Hk1 & Hv1 & Hs1 & Hc1)|(t & Ht & Hk1 & Hv1 & Hs1 & Hc1)].
  - exists kept, new. rewrite Hv, Hk, Hsz, Hct, Hk1, Hv1, Hs1, Hc1.
    repeat split; try done. by apply sublist_cons.
  - exists (s :: kept), (t :: new). rewrite Hv, Hk, Hsz, Hct, Hk1, Hv1, Hs1, Hc1.
    rewrite <- !app_assoc. unfold bytesOf, entriesOf. simpl.
    repeat split; try done; try lia; [by apply sublist_skip|by constructor].
Qed.

(** X5: with sharding off, when validateStreams lets the request through, its
    trackers are made, in order, of streams of the request, none of them
    twice: streams that have entries and whose labels parseStreamLabels
    accepts.  Each tracker carries the labels parseStreamLabels answered and
    the entries of its stream, truncated, that ValidateEntry accepts; key
    number i is the token of the labels of tracker number i. *)
Theorem X5_validateStreams_forwards_accepted_entries_in_order
    (d : Distributor) (streams : list Stream) (userID : string) (w w' : pworld d)
    (keys : list Z) (trackers : list streamTracker) (verr : option error) :
  cfg_ShardStreams_Enabled d = false →
  validateStreams d streams userID w = Some (keys, trackers, verr, true, w') →
  ∃ kept,
    sublist kept streams ∧
    Forall2 (forwarded d (validator_getValidationContextForTime d userID)) kept trackers ∧
    keys = (λ t, util_TokenFor d userID (Labels (stream t))) <$> trackers.
Proof.
  unfold validateStreams. intros Hoff H.
  destruct (validateLoop _ _ _ _ _ _) as [[c1 acc]|] eqn:Hl; simplify_eq/=.
  apply validateLoop_unsharded in Hl as (kept & new & Hsub & Hfw & Hv & Hk & _); [|done].
  simpl in Hv, Hk. exists kept.
  assert (Hgoal : sublist kept streams ∧
            Forall2 (forwarded d (validator_getValidationContextForTime d userID)) kept
                    (va_validStreams acc) ∧
            va_keys acc = (λ t, util_TokenFor d userID (Labels (stream t))) <$> va_validStreams acc)
    by (by rewrite Hv, Hk).
  destruct (Nat.eqb _ 0); [by simplify_eq|].
  destruct (ingestionRateLimiter_AllowN _ _ _); by simplify_eq/=.
Qed.

Lemma X5_witness :
  ∃ kept, sublist kept (Streams demo_req) ∧
    Forall2 (forwarded (demo None) (validator_getValidationContextForTime (demo None) "tenant"))
            kept [demo_tracker].
Proof.
  destruct (X5_validateStreams_forwards_accepted_entries_in_order (demo None) (Streams demo_req)
              "tenant" (demo_world None)
              (default (demo_world None)
                 (snd <$> validateStreams (demo None) (Streams demo_req) "tenant"
                            (demo_world None)))
              [9] [demo_tracker] None eq_refl)
    as (kept & Hsub & Hfw & _).
  - vm_compute. reflexivity.
  - exists kept. split; [exact Hsub|exact Hfw].
Defined.

Lemma ringLoop_stream d keys i streams sbi descs tr streams' sbi' descs' tr' :
  ringLoop d keys i streams sbi descs tr = Some (inl (streams', sbi', descs'), tr') →
  stream <$> streams' = stream <$> streams.
Proof.
  intros H. apply ringLoop_spec in H as [Hlen Hspec].
  apply list_eq. intros j. rewrite !list_lookup_fmap.
  destruct (streams' !! j) as [t|] eqn:Hj.
  - destruct (Hspec j t Hj) as [(-> & _)|(k & rs & t0 & _ & _ & _ & -> & -> & _)]; done.
  - apply lookup_ge_None in Hj. rewrite Hlen in Hj. apply lookup_ge_None in Hj. by rewrite Hj.
Qed.

Lemma bytesOf_stream ts ts' : stream <$> ts = stream <$> ts' → bytesOf ts = bytesOf ts'.
Proof.
  intros H. unfold bytesOf.
  rewrite <- (sumZ_fmap (λ s, sizeOf (Entries s)) stream ts),
          <- (sumZ_fmap (λ s, sizeOf (Entries s)) stream ts'). by rewrite H.
Qed.

Lemma Push_awaiting_pushStreams d tenantID req w vErr s0 w' :
  Push d tenantID req w = Some (Awaiting vErr s0, w') →
  ∃ userID keys streams w1,
    tenantID = inl userID ∧
    validateStreams d (Streams req) userID w = Some (keys, streams, vErr, true, w1) ∧
    streams ≠ [] ∧
    pushStreams d keys streams userID w1 = Some (inl s0, w').
Proof.
  unfold Push. intros H. destruct tenantID as [userID|e]; [|by simplify_eq].
  destruct (Nat.eqb (length (Streams req)) 0); [by simplify_eq|].
  destruct (validateStreams d (Streams req) userID w) as [[[[[keys streams] verr] ok] w1]|] eqn:Hv;
    [|done].
  cbn [mbind option_bind] in H. destruct ok; simpl in H; [|by simplify_eq].
  destruct (Nat.eqb_spec (length streams) 0) as [Hz|Hnz]; [by simplify_eq|].
  destruct (pushStreams d keys streams userID w1) as [[[s|e] w2]|] eqn:Hp; simplify_eq/=.
  exists userID, keys, streams, w1. repeat split; try done. intros ->. by apply Hnz.
Qed.

Lemma validateStreams_unsharded_trace d streams userID w keys trackers verr w' :
  cfg_ShardStreams_Enabled d = false →
  validateStreams d streams userID w = Some (keys, trackers, verr, true, w') →
  trackers ≠ [] →
  trace w' = trace w ++ [EvAllowN userID (bytesOf trackers) true].
Proof.
  unfold validateStreams. intros Hoff H Hne.
  destruct (validateLoop _ _ _ _ _ _) as [[c1 acc]|] eqn:Hl; simplify_eq/=.
  apply validateLoop_unsharded in Hl as (kept & new & _ & _ & Hv & _ & Hsz & _); [|done].
  simpl in Hv, Hsz.
  destruct (Nat.eqb_spec (length (va_validStreams acc)) 0) as [Hz|Hnz].
  { simplify_eq. by destruct (va_validStreams acc). }
  destruct (ingestionRateLimiter_AllowN _ _ _); simplify_eq/=.
  by rewrite Hsz.
Qed.

(** X6: with sharding off, a Push that gets to start its goroutines has first
    asked the rate limiter, once, for exactly the line bytes of the entries
    it forwards, and was allowed; it asks the rate limiter nothing more. *)
Theorem X6_Push_charges_the_bytes_it_forwards
    (d : Distributor) (tenantID : string + error) (req : PushRequest) (w w' : pworld d)
    (vErr : option error) (s0 : pushState) :
  cfg_ShardStreams_Enabled d = false →
  Push d tenantID req w = Some (Awaiting vErr s0, w') →
  ∃ userID evs,
    tenantID = inl userID ∧
    trace w' = trace w ++ EvAllowN userID (bytesOf (trackers s0)) true :: evs ∧
    Forall (λ ev, isAllowN ev = false) evs.
Proof.
  intros Hoff HP.
  destruct (Push_awaiting_pushStreams _ _ _ _ _ _ _ HP)
    as (userID & keys & streams & w1 & -> & Hv & Hne & Hps).
  pose proof (validateStreams_unsharded_trace _ _ _ _ _ _ _ _ Hoff Hv Hne) as Htr.
  destruct (pushStreams_trace _ _ _ _ _ _ _ Hps) as (evs & Htr2 & Hevs).
  exists userID, evs. split; [done|]. split; [|done].
  rewrite Htr2, Htr, <- app_assoc. simpl. do 3 f_equal.
  apply bytesOf_stream. unfold pushStreams in Hps.
  destruct (ringLoop d keys 0 streams ∅ ∅ (trace w1)) as [[[[[streams1 sbi] descs]|e] tr']|] eqn:Hr;
    cbn [mbind option_bind] in Hps; simplify_eq/=.
  symmetry. by eapply ringLoop_stream.
Qed.

Lemma X6_witness :
  ∃ evs, trace (default (demo_world None)
                  (snd <$> Push (demo None) (inl "tenant") demo_req (demo_world None)))
         = EvAllowN "tenant" 2 true :: evs.
Proof.
  destruct (X6_Push_charges_the_bytes_it_forwards (demo None) (inl "tenant") demo_req
              (demo_world None)
              (default (demo_world None)
                 (snd <$> Push (demo None) (inl "tenant") demo_req (demo_world None)))
              None demo_s0 eq_refl)
    as (u & evs & Hu & Htr & _).
  - vm_compute. reflexivity.
  - exists evs. injection Hu as <-. exact Htr.
Defined.

(** ** Push runs to its select *)

Lemma truncateLines_is_Some vctx entries :
  maxLineSizeTruncate vctx = false ∨ 0 ≤ maxLineSize vctx →
  is_Some (truncateLines vctx entries).
Proof.
  unfold truncateLines. intros [->|Hmax]; [done|].
  destruct (maxLineSizeTruncate vctx); [|done]. simpl.
  apply mapM_is_Some_2, Forall_forall. intros e _.
  destruct (truncateLine_spec (maxLineSize vctx) e Hmax) as (e' & He' & _). by exists e'.
Qed.

Lemma validateLoop_is_Some d vctx userID streams c acc :
  cfg_ShardStreams_Enabled d = false →
  maxLineSizeTruncate vctx = false ∨ 0 ≤ maxLineSize vctx →
  is_Some (validateLoop d vctx userID streams c acc).
Proof.
  intros Hoff Hmax. revert c acc. induction streams as [|s rest IH]; intros c acc; simpl; [done|].
  assert (Hs : is_Some (validateStream d vctx userID s c acc)).
  { unfold validateStream. rewrite Hoff.
    destruct (Nat.eqb (length (Entries s)) 0); [done|].
    destruct (truncateLines_is_Some vctx (Entries s) Hmax) as [entries1 ->].
    cbn [mbind option_bind Labels].
    destruct (parseStreamLabels d vctx (Labels s) _ c) as [[lbls|e] c1]; [|done].
    by destruct (validateEntries _ _ _ _ _ _) as [[[entries2 verr] size] count]. }
  destruct Hs as [[c1 acc1] ->]. cbn [mbind option_bind]. apply IH.
Qed.

Lemma ringLoop_is_Some d keys i streams sbi descs tr :
  (i + length keys ≤ length streams)%nat →
  is_Some (ringLoop d keys i streams sbi descs tr).
Proof.
  revert i streams sbi descs tr. induction keys as [|key rest IH];
    intros i streams sbi descs tr Hlen; simpl in *; [done|].
  destruct (ingestersRing_Get d key) as [rs|e]; [|done].
  destruct (lookup_lt_is_Some_2 streams i) as [t ->]; [lia|]. cbn [mbind option_bind].
  apply IH. rewrite length_insert. lia.
Qed.

(** X7: with sharding off and, wherever truncation is on, a line limit that is
    not negative, Push does not panic: for every tenant, request and world it
    returns or reaches its select. *)
Theorem X7_Push_does_not_panic_without_sharding
    (d : Distributor) (tenantID : string + error) (req : PushRequest) (w : pworld d) :
  cfg_ShardStreams_Enabled d = false →
  (∀ u, maxLineSizeTruncate (validator_getValidationContextForTime d u) = false ∨
        0 ≤ maxLineSize (validator_getValidationContextForTime d u)) →
  is_Some (Push d tenantID req w).
Proof.
  intros Hoff Hmax. unfold Push. destruct tenantID as [userID|e]; [|done].
  destruct (Nat.eqb (length (Streams req)) 0); [done|].
  destruct (validateStreams d (Streams req) userID w) as [[[[[keys streams] verr] ok] w1]|] eqn:Hv.
  - cbn [mbind option_bind]. destruct ok; [|done]. simpl.
    destruct (Nat.eqb (length streams) 0); [done|].
    apply validateStreams_fresh in Hv as [Hlen _].
    unfold pushStreams.
    destruct (ringLoop_is_Some d keys 0 streams ∅ ∅ (trace w1) ltac:(lia)) as [[r tr] ->].
    cbn [mbind option_bind]. by destruct r as [[[? ?] ?]|?].
  - exfalso. unfold validateStreams in Hv.
    destruct (validateLoop_is_Some d (validator_getValidationContextForTime d userID) userID
                (Streams req) (cache w) (mkVacc [] [] None 0 0) Hoff (Hmax userID))
      as [[c1 acc] Hl].
    rewrite Hl in Hv. cbn [mbind option_bind] in Hv.
    destruct (Nat.eqb _ 0); [done|]. by destruct (negb _).
Qed.

Lemma X7_witness :
  is_Some (Push (demo None) (inl "tenant") demo_long_req (demo_world None)).
Proof.
  apply X7_Push_does_not_panic_without_sharding; [reflexivity|].
  intros u. left. reflexivity.
Defined.

(** ** The label cache *)

(** X8: on a cache miss parseStreamLabels adds to the label cache only labels
    that parsed and passed ValidateLabels, under the key it was given; on an
    error the cache is as the lookup left it.  Over a cache that gives back
    what was added, the next call with the same key answers the same labels
    from the cache, whatever the tenant and the stream it is called for. *)
Theorem X8_parseStreamLabels_caches_only_what_it_accepted
    (d : Distributor) (vA vB : validationContext) (key : string) (sA sB : Stream)
    (c c1 : labelCache d) :
  (∀ c k v, (labelCache_Get d (labelCache_Add d c k v) k).1 = Some v) →
  labelCache_Get d c key = (None, c1) →
  let r := parseStreamLabels d vA key sA c in
  (∀ lsVal, r.1 = inl lsVal →
     r.2 = labelCache_Add d c1 key lsVal ∧
     (parseStreamLabels d vB key sB r.2).1 = inl lsVal) ∧
  (∀ e, r.1 = inr e → r.2 = c1).
Proof.
  intros Hlaw Hmiss r.
  assert (Hr : r = match syntax_ParseLabels d key with
                   | inr err => (inr (InvalidLabelsError StatusBadRequest key err), c1)
                   | inl ls =>
                       match validator_ValidateLabels d vA ls sA with
                       | Some err => (inr err, c1)
                       | None => (inl (Labels_String d ls),
                                  labelCache_Add d c1 key (Labels_String d ls))
                       end
                   end).
  { subst r. unfold parseStreamLabels. by rewrite Hmiss. }
  clearbody r. subst r.
  destruct (syntax_ParseLabels d key) as [ls|e0]; simpl.
  - destruct (validator_ValidateLabels d vA ls sA) as [e1|]; simpl.
    + split; [intros ? ?; discriminate|]. by intros e ?.
    + split; [|intros ? ?; discriminate]. intros lsVal ?; simplify_eq. split; [done|].
      unfold parseStreamLabels. specialize (Hlaw c1 key (Labels_String d ls)).
      destruct (labelCache_Get d (labelCache_Add d c1 key (Labels_String d ls)) key)
        as [[v|] c2]; simpl in Hlaw; by simplify_eq.
  - split; [intros ? ?; discriminate|]. by intros e ?.
Qed.

Lemma X8_witness :
  (parseStreamLabels (demo None) (mkValidationContext "other" 8 false true) "app"
     (mkStream "app" [] 0)
     (parseStreamLabels (demo None) (mkValidationContext "tenant" 8 false true) "app"
        (mkStream "app" [] 0) ∅).2).1 = inl "app".
Proof.
  destruct (X8_parseStreamLabels_caches_only_what_it_accepted (demo None)
              (mkValidationContext "tenant" 8 false true)
              (mkValidationContext "other" 8 false true)
              "app" (mkStream "app" [] 0) (mkStream "app" [] 0)
              (∅ : gmap string string) (∅ : gmap string string)) as [Hok _].
  - intros c k v. simpl. apply lookup_insert_eq.
  - reflexivity.
  - destruct (Hok "app") as [_ H]; [reflexivity|]. exact H.
Defined.

(** ** The shards of a stream *)

Lemma mapM_cons_eq {A B} (f : A → option B) (x : A) (l : list A) :
  mapM f (x :: l) = y ← f x; k ← mapM f l; Some (y :: k).
Proof. done. Qed.

Lemma createShard_template d stream base v pat N i :
  createShard d stream (base ++ [mkLabel ShardLbName v]) pat N i =
  if usable stream N i
  then entries ← slice (boundsFor stream N i).1.1 (boundsFor stream N i).1.2 (Entries stream);
       Some (mkStream (replace1 pat ShardLbPlaceholder (Itoa i)) entries
                      (Labels_Hash d (base ++ [mkLabel ShardLbName (Itoa i)])),
             true, base ++ [mkLabel ShardLbName (Itoa i)])
  else Some (mkStream EmptyString [] 0, false, base ++ [mkLabel ShardLbName v]).
Proof.
  unfold createShard, usable.
  destruct (boundsFor stream N i) as [[lo hi] ok]. simpl. destruct ok; simpl; [|done].
  assert (Hl : <[(length (base ++ [mkLabel ShardLbName v]) - 1)%nat :=
                  mkLabel ShardLbName (Itoa i)]> (base ++ [mkLabel ShardLbName v]) =
               base ++ [mkLabel ShardLbName (Itoa i)]).
  { rewrite length_app. simpl. replace (length base + 1 - 1)%nat with (length base + 0)%nat by lia.
    by rewrite insert_app_r. }
  destruct (base ++ [mkLabel ShardLbName v]) as [|x r] eqn:Hb.
  { by destruct base. }
  rewrite Hl. cbn [mbind option_bind]. done.
Qed.

Lemma shardLoop_spec d stream base userID N todo i v keys trackers keys' trackers' :
  let pat := Labels_String d (base ++ [mkLabel ShardLbName ShardLbPlaceholder]) in
  shardLoop d stream pat userID N todo i (base ++ [mkLabel ShardLbName v]) keys trackers
    = Some (keys', trackers') →
  ∃ shards,
    mapM (shardOf d stream base N) (List.filter (usable stream N) (seqZ i (Z.of_nat todo)))
      = Some shards ∧
    trackers' = trackers ++ (newStreamTracker <$> shards) ∧
    keys' = keys ++ ((λ s, util_TokenFor d userID (Labels s)) <$> shards).
Proof.
  intros pat. revert i v keys trackers. induction todo as [|todo IH]; intros i v keys trackers H.
  { simpl in H. simplify_eq. exists []. by rewrite !app_nil_r. }
  rewrite (seqZ_cons i (Z.of_nat (S todo))) by lia.
  replace (Z.pred (Z.of_nat (S todo))) with (Z.of_nat todo) by lia.
  replace (Z.succ i) with (i + 1) by lia.
  cbn [shardLoop] in H. rewrite createShard_template in H. cbn [List.filter].
  destruct (usable stream N i) eqn:Hu.
  - destruct (slice _ _ (Entries stream)) as [entries|] eqn:Hs; [|done].
    cbn [mbind option_bind negb] in H. apply IH in H as (shards & Hm & -> & ->).
    eexists (_ :: shards). split; [|split].
    + rewrite mapM_cons_eq, Hm. unfold shardOf. cbv zeta. rewrite Hs. reflexivity.
    + by rewrite <- app_assoc.
    + by rewrite <- app_assoc.
  - cbn [mbind option_bind negb] in H. by apply IH in H.
Qed.

(** X9: when the sharder asks for N > 1 shards and the labels parse,
    shardStream returns one tracker for each shard number from 0 to N-1
    whose bounds boundsFor accepts, in ascending order of the number, each
    with the shard label set to its number and the entries of its window,
    and one key for each tracker: at most N of them. *)
Theorem X9_shardStream_makes_the_usable_shards_in_order
    (d : Distributor) (stream : Stream) (userID : string) (N : Z) (base : list Label)
    (keys : list Z) (trackers : list streamTracker) :
  streamSharder_ShardCountFor d stream = (N, true) →
  1 < N →
  syntax_ParseLabels d (Labels stream) = inl base →
  shardStream d stream userID = Some (keys, trackers) →
  ∃ shards,
    mapM (shardOf d stream base N) (List.filter (usable stream N) (seqZ 0 N)) = Some shards ∧
    trackers = newStreamTracker <$> shards ∧
    keys = (λ s, util_TokenFor d userID (Labels s)) <$> shards ∧
    (length shards ≤ Z.to_nat N)%nat.
Proof.
  unfold shardStream. intros -> HN Hparse H. simpl in H.
  destruct (Z.leb_spec N 1); [lia|]. unfold labelTemplate in H. rewrite Hparse in H.
  apply shardLoop_spec in H as (shards & Hm & -> & ->). rewrite Z2Nat.id in Hm by lia.
  exists shards. repeat split; try done.
  apply length_mapM in Hm. rewrite <- Hm.
  etrans; [apply List.filter_length_le|]. rewrite length_seqZ. lia.
Qed.

Lemma X9_witness :
  ∃ shards, mapM (shardOf (demo (Some 11)) (mkStream "app" demo_entries15 0)
                          [mkLabel "job" "app"] 11)
                 (List.filter (usable (mkStream "app" demo_entries15 0) 11) (seqZ 0 11))
            = Some shards ∧ (length shards ≤ 11)%nat.
Proof.
  destruct (X9_shardStream_makes_the_usable_shards_in_order (demo (Some 11))
              (mkStream "app" demo_entries15 0) "tenant" 11 [mkLabel "job" "app"]
              (default ([], [])
                 (shardStream (demo (Some 11)) (mkStream "app" demo_entries15 0) "tenant")).1
              (default ([], [])
                 (shardStream (demo (Some 11)) (mkStream "app" demo_entries15 0) "tenant")).2)
    as (shards & Hm & _ & _ & Hlen).
  - reflexivity.
  - lia.
  - reflexivity.
  - vm_compute. reflexivity.
  - exists shards. split; [exact Hm|exact Hlen].
Defined.

(** ** The ring lookups of pushStreams *)

Lemma ringLoop_error d keys i streams sbi descs tr e tr' :
  ringLoop d keys i streams sbi descs tr = Some (inr e, tr') →
  ∃ k key, keys !! k = Some key ∧ ingestersRing_Get d key = inr e ∧
    (∀ j key', (j < k)%nat → keys !! j = Some key' → ∃ rs, ingestersRing_Get d key' = inl rs) ∧
    tr' = tr ++ (EvRingGet <$> take (S k) keys).
Proof.
  revert i streams sbi descs tr. induction keys as [|key rest IH];
    intros i streams sbi descs tr H; simplify_eq/=.
  destruct (ingestersRing_Get d key) as [rs|e0] eqn:Hget.
  - destruct (streams !! i) as [t|]; simplify_eq/=.
    apply IH in H as (k & key' & Hk & Hg & Hbefore & ->).
    exists (S k), key'. repeat split; try done.
    + intros [|j] key'' Hj Hkey; simplify_eq/=; [by exists rs|]. apply (Hbefore j); [lia|done].
    + by rewrite <- app_assoc.
  - simplify_eq. exists 0%nat, key. repeat split; try done. intros j key' Hj. lia.
Qed.

Lemma ringLoop_lookups d keys i streams sbi descs tr r tr' :
  ringLoop d keys i streams sbi descs tr = Some (inl r, tr') →
  Forall (λ key, ∃ rs, ingestersRing_Get d key = inl rs) keys ∧
  tr' = tr ++ (EvRingGet <$> keys).
Proof.
  revert i streams sbi descs tr. induction keys as [|key rest IH];
    intros i streams sbi descs tr H; simplify_eq/=.
  { split; [constructor|by rewrite app_nil_r]. }
  destruct (ingestersRing_Get d key) as [rs|e0] eqn:Hget; [|done].
  destruct (streams !! i) as [t|]; simplify_eq/=.
  apply IH in H as [Hall ->]. split; [constructor; [by exists rs|done]|].
  by rewrite <- app_assoc.
Qed.

(** X10: pushStreams asks the ring for the keys, in order, before it starts any
    goroutine.  If a lookup fails it returns that error, having looked up the
    keys up to and including the failing one and started nothing; if it
    starts goroutines, every key had an answer and the go statements follow
    all the lookups. *)
Theorem X10_pushStreams_looks_up_every_key_before_any_send
    (d : Distributor) (keys : list Z) (streams : list streamTracker) (userID : string)
    (w w2 : pworld d) :
  (∀ e, pushStreams d keys streams userID w = Some (inr e, w2) →
     ∃ k key, keys !! k = Some key ∧ ingestersRing_Get d key = inr e ∧
       (∀ j key', (j < k)%nat → keys !! j = Some key' →
                  ∃ rs, ingestersRing_Get d key' = inl rs) ∧
       trace w2 = trace w ++ (EvRingGet <$> take (S k) keys)) ∧
  (∀ s, pushStreams d keys streams userID w = Some (inl s, w2) →
     Forall (λ key, ∃ rs, ingestersRing_Get d key = inl rs) keys ∧
     trace w2 = trace w ++ (EvRingGet <$> keys) ++
                ((λ g, EvGo (g_ingester g) (g_streamTrackers g)) <$> goroutines s)).
Proof.
  unfold pushStreams. split.
  - intros e H.
    destruct (ringLoop d keys 0 streams ∅ ∅ (trace w)) as [[[[[streams1 sbi] descs]|e'] tr']|] eqn:Hr;
      cbn [mbind option_bind] in H; simplify_eq.
    apply ringLoop_error in Hr as (k & key & Hk & Hg & Hb & ->). by exists k, key.
  - intros s H.
    destruct (ringLoop d keys 0 streams ∅ ∅ (trace w)) as [[[[[streams1 sbi] descs]|e'] tr']|] eqn:Hr;
      cbn [mbind option_bind] in H; simplify_eq.
    apply ringLoop_lookups in Hr as [Hall ->]. split; [done|]. simpl. by rewrite <- app_assoc.
Qed.

Lemma X10_witness :
  ∃ k key, [9; 10] !! k = Some key ∧
           ingestersRing_Get demo_no_ring key = inr (Opaque "empty ring") ∧
           trace (default demo_no_ring_world
                    (snd <$> pushStreams demo_no_ring [9; 10] [demo_tracker; demo_tracker]
                               "tenant" demo_no_ring_world))
           = trace demo_no_ring_world ++ (EvRingGet <$> take (S k) [9; 10]).
Proof.
  destruct (X10_pushStreams_looks_up_every_key_before_any_send demo_no_ring [9; 10]
              [demo_tracker; demo_tracker] "tenant" demo_no_ring_world
              (default demo_no_ring_world
                 (snd <$> pushStreams demo_no_ring [9; 10] [demo_tracker; demo_tracker]
                            "tenant" demo_no_ring_world)))
    as [Herr _].
  destruct (Herr (Opaque "empty ring")) as (k & key & Hk & Hg & Hb & Htr);
    [vm_compute; reflexivity|].
  exists k, key. split; [exact Hk|]. split; [exact Hg|exact Htr].
Defined.

(** ** The goroutines pushStreams starts *)

Lemma ascending_snoc l n :
  ascending l → (∀ j, j ∈ l → (j ≤ n)%nat) → ascending (l ++ [n]).
Proof.
  intros Hasc Hle p q x y Hp Hq Hpq.
  destruct (decide (q < length l)%nat) as [Hql|Hql].
  - rewrite lookup_app_l in Hp, Hq by lia. by eapply Hasc.
  - rewrite lookup_app_r in Hq by lia.
    apply list_lookup_singleton_Some in Hq as [_ <-].
    destruct (decide (p < length l)%nat) as [Hpl|Hpl].
    + rewrite lookup_app_l in Hp by lia. apply Hle. by eapply list_elem_of_lookup_2.
    + rewrite lookup_app_r in Hp by lia. by apply list_lookup_singleton_Some in Hp as [_ <-].
Qed.

Lemma fanout_appendSample d keys n cur acc ing :
  fanout d keys n cur acc.1 acc.2 →
  fanout d keys n (cur ++ [ing]) (appendSample n acc ing).1 (appendSample n acc ing).2.
Proof.
  intros [Hdom Haddr Hmem Hne Hasc Hall Hcur]. unfold appendSample. simpl.
  assert (Hmax : ∀ l j, acc.1 !! Addr ing = Some l → j ∈ l → (j ≤ n)%nat).
  { intros l j Hl Hj. destruct (Hmem _ _ _ Hl Hj) as [[? _]|[-> _]]; lia. }
  constructor.
  - intros a. destruct (decide (Addr ing = a)) as [<-|Hna].
    + rewrite !lookup_insert_eq. split; by eexists.
    + rewrite !lookup_insert_ne by done. apply Hdom.
  - intros a ing' H. destruct (decide (Addr ing = a)) as [<-|Hna].
    + rewrite lookup_insert_eq in H. by simplify_eq.
    + rewrite lookup_insert_ne in H by done. by apply Haddr.
  - intros a l j Hl Hj. destruct (decide (Addr ing = a)) as [<-|Hna].
    + rewrite lookup_insert_eq in Hl. simplify_eq.
      apply elem_of_app in Hj as [Hj|Hj].
      * destruct (acc.1 !! Addr ing) as [l|] eqn:Hl; simpl in Hj; [|by apply elem_of_nil in Hj].
        destruct (Hmem _ _ _ Hl Hj) as [?|[-> (ing' & Hin & Ha)]]; [by left|].
        right. split; [done|]. exists ing'. split; [|done]. apply elem_of_app. by left.
      * apply list_elem_of_singleton in Hj as ->. right. split; [done|].
        exists ing. split; [|done]. apply elem_of_app. right. by left.
    + rewrite lookup_insert_ne in Hl by done.
      destruct (Hmem _ _ _ Hl Hj) as [?|[-> (ing' & Hin & Ha)]]; [by left|].
      right. split; [done|]. exists ing'. split; [|done]. apply elem_of_app. by left.
  - intros a l Hl. destruct (decide (Addr ing = a)) as [<-|Hna].
    + rewrite lookup_insert_eq in Hl. simplify_eq. intros H. by apply app_nil in H as [_ ?].
    + rewrite lookup_insert_ne in Hl by done. by eapply Hne.
  - intros a l Hl. destruct (decide (Addr ing = a)) as [<-|Hna].
    + rewrite lookup_insert_eq in Hl. simplify_eq.
      destruct (acc.1 !! Addr ing) as [l|] eqn:Hl; simpl.
      * apply ascending_snoc; [by eapply Hasc|]. intros j Hj. by eapply Hmax.
      * apply (ascending_snoc [] n); [by intros ? ? ? ? ?|]. intros j Hj. by apply elem_of_nil in Hj.
    + rewrite lookup_insert_ne in Hl by done. by eapply Hasc.
  - intros j a Hj Hrep. destruct (Hall j a Hj Hrep) as (l & Hl & Hin).
    destruct (decide (Addr ing = a)) as [<-|Hna].
    + rewrite lookup_insert_eq, Hl. simpl. eexists. split; [done|]. apply elem_of_app. by left.
    + rewrite lookup_insert_ne by done. by exists l.
  - intros ing' [Hin|Hin]%elem_of_app.
    + destruct (Hcur ing' Hin) as (l & Hl & Hn).
      destruct (decide (Addr ing = Addr ing')) as [Heq|Hna].
      * rewrite Heq, lookup_insert_eq, Hl. simpl. eexists. split; [done|].
        apply elem_of_app. by left.
      * rewrite lookup_insert_ne by done. by exists l.
    + apply list_elem_of_singleton in Hin as ->. rewrite lookup_insert_eq.
      eexists. split; [done|]. apply elem_of_app. right. by left.
Qed.

Lemma fanout_foldl d keys n cur instances acc :
  fanout d keys n cur acc.1 acc.2 →
  fanout d keys n (cur ++ instances) (foldl (appendSample n) acc instances).1
         (foldl (appendSample n) acc instances).2.
Proof.
  revert cur acc. induction instances as [|ing rest IH]; intros cur acc H; simpl.
  { by rewrite app_nil_r. }
  replace (cur ++ ing :: rest) with ((cur ++ [ing]) ++ rest) by (by rewrite <- app_assoc).
  apply IH. by apply fanout_appendSample.
Qed.

Lemma fanout_next d keys n key rs sbi descs :
  keys !! n = Some key → ingestersRing_Get d key = inl rs →
  fanout d keys n (Instances rs) sbi descs → fanout d keys (S n) [] sbi descs.
Proof.
  intros Hk Hg [Hdom Haddr Hmem Hne Hasc Hall Hcur]. constructor; try done.
  - intros a l j Hl Hj. left.
    destruct (Hmem _ _ _ Hl Hj) as [[? ?]|[-> (ing & Hin & Ha)]]; [split; [lia|done]|].
    split; [lia|]. by exists key, rs, ing.
  - intros j a Hj Hrep. destruct (decide (j = n)) as [->|Hne'].
    + destruct Hrep as (key' & rs' & ing & Hk' & Hg' & Hin & <-).
      rewrite Hk in Hk'. injection Hk' as <-. rewrite Hg in Hg'. injection Hg' as <-.
      by apply Hcur.
    + apply Hall; [lia|done].
  - intros ing Hin. by apply elem_of_nil in Hin.
Qed.

Lemma ringLoop_fanout d keys0 keys i streams sbi descs tr streams' sbi' descs' tr' :
  ringLoop d keys i streams sbi descs tr = Some (inl (streams', sbi', descs'), tr') →
  (∀ k key, keys !! k = Some key → keys0 !! (i + k)%nat = Some key) →
  fanout d keys0 i [] sbi descs →
  fanout d keys0 (i + length keys) [] sbi' descs'.
Proof.
  revert i streams sbi descs tr. induction keys as [|key rest IH];
    intros i streams sbi descs tr H Hkeys Hf; simplify_eq/=.
  { by rewrite Nat.add_0_r. }
  destruct (ingestersRing_Get d key) as [rs|e0] eqn:Hget; [|done].
  destruct (streams !! i) as [t|]; simplify_eq/=.
  replace (i + S (length rest))%nat with (S i + length rest)%nat by lia.
  eapply IH; [done| |].
  - intros k key' Hk. replace (S i + k)%nat with (i + S k)%nat by lia. by apply Hkeys.
  - eapply fanout_next; [|done|].
    + specialize (Hkeys 0%nat key eq_refl). by rewrite Nat.add_0_r in Hkeys.
    + apply (fanout_foldl d keys0 i [] (Instances rs) (sbi, descs)). done.
Qed.

Lemma fanout_empty d keys : fanout d keys 0 [] ∅ ∅.
Proof.
  constructor; try done.
  - intros a. by rewrite !lookup_empty.
  - intros j a Hj. lia.
  - intros ing Hin. by apply elem_of_nil in Hin.
Qed.

(** X11: pushStreams starts one goroutine for each ingester address the ring
    named, none twice.  Each starts in its RPC with no error and at least one
    stream; the streams it is given are, in ascending order, exactly those
    the ring placed on its ingester; and every replica the ring named is
    served by one of the goroutines. *)
Theorem X11_pushStreams_one_goroutine_for_each_ingester
    (d : Distributor) (keys : list Z) (streams : list streamTracker) (userID : string)
    (w w2 : pworld d) (s : pushState) :
  pushStreams d keys streams userID w = Some (inl s, w2) →
  NoDup ((λ g, Addr (g_ingester g)) <$> goroutines s) ∧
  (∀ g, g ∈ goroutines s →
     g_pc g = Calling ∧ g_err g = None ∧ g_streamTrackers g ≠ [] ∧
     ascending (g_streamTrackers g) ∧
     ∀ i, i ∈ g_streamTrackers g ↔
          (i < length keys)%nat ∧ replicaOf d keys i (Addr (g_ingester g))) ∧
  (∀ i a, replicaOf d keys i a →
     ∃ g, g ∈ goroutines s ∧ Addr (g_ingester g) = a ∧ i ∈ g_streamTrackers g).
Proof.
  unfold pushStreams. intros H.
  destruct (ringLoop d keys 0 streams ∅ ∅ (trace w)) as [[[[[streams1 sbi] descs]|e'] tr']|] eqn:Hr;
    cbn [mbind option_bind] in H; simplify_eq. simpl.
  apply (ringLoop_fanout d keys) in Hr; [|done|apply fanout_empty]. simpl in Hr.
  destruct Hr as [Hdom Haddr Hmem Hne Hasc Hall _].
  assert (Hspawn : ∀ a l, sbi !! a = Some l → Addr (g_ingester (spawn descs (a, l))) = a).
  { intros a l Hl. unfold spawn. simpl.
    destruct (proj1 (Hdom a) (mk_is_Some _ _ Hl)) as [ing Hing]. rewrite Hing. simpl.
    by eapply Haddr. }
  split; [|split].
  - rewrite <- list_fmap_compose.
    rewrite (list_fmap_ext _ fst (map_to_list sbi) ).
    + apply NoDup_fst_map_to_list.
    + intros k [a l] Hk. apply (Hspawn a l).
      by apply elem_of_map_to_list, list_elem_of_lookup_2 with k.
  - intros g Hg. apply list_elem_of_fmap in Hg as ([a l] & -> & Hal).
    apply elem_of_map_to_list in Hal. rewrite (Hspawn a l Hal). simpl.
    split; [done|]. split; [done|]. split; [by eapply Hne|]. split; [by eapply Hasc|].
    intros i. split.
    + intros Hi. destruct (Hmem _ _ _ Hal Hi) as [[? ?]|[_ (ing & Hin & _)]]; [done|].
      by apply elem_of_nil in Hin.
    + intros [Hi Hrep]. destruct (Hall i a Hi Hrep) as (l' & Hl' & Hin). by simplify_eq.
  - intros i a Hrep.
    assert (Hi : (i < length keys)%nat).
    { destruct Hrep as (key & _ & _ & Hk & _). by eapply lookup_lt_Some. }
    destruct (Hall i a Hi Hrep) as (l & Hl & Hin).
    exists (spawn descs (a, l)). split; [|split; [by apply Hspawn|done]].
    apply list_elem_of_fmap. exists (a, l). split; [done|]. by apply elem_of_map_to_list.
Qed.

Lemma X11_witness :
  NoDup ((λ g, Addr (g_ingester g)) <$> goroutines demo_s0).
Proof.
  destruct (X11_pushStreams_one_goroutine_for_each_ingester (demo None) [9] [demo_tracker]
              "tenant" (demo_world None)
              (default (demo_world None)
                 (snd <$> pushStreams (demo None) [9] [demo_tracker] "tenant" (demo_world None)))
              demo_s0) as (Hnd & _).
  - vm_compute. reflexivity.
  - exact Hnd.
Defined.

(** ** What the counters of a tracker count *)

Lemma zip_insert_r {A B} (l : list A) (k : list B) (i : nat) (x : A) (y : B) :
  l !! i = Some x → zip l (<[i := y]> k) = <[i := (x, y)]> (zip l k).
Proof. intros H. rewrite insert_zip_with. by rewrite (list_insert_id l i x). Qed.

Lemma sumZ_zip_insert {A B} (f : A * B → Z) (l : list A) (k : list B) (i : nat)
    (x : A) (y y' : B) :
  l !! i = Some x → k !! i = Some y →
  sumZ f (zip l (<[i := y']> k)) = sumZ f (zip l k) - f (x, y) + f (x, y').
Proof.
  intros Hl Hk. rewrite (zip_insert_r _ _ _ _ _ Hl).
  apply sumZ_insert. by apply lookup_zip_Some.
Qed.

Lemma advance_counted R T0 n gs0 k rpc s s' :
  inv R T0 n s → counted gs0 s → advance k rpc s = Some s' → counted gs0 s'.
Proof.
  intros [Hlen Hn Htr _ _ _ _ _ _] [Hl Hcall Hct Herr] Hadv.
  unfold advance in Hadv.
  destruct (goroutines s !! k) as [g|] eqn:Hg; simplify_eq/=.
  destruct (lookup_lt_is_Some_2 gs0 k) as [g0 Hg0].
  { rewrite <- Hl. by eapply lookup_lt_Some. }
  assert (Hsame : ∀ p, g_pc g ≠ Calling → p ≠ Calling →
            counted gs0 (mkPushState (trackers s) (samplesPending s) (samplesFailed s)
                                     (done s) (err s)
                                     (<[k := at_pc g (g_streamTrackers g) p]> (goroutines s)))).
  { intros p Hpc Hp. constructor; simpl.
    - by rewrite length_insert.
    - intros k' g0' g' Hk0 Hk'. destruct (decide (k' = k)) as [->|Hne].
      + rewrite list_lookup_insert_eq in Hk' by (by eapply lookup_lt_Some). by simplify_eq.
      + rewrite list_lookup_insert_ne in Hk' by done. by eapply Hcall.
    - intros i t Hi. destruct (Hct i t Hi) as [-> ->]. unfold acks, nacks.
      rewrite !(sumZ_zip_insert _ _ _ _ _ _ _ Hg0 Hg). simpl. unfold visited. simpl. lia.
    - intros e He. destruct (Herr e He) as (k' & g' & Hk' & Hpc' & He').
      destruct (decide (k' = k)) as [->|Hne].
      + simplify_eq. eexists k, _. rewrite list_lookup_insert_eq by (by eapply lookup_lt_Some).
        done.
      + exists k', g'. by rewrite list_lookup_insert_ne. }
  destruct (g_pc g) eqn:Hpc.
  - (* Calling *)
    simplify_eq. pose proof (Hcall k g0 g Hg0 Hg Hpc) as Hlist. constructor; simpl.
    + by rewrite length_insert.
    + intros k' g0' g' Hk0 Hk'. destruct (decide (k' = k)) as [->|Hne].
      * rewrite list_lookup_insert_eq in Hk' by (by eapply lookup_lt_Some). by simplify_eq.
      * rewrite list_lookup_insert_ne in Hk' by done. by eapply Hcall.
    + intros i t Hi. destruct (Hct i t Hi) as [-> ->]. unfold acks, nacks.
      rewrite !(sumZ_zip_insert _ _ _ _ _ _ _ Hg0 Hg). simpl. unfold visited. simpl.
      rewrite Hlist. destruct (g_err g), rpc; lia.
    + intros e He. destruct (Herr e He) as (k' & g' & Hk' & Hpc' & He').
      destruct (decide (k' = k)) as [->|Hne]; [by simplify_eq|].
      exists k', g'. by rewrite list_lookup_insert_ne.
  - (* Looping *)
    destruct (g_streamTrackers g) as [|i rest] eqn:Htodo; [done|].
    destruct (trackers s !! i) as [t|] eqn:Hti; simplify_eq/=.
    destruct (Htr i t Hti) as (Hs0 & Hf0 & HR & HRb & Hgood).
    pose proof (pendOcc_pos i _ _ _ _ Hg Htodo) as Hpos.
    assert (Hil : (i < length (trackers s))%nat) by (by eapply lookup_lt_Some).
    assert (Hgor : ∀ p k' g0' g', gs0 !! k' = Some g0' →
              <[k := at_pc g rest p]> (goroutines s) !! k' = Some g' →
              g_pc g' = Calling → p ≠ Calling → g_streamTrackers g' = g_streamTrackers g0').
    { intros p k' g0' g' Hk0 Hk' Hc Hp. destruct (decide (k' = k)) as [->|Hne].
      - rewrite list_lookup_insert_eq in Hk' by (by eapply lookup_lt_Some). by simplify_eq.
      - rewrite list_lookup_insert_ne in Hk' by done. by eapply Hcall. }
    assert (Hprov : ∀ p e, p ≠ Calling → e ∈ err s →
              ∃ k' g', <[k := at_pc g rest p]> (goroutines s) !! k' = Some g' ∧
                       g_pc g' ≠ Calling ∧ g_err g' = Some e).
    { intros p e Hp He. destruct (Herr e He) as (k' & g' & Hk' & Hpc' & He').
      destruct (decide (k' = k)) as [->|Hne].
      - simplify_eq. eexists k, _.
        rewrite list_lookup_insert_eq by (by eapply lookup_lt_Some). done.
      - exists k', g'. by rewrite list_lookup_insert_ne. }
    destruct (g_err g) as [e|] eqn:Hge; simplify_eq.
    + rewrite (int32_id (failed t + 1)) by lia.
      constructor; simpl.
      * by rewrite length_insert.
      * intros k' g0' g' Hk0 Hk' Hc. eapply Hgor; [done|done|done|].
        by destruct (_ <=? _).
      * intros j tj Hj. unfold acks, nacks.
        rewrite !(sumZ_zip_insert _ _ _ _ _ _ _ Hg0 Hg). simpl. rewrite Hge. unfold visited.
        simpl. rewrite Htodo, occ_cons.
        destruct (decide (j = i)) as [->|Hne].
        -- rewrite list_lookup_insert_eq in Hj by done. simplify_eq. simpl.
           destruct (Hct i t Hti) as [-> ->]. unfold acks, nacks, visited. lia.
        -- rewrite list_lookup_insert_ne in Hj by done.
           destruct (Hct j tj Hj) as [-> ->]. unfold acks, nacks, visited. lia.
      * intros e' He'. apply Hprov; [|done]. by destruct (_ <=? _).
    + rewrite (int32_id (succeeded t + 1)) by lia.
      constructor; simpl.
      * by rewrite length_insert.
      * intros k' g0' g' Hk0 Hk' Hc. eapply Hgor; [done|done|done|].
        by destruct (negb _).
      * intros j tj Hj. unfold acks, nacks.
        rewrite !(sumZ_zip_insert _ _ _ _ _ _ _ Hg0 Hg). simpl. rewrite Hge. unfold visited.
        simpl. rewrite Htodo, occ_cons.
        destruct (decide (j = i)) as [->|Hne].
        -- rewrite list_lookup_insert_eq in Hj by done. simplify_eq. simpl.
           destruct (Hct i t Hti) as [-> ->]. unfold acks, nacks, visited. lia.
        -- rewrite list_lookup_insert_ne in Hj by done.
           destruct (Hct j tj Hj) as [-> ->]. unfold acks, nacks, visited. lia.
      * intros e' He'. apply Hprov; [|done]. by destruct (negb _).
  - (* IncSamplesFailed *)
    simplify_eq. destruct (Hsame (if int32 (samplesFailed s + 1) =? 1 then SendErr else Looping))
      as [H1 H2 H3 H4]; [done|by destruct (_ =? _)|]. by constructor.
  - (* SendErr *)
    destruct (g_err g) as [e|] eqn:Hge; simplify_eq/=.
    destruct (Hsame Looping) as [H1 H2 H3 H4]; [done|done|]. constructor; try done.
    simpl in *. intros e' [He'|He']%elem_of_app; [by apply H4|].
    apply list_elem_of_singleton in He' as ->. eexists k, _.
    rewrite list_lookup_insert_eq by (by eapply lookup_lt_Some). done.
  - (* DecSamplesPending *)
    simplify_eq. destruct (Hsame (if int32 (samplesPending s - 1) =? 0 then SendDone else Looping))
      as [H1 H2 H3 H4]; [done|by destruct (_ =? _)|]. by constructor.
  - (* SendDone *)
    simplify_eq. destruct (Hsame Looping) as [H1 H2 H3 H4]; [done|done|].
    by constructor.
Qed.

Lemma runSchedule_counted R T0 n gs0 sched s s' :
  inv R T0 n s → counted gs0 s → runSchedule sched s = Some s' → counted gs0 s'.
Proof.
  revert s; induction sched as [|[k rpc] rest IH]; intros s Hinv Hc Hrun; simplify_eq/=; [done|].
  destruct (advance k rpc s) as [s1|] eqn:Hadv; simplify_eq/=.
  eapply IH; [|by eapply advance_counted|done]. by eapply advance_inv.
Qed.

Lemma sumZ_zip_diag {A} (f : A * A → Z) (l : list A) :
  (∀ x, f (x, x) = 0) → sumZ f (zip l l) = 0.
Proof. intros Hf. induction l as [|x r IH]; simpl; [done|]. rewrite Hf, IH. done. Qed.

Lemma Push_counted d tenantID req w vErr s0 w' :
  Push d tenantID req w = Some (Awaiting vErr s0, w') →
  len (trackers s0) < 2 ^ 31 →
  todoTotal (goroutines s0) < 2 ^ 31 →
  counted (goroutines s0) s0.
Proof.
  intros HP Hn HT.
  destruct (Push_inv _ _ _ _ _ _ _ HP Hn HT) as [[_ _ Htr _ _ _ _ _ _] _].
  destruct (Push_awaiting _ _ _ _ _ _ _ HP)
    as (userID & keys & streams & w1 & sbi & descs & tr' & -> & Hv & Hne & Hr & Hs0).
  constructor; try done.
  - intros k g0 g H0 H1. by simplify_eq.
  - intros i t Hi. destruct (Htr i t Hi) as (? & ? & HR & _).
    unfold acks, nacks.
    rewrite !sumZ_zip_diag; [lia| |]; intros g; simpl; unfold visited; destruct (g_err g); lia.
  - intros e He. rewrite Hs0 in He. by apply elem_of_nil in He.
Qed.

Lemma acks_le_okReplicas gs0 s i :
  counted gs0 s → acks i gs0 (goroutines s) ≤ okReplicas i gs0 (goroutines s).
Proof.
  intros [_ Hcall _ _]. unfold acks, okReplicas.
  assert (H : ∀ k p, zip gs0 (goroutines s) !! k = Some p →
            match g_err p.2 with None => visited i p.1 p.2 | Some _ => 0 end ≤
            match g_pc p.2, g_err p.2 with
            | Calling, _ => 0
            | _, None => occ i (g_streamTrackers p.1)
            | _, Some _ => 0
            end).
  { intros k [g0 g] Hk. apply lookup_zip_Some in Hk as [H0 H1]. simpl.
    pose proof (occ_nonneg i (g_streamTrackers g)).
    pose proof (occ_nonneg i (g_streamTrackers g0)).
    unfold visited. destruct (g_pc g) eqn:Hpc; destruct (g_err g); try lia.
    rewrite (Hcall k g0 g H0 H1 Hpc). lia. }
  revert H. generalize (zip gs0 (goroutines s)). intros l H.
  induction l as [|p r IH]; simpl; [done|].
  pose proof (H 0%nat p eq_refl). specialize (IH (λ k, H (S k))). lia.
Qed.

Lemma nacks_le_failedReplicas gs0 s i :
  counted gs0 s → nacks i gs0 (goroutines s) ≤ failedReplicas i gs0 (goroutines s).
Proof.
  intros [_ Hcall _ _]. unfold nacks, failedReplicas.
  assert (H : ∀ k p, zip gs0 (goroutines s) !! k = Some p →
            match g_err p.2 with None => 0 | Some _ => visited i p.1 p.2 end ≤
            match g_pc p.2, g_err p.2 with
            | Calling, _ => 0
            | _, None => 0
            | _, Some _ => occ i (g_streamTrackers p.1)
            end).
  { intros k [g0 g] Hk. apply lookup_zip_Some in Hk as [H0 H1]. simpl.
    pose proof (occ_nonneg i (g_streamTrackers g)).
    pose proof (occ_nonneg i (g_streamTrackers g0)).
    unfold visited. destruct (g_pc g) eqn:Hpc; destruct (g_err g); try lia.
    rewrite (Hcall k g0 g H0 H1 Hpc). lia. }
  revert H. generalize (zip gs0 (goroutines s)). intros l H.
  induction l as [|p r IH]; simpl; [done|].
  pose proof (H 0%nat p eq_refl). specialize (IH (λ k, H (S k))). lia.
Qed.

(** X12: in every state the goroutines of a Push can reach, once a value has
    been sent on done every stream has its quorum: its succeeded counter is
    at least minSuccess, which is at least 1, and no more than the number of
    its replicas whose RPC has returned nil. *)
Theorem X12_done_means_every_stream_has_its_quorum
    (d : Distributor) (tenantID : string + error) (req : PushRequest) (w w' : pworld d)
    (vErr : option error) (s0 s : pushState) :
  Push d tenantID req w = Some (Awaiting vErr s0, w') →
  len (trackers s0) < 2 ^ 31 →
  todoTotal (goroutines s0) < 2 ^ 31 →
  reachable s0 s →
  done s ≠ [] →
  ∀ i t, trackers s !! i = Some t →
    1 ≤ int32 (minSuccess t) ∧
    int32 (minSuccess t) ≤ succeeded t ∧
    succeeded t ≤ okReplicas i (goroutines s0) (goroutines s).
Proof.
  intros HP Hn HT [sched Hrun] Hdone i t Hi.
  destruct (Push_inv _ _ _ _ _ _ _ HP Hn HT) as [Hinv0 Hn1].
  pose proof (Push_counted _ _ _ _ _ _ _ HP Hn HT) as Hc0.
  pose proof (runSchedule_inv _ _ _ _ _ _ Hinv0 Hrun) as Hinv.
  pose proof (runSchedule_counted _ _ _ _ _ _ _ Hinv0 Hc0 Hrun) as Hc.
  pose proof (acks_le_okReplicas _ _ i Hc) as Hle.
  destruct (ct_tracker _ _ Hc i t Hi) as [Hs _].
  destruct Hinv as [Hlen _ Htr [HD Hpend] Hd _ _ _ _].
  pose proof (atpc_nonneg SendDone (goroutines s)).
  pose proof (atpc_nonneg DecSamplesPending (goroutines s)).
  pose proof (hits_le (trackers s)) as Hhl.
  assert (Hp0 : samplesPending s = 0).
  { destruct (Z.eqb_spec (samplesPending s) 0); [done|]. simpl in Hd.
    unfold len in Hd. destruct (done s); [done|]. simpl in Hd. lia. }
  assert (Hhit : hit t = true).
  { apply (sumZ_indicator_all hit (trackers s)) with (k := i); [|done].
    fold (hits (trackers s)). lia. }
  unfold hit in Hhit. apply andb_true_iff in Hhit as [Hh1 Hh2].
  apply Z.leb_le in Hh1, Hh2. lia.
Qed.

Lemma X12_witness :
  ∃ t, trackers demo_s1 !! 0%nat = Some t ∧
       2 ≤ okReplicas 0 (goroutines demo_s0) (goroutines demo_s1).
Proof.
  eexists. split; [vm_compute; reflexivity|].
  destruct (X12_done_means_every_stream_has_its_quorum (demo None) (inl "tenant") demo_req
              (demo_world None)
              (default (demo_world None)
                 (snd <$> Push (demo None) (inl "tenant") demo_req (demo_world None)))
              None demo_s0 demo_s1) with (i := 0%nat)
              (t := mkStreamTracker (mkStream "app" [mkEntry 5 "a"; mkEntry 6 "b"] 0) 2 1 2 1)
    as (_ & H2 & H3).
  - vm_compute. reflexivity.
  - vm_compute. reflexivity.
  - vm_compute. reflexivity.
  - exists demo_sched. vm_compute. reflexivity.
  - vm_compute. discriminate.
  - vm_compute. reflexivity.
  - simpl in H2, H3. exact H3.
Defined.

(** X13: in every state the goroutines of a Push can reach, a value on err is
    the error the RPC of some goroutine returned, and some stream has lost
    too many replicas: its failed counter exceeds maxFailures and is no more
    than the number of its replicas whose RPC has returned an error. *)
Theorem X13_err_means_a_stream_lost_too_many_replicas
    (d : Distributor) (tenantID : string + error) (req : PushRequest) (w w' : pworld d)
    (vErr : option error) (s0 s : pushState) (e : error) :
  Push d tenantID req w = Some (Awaiting vErr s0, w') →
  len (trackers s0) < 2 ^ 31 →
  todoTotal (goroutines s0) < 2 ^ 31 →
  reachable s0 s →
  e ∈ err s →
  (∃ k g, goroutines s !! k = Some g ∧ g_pc g ≠ Calling ∧ g_err g = Some e) ∧
  ∃ i t, trackers s !! i = Some t ∧
    int32 (maxFailures t) < failed t ∧
    failed t ≤ failedReplicas i (goroutines s0) (goroutines s).
Proof.
  intros HP Hn HT [sched Hrun] He.
  destruct (Push_inv _ _ _ _ _ _ _ HP Hn HT) as [Hinv0 Hn1].
  pose proof (Push_counted _ _ _ _ _ _ _ HP Hn HT) as Hc0.
  pose proof (runSchedule_inv _ _ _ _ _ _ Hinv0 Hrun) as Hinv.
  pose proof (runSchedule_counted _ _ _ _ _ _ _ Hinv0 Hc0 Hrun) as Hc.
  split; [by apply (ct_err _ _ Hc)|].
  pose proof (inv_err _ _ _ _ Hinv) as Herr. pose proof (inv_failed _ _ _ _ Hinv) as [HF _].
  pose proof (atpc_nonneg SendErr (goroutines s)).
  pose proof (atpc_nonneg IncSamplesFailed (goroutines s)).
  assert (H1 : 1 ≤ samplesFailed s).
  { destruct (Z.leb_spec 1 (samplesFailed s)); [done|].
    unfold len in Herr. destruct (err s); [by apply elem_of_nil in He|simpl in Herr; lia]. }
  destruct (proj1 (inv_over _ _ _ _ Hinv) ltac:(lia)) as (i & t & Hi & Hov & _).
  exists i, t. split; [done|]. split; [done|].
  destruct (ct_tracker _ _ Hc i t Hi) as [_ ->]. by apply nacks_le_failedReplicas.
Qed.

Lemma X13_witness :
  ∃ i t, trackers demo_s2 !! i = Some t ∧
    int32 (maxFailures t) < failedReplicas i (goroutines demo_s0) (goroutines demo_s2).
Proof.
  destruct (X13_err_means_a_stream_lost_too_many_replicas (demo None) (inl "tenant") demo_req
              (demo_world None)
              (default (demo_world None)
                 (snd <$> Push (demo None) (inl "tenant") demo_req (demo_world None)))
              None demo_s0 demo_s2 (Opaque "timeout"))
    as (_ & i & t & Hi & Hlt & Hle).
  - vm_compute. reflexivity.
  - vm_compute. reflexivity.
  - vm_compute. reflexivity.
  - exists demo_sched_fail. vm_compute. reflexivity.
  - vm_compute. by left.
  - exists i, t. split; [exact Hi|]. lia.
Defined.

Lemma quiescent_counts gs0 s i :
  counted gs0 s → quiescent s →
  acks i gs0 (goroutines s) = okReplicas i gs0 (goroutines s) ∧
  nacks i gs0 (goroutines s) = failedReplicas i gs0 (goroutines s) ∧
  okReplicas i gs0 (goroutines s) + failedReplicas i gs0 (goroutines s) = pendOcc i gs0.
Proof.
  intros [Hl _ _ _] Hq. unfold acks, nacks, okReplicas, failedReplicas, pendOcc, quiescent in *.
  revert Hl Hq. generalize (goroutines s). intros gs. revert gs.
  induction gs0 as [|g0 r0 IH]; intros [|g r] Hl Hq; simplify_eq/=; [done|].
  apply Forall_cons in Hq as [Hg Hr]. destruct (IH r ltac:(done) Hr) as (-> & -> & <-).
  unfold returned in Hg. unfold visited.
  destruct (g_pc g); try done. destruct (g_streamTrackers g); [|done].
  change (occ i []) with 0. destruct (g_err g); repeat split; lia.
Qed.

(** X14: over a ring whose MaxErrors is at least 0 and less than the number of
    its instances, once every goroutine of a Push has returned the counters
    of each stream are the numbers of its replicas that succeeded and that
    failed, which add up to its replicas.  If no stream has more failed
    replicas than its maxFailures, done holds one value and err none; if some
    stream has, err holds one error and done nothing. *)
Theorem X14_quorum_decides_the_outcome
    (d : Distributor) (tenantID : string + error) (req : PushRequest) (w w' : pworld d)
    (vErr : option error) (s0 s : pushState) :
  Push d tenantID req w = Some (Awaiting vErr s0, w') →
  len (trackers s0) < 2 ^ 31 →
  todoTotal (goroutines s0) < 2 ^ 31 →
  (∀ key rs, ingestersRing_Get d key = inl rs → 0 ≤ MaxErrors rs < len (Instances rs)) →
  reachable s0 s →
  quiescent s →
  (∀ i t, trackers s !! i = Some t →
     succeeded t = okReplicas i (goroutines s0) (goroutines s) ∧
     failed t = failedReplicas i (goroutines s0) (goroutines s) ∧
     succeeded t + failed t = pendOcc i (goroutines s0)) ∧
  ((∀ i t, trackers s !! i = Some t →
      failedReplicas i (goroutines s0) (goroutines s) ≤ int32 (maxFailures t)) →
   done s = [()] ∧ err s = []) ∧
  ((∃ i t, trackers s !! i = Some t ∧
      int32 (maxFailures t) < failedReplicas i (goroutines s0) (goroutines s)) →
   done s = [] ∧ ∃ e, err s = [e]).
Proof.
  intros HP Hn HT Hring [sched Hrun] Hq.
  destruct (Push_inv _ _ _ _ _ _ _ HP Hn HT) as [Hinv0 Hn1].
  pose proof (Push_counted _ _ _ _ _ _ _ HP Hn HT) as Hc0.
  pose proof (runSchedule_inv _ _ _ _ _ _ Hinv0 Hrun) as Hinv.
  pose proof (runSchedule_counted _ _ _ _ _ _ _ Hinv0 Hc0 Hrun) as Hc.
  pose proof (Push_live _ _ _ _ _ _ _ HP HT Hring) as HL0.
  pose proof (runSchedule_live _ _ _ _ HL0 Hrun) as HL.
  pose proof (inv_quiescent _ _ _ _ Hinv HL Hn1 Hq) as Hone.
  assert (Hcnt : ∀ i t, trackers s !! i = Some t →
     succeeded t = okReplicas i (goroutines s0) (goroutines s) ∧
     failed t = failedReplicas i (goroutines s0) (goroutines s) ∧
     succeeded t + failed t = pendOcc i (goroutines s0)).
  { intros i t Hi. destruct (ct_tracker _ _ Hc i t Hi) as [-> ->].
    destruct (quiescent_counts _ _ i Hc Hq) as (-> & -> & <-). done. }
  split; [done|].
  pose proof (inv_err _ _ _ _ Hinv) as Herr. pose proof (inv_failed _ _ _ _ Hinv) as [HF _].
  pose proof (inv_over _ _ _ _ Hinv) as Hover.
  destruct (quiescent_sums s SendErr 0 Hq ltac:(done)) as [HsE _].
  destruct (quiescent_sums s IncSamplesFailed 0 Hq ltac:(done)) as [HsF _].
  rewrite HsE in Herr. rewrite HsF in Hover.
  assert (Hlist : ∀ (l : list unit), len l = 1 → l = [()]).
  { intros [|[] [|? ?]]; unfold len; simpl; intros; try lia. done. }
  split.
  - intros Hall.
    assert (H0 : ¬ 1 ≤ samplesFailed s).
    { intros H1. destruct (proj1 Hover ltac:(lia)) as (i & t & Hi & Hov & _).
      destruct (Hcnt i t Hi) as (_ & Hf & _). specialize (Hall i t Hi). lia. }
    destruct (Z.leb_spec 1 (samplesFailed s)); [lia|].
    assert (He : err s = []) by (unfold len in Herr; destruct (err s); [done|simpl in Herr; lia]).
    split; [|done]. apply Hlist. rewrite He in Hone. unfold len in *. simpl in Hone. lia.
  - intros (i & t & Hi & Hgt).
    destruct (Hcnt i t Hi) as (_ & Hf & _). destruct (HL i t Hi) as (_ & Hmf & _).
    assert (Hov : over t) by (unfold over; lia).
    pose proof (proj2 Hover (ex_intro _ i (ex_intro _ t (conj Hi Hov)))) as H1.
    destruct (Z.leb_spec 1 (samplesFailed s)); [|lia].
    assert (Hd : done s = []).
    { unfold len in *. destruct (done s); [done|]. simpl in Hone. lia. }
    split; [done|]. unfold len in Herr.
    destruct (err s) as [|e [|e' r]]; simpl in Herr; try lia. by exists e.
Qed.

Lemma X14_witness : done demo_s1 = [()] ∧ err demo_s1 = [].
Proof.
  destruct (X14_quorum_decides_the_outcome (demo None) (inl "tenant") demo_req
              (demo_world None)
              (default (demo_world None)
                 (snd <$> Push (demo None) (inl "tenant") demo_req (demo_world None)))
              None demo_s0 demo_s1) as (_ & Hok & _).
  - vm_compute. reflexivity.
  - vm_compute. reflexivity.
  - vm_compute. reflexivity.
  - intros key rs Hget. vm_compute in Hget. injection Hget as <-. vm_compute.
    split; [discriminate|reflexivity].
  - exists demo_sched. vm_compute. reflexivity.
  - vm_compute. repeat constructor.
  - apply Hok. intros i t Hi. destruct i as [|i]; [|vm_compute in Hi; discriminate].
    vm_compute in Hi. injection Hi as <-. vm_compute. discriminate.
Defined.

(** X15: the select that ends Push, under a context that is not cancelled, has
    one answer in any state the goroutines can reach: two receives give the
    same response and the same error.  An answer without a response carries
    the only error on err, and done is empty; an answer with a response
    carries the validation error, done holds one value and err is empty. *)
Theorem X15_Push_select_has_one_answer
    (d : Distributor) (tenantID : string + error) (req : PushRequest) (w w' : pworld d)
    (vErr : option error) (s0 s : pushState)
    (r1 r2 : option PushResponse) (e1 e2 : option error) :
  Push d tenantID req w = Some (Awaiting vErr s0, w') →
  len (trackers s0) < 2 ^ 31 →
  todoTotal (goroutines s0) < 2 ^ 31 →
  reachable s0 s →
  Push_select None vErr s r1 e1 →
  Push_select None vErr s r2 e2 →
  r1 = r2 ∧ e1 = e2 ∧
  (r1 = None → ∃ e, e1 = Some e ∧ err s = [e] ∧ done s = []) ∧
  (r1 ≠ None → e1 = vErr ∧ done s = [()] ∧ err s = []).
Proof.
  intros HP Hn HT [sched Hrun] H1 H2.
  destruct (Push_inv _ _ _ _ _ _ _ HP Hn HT) as [Hinv0 _].
  pose proof (runSchedule_inv _ _ _ _ _ _ Hinv0 Hrun) as Hinv.
  pose proof (inv_exclusive _ _ _ _ Hinv) as Hex.
  pose proof (atpc_nonneg SendDone (goroutines s)).
  pose proof (atpc_nonneg SendErr (goroutines s)).
  unfold len in Hex.
  inversion H1 as [e rest He|u rest Hd|e Hctx]; inversion H2 as [e' rest' He'|u' rest' Hd'|e' Hctx'];
    subst; try done;
    try (rewrite He in Hex); try (rewrite Hd in Hex); try (rewrite He' in Hex);
    try (rewrite Hd' in Hex); simpl in Hex; try lia.
  - rewrite He in He'. injection He' as <- <-. split; [done|]. split; [done|]. split; [|done].
    intros _. exists e. split; [done|]. destruct rest; [|simpl in Hex; lia].
    split; [done|]. destruct (done s); [done|simpl in Hex; lia].
  - split; [done|]. split; [done|]. split; [done|]. intros _. split; [done|].
    destruct u. destruct rest; [|simpl in Hex; lia]. split; [done|].
    destruct (err s); [done|simpl in Hex; lia].
Qed.

Lemma X15_witness : ∃ e, err demo_s2 = [e] ∧ done demo_s2 = [].
Proof.
  destruct (X15_Push_select_has_one_answer (demo None) (inl "tenant") demo_req
              (demo_world None)
              (default (demo_world None)
                 (snd <$> Push (demo None) (inl "tenant") demo_req (demo_world None)))
              None demo_s0 demo_s2 None None
              (Some (Opaque "timeout")) (Some (Opaque "timeout")))
    as (_ & _ & Hnone & _).
  - vm_compute. reflexivity.
  - vm_compute. reflexivity.
  - vm_compute. reflexivity.
  - exists demo_sched_fail. vm_compute. reflexivity.
  - eapply select_err. vm_compute. reflexivity.
  - eapply select_err. vm_compute. reflexivity.
  - destruct (Hnone eq_refl) as (e & _ & Herr & Hdone). exists e. split; [exact Herr|exact Hdone].
Defined.

End distributor_facts.

(** * Facts about the Watcher *)

Module wal_facts.
Import wal.

(** *** Discovery *)

Lemma readSegmentNumbers_omap files :
  readSegmentNumbers (inl files) = inl (omap Atoi files).
Proof.
  unfold readSegmentNumbers. f_equal.
  assert (H : ∀ acc, foldl (λ refs f, match Atoi f with None => refs | Some k => refs ++ [k] end)
                       acc files = acc ++ omap Atoi files).
  { induction files as [|f r IH]; intros acc; simpl; [by rewrite app_nil_r|].
    rewrite IH. destruct (Atoi f); simpl; [by rewrite <- app_assoc|done]. }
  apply (H []).
Qed.

Lemma foldl_minmax refs f0 l0 :
  let fl := foldl minmax (f0, l0) refs in
  (fl.1 = f0 ∨ fl.1 ∈ refs) ∧ (fl.2 = l0 ∨ fl.2 ∈ refs) ∧
  fl.1 ≤ f0 ∧ l0 ≤ fl.2 ∧ ∀ x, x ∈ refs → fl.1 ≤ x ≤ fl.2.
Proof.
  revert f0 l0; induction refs as [|r rest IH]; intros f0 l0; simpl.
  { split; [by left|]. split; [by left|]. split; [lia|]. split; [lia|].
    intros x Hx. by apply elem_of_nil in Hx. }
  assert (Hp : ∃ a b, minmax (f0, l0) r = (a, b) ∧ a ≤ f0 ∧ a ≤ r ∧ l0 ≤ b ∧ r ≤ b ∧
                      (a = f0 ∨ a = r) ∧ (b = l0 ∨ b = r)).
  { unfold minmax; simpl. destruct (Z.ltb_spec r f0); destruct (Z.ltb_spec l0 r);
      eexists _, _; (split; [done|lia]). }
  destruct Hp as (a & b & -> & Ha1 & Ha2 & Hb1 & Hb2 & Ha & Hb).
  destruct (IH a b) as (H1 & H2 & H3 & H4 & H5).
  split; [|split; [|split; [|split]]].
  - destruct H1 as [->|]; [|right; by right].
    destruct Ha as [->| ->]; [by left|right; by left].
  - destruct H2 as [->|]; [|right; by right].
    destruct Hb as [->| ->]; [by left|right; by left].
  - lia.
  - lia.
  - intros x [->|Hx]%elem_of_cons; [lia|by apply H5].
Qed.

Lemma firstAndLast_unfold files :
  firstAndLast (inl files) =
  if Nat.eqb (length (omap Atoi files)) 0 then (-1, -1, None)
  else let fl := foldl minmax (MaxInt32, -1) (omap Atoi files) in (fl.1, fl.2, None).
Proof. unfold firstAndLast. by rewrite readSegmentNumbers_omap. Qed.

(** C8, as the source has it: every name is put to strconv.Atoi; a name
    that does not parse is passed over without error; when no name parses the
    answer is (-1, -1, nil); when every parsed id lies between 0 and
    MaxInt32 the answer is the least and the greatest parsed id. *)
Theorem C8_discovery_min_max (files : list string) :
  readSegmentNumbers (inl files) = inl (omap Atoi files) ∧
  (omap Atoi files = [] → firstAndLast (inl files) = (-1, -1, None)) ∧
  (omap Atoi files ≠ [] →
   (∀ x, x ∈ omap Atoi files → 0 ≤ x ≤ MaxInt32) →
   ∃ first last, firstAndLast (inl files) = (first, last, None) ∧
     first ∈ omap Atoi files ∧ last ∈ omap Atoi files ∧
     ∀ x, x ∈ omap Atoi files → first ≤ x ≤ last).
Proof.
  split; [apply readSegmentNumbers_omap|]. rewrite firstAndLast_unfold. split.
  - by intros ->.
  - intros Hne Hrange. destruct (omap Atoi files) as [|r rest] eqn:Hids; [done|].
    simpl Nat.eqb. cbv iota.
    destruct (foldl_minmax (r :: rest) MaxInt32 (-1)) as (H1 & H2 & H3 & H4 & H5).
    eexists _, _. split; [done|].
    pose proof (Hrange r ltac:(by left)) as Hr. pose proof (H5 r ltac:(by left)) as Hr'.
    split; [|split; [|done]].
    + destruct H1 as [H1|H1]; [|done].
      assert (r = MaxInt32) as -> by lia. rewrite H1. by left.
    + destruct H2 as [H2|H2]; [|done]. lia.
Qed.

Lemma C8_witness :
  ∃ first last, firstAndLast (inl ["00000002"; "checkpoint.00000001"; "00000003"])
                = (first, last, None) ∧ first = 2 ∧ last = 3.
Proof.
  destruct (C8_discovery_min_max ["00000002"; "checkpoint.00000001"; "00000003"]) as (_ & _ & H).
  destruct H as (first & last & Heq & _).
  -
 vm_compute. discriminate.
  - intros x Hx. vm_compute in Hx.
    apply elem_of_cons in Hx as [->|Hx]; [vm_compute; split; discriminate|].
    apply elem_of_cons in Hx as [->|Hx]; [vm_compute; split; discriminate|].
    by apply elem_of_nil in Hx.
  - exists first, last. split; [exact Heq|]. vm_compute in Heq. by injection Heq as <- <-.
Defined.

(** C8, counterexample: a name with a minus sign parses and is kept, and is
    reported as the first segment while the last stays at its sentinel; an id
    above MaxInt32 leaves the first at its sentinel. *)
Lemma C8_counterexample :
  firstAndLast (inl ["-5"]) = (-5, -1, None) ∧
  spec_firstAndLast ["-5"] = (-1, -1) ∧
  firstAndLast (inl ["3000000000"]) = (MaxInt32, 3000000000, None) ∧
  spec_firstAndLast ["3000000000"] = (3000000000, 3000000000).
Proof. vm_compute. repeat split. Qed.

(** *** The series-reset sweep *)

Lemma foldr_maxStep (l : list Z) :
  let m := foldr maxStep (-1) l in
  (m = -1 ∨ m ∈ l) ∧ -1 ≤ m ∧ ∀ x, x ∈ l → x ≤ m.
Proof.
  induction l as [|y r IH]; simpl.
  { split; [by left|]. split; [lia|]. intros x Hx. by apply elem_of_nil in Hx. }
  destruct IH as (H1 & H2 & H3). set (m := foldr maxStep (-1) r) in *.
  assert (Hm : maxStep y m = if m <? y then y else m) by done. rewrite Hm. clear Hm.
  destruct (Z.ltb_spec m y).
  - split; [right; by left|]. split; [lia|].
    intros x [->|Hx]%elem_of_cons; [lia|]. specialize (H3 x Hx). lia.
  - split; [destruct H1; [by left|right; by right]|]. split; [lia|].
    intros x [->|Hx]%elem_of_cons; [lia|]. by apply H3.
Qed.

(** C6: a sweep that finds previously seen segment ids missing from the
    directory makes exactly one SeriesReset call, with the greatest missing
    id; a sweep that finds none missing makes no call.  Either way the
    ids just listed become the seen set.  Segment ids are not negative. *)
Theorem C6_series_reset_sweep (wc : Watcher) (files : list string) (w : world (writeTo wc)) :
  (∀ s, s ∈ w_seenSegments w → 0 ≤ s) →
  let r := readSegmentsAndEmitSeriesResets wc (inl files) w in
  let absent := w_seenSegments w ∖ list_to_set (omap Atoi files) in
  r.1 = None ∧
  w_seenSegments r.2 = list_to_set (omap Atoi files) ∧
  (absent ≠ ∅ →
   ∃ m, m ∈ absent ∧ (∀ s, s ∈ absent → s ≤ m) ∧
        w_calls r.2 = w_calls w ++ [CallSeriesReset m] ∧
        w_sink r.2 = SeriesReset (writeTo wc) m (w_sink w)) ∧
  (absent = ∅ → w_calls r.2 = w_calls w ∧ w_sink r.2 = w_sink w).
Proof.
  intros Hpos r absent. subst r.
  unfold readSegmentsAndEmitSeriesResets. rewrite readSegmentNumbers_omap.
  unfold Difference, newDiffset. fold absent.
  destruct (Nat.eqb_spec (size absent) 0) as [Hz|Hnz]; simpl.
  - apply size_empty_iff in Hz. apply leibniz_equiv in Hz.
    repeat split; try done; intros Hne; by destruct Hne.
  - assert (Hne : absent ≠ ∅). { intros He. rewrite He, size_empty in Hnz. done. }
    repeat split; try done.
    intros _. unfold set_fold. simpl.
    destruct (foldr_maxStep (elements absent)) as (H1 & H2 & H3).
    fold maxStep. set (m := foldr maxStep (-1) (elements absent)) in *.
    exists m. repeat split; try done.
    + destruct H1 as [H1|H1]; [|by apply elem_of_elements].
      exfalso. apply Hne. apply leibniz_equiv. apply elements_empty_iff.
      destruct (elements absent) as [|x l] eqn:He; [done|].
      assert (Hx : x ∈ absent) by (apply elem_of_elements; rewrite He; by left).
      assert (0 ≤ x) by (apply Hpos; by apply elem_of_difference in Hx as [Hx _]).
      specialize (H3 x ltac:(by left)). lia.
    + intros s Hs. apply H3. by apply elem_of_elements.
Qed.

Lemma C6_witness :
  w_calls (readSegmentsAndEmitSeriesResets (demo_watcher 0) (inl ["00000002"])
             (demo_wal 0 [0; 1; 2])).2 = [CallSeriesReset 1].
Proof.
  destruct (C6_series_reset_sweep (demo_watcher 0) ["00000002"] (demo_wal 0 [0; 1; 2]))
    as (_ & _ & Hsome & _).
  - intros s Hs. change (s ∈ ({[0; 1; 2]} : gset Z)) in Hs.
    rewrite !elem_of_union, !elem_of_singleton in Hs. lia.
  - vm_compute. reflexivity.
Defined.

(** *** Decode and dispatch *)

Lemma appendLoop_spec wc l firstErr w :
  ∃ results, length results = length l ∧
    w_calls (appendLoop wc l firstErr w).2 = w_calls w ++ zip_with CallAppendEntries l results ∧
    (appendLoop wc l firstErr w).1 =
      match firstErr with Some e => Some e | None => firstError results end ∧
    w_clock (appendLoop wc l firstErr w).2 = w_clock w ∧
    w_opened (appendLoop wc l firstErr w).2 = w_opened w ∧
    w_seenSegments (appendLoop wc l firstErr w).2 = w_seenSegments w.
Proof.
  revert firstErr w; induction l as [|entries rest IH]; intros firstErr w; simpl.
  { exists []. simpl. rewrite app_nil_r. by destruct firstErr. }
  destruct (IH (match (AppendEntries (writeTo wc) entries (w_sink w)).1, firstErr with
                | Some err, None => Some err
                | _, _ => firstErr
                end)
               (mkWorld (AppendEntries (writeTo wc) entries (w_sink w)).2
                        (w_calls w ++ [CallAppendEntries entries
                                         (AppendEntries (writeTo wc) entries (w_sink w)).1])
                        (w_clock w) (w_seenSegments w) (w_opened w)))
    as (results & Hlen & Hcalls & Herr & Hclock & Hopen & Hseen).
  exists ((AppendEntries (writeTo wc) entries (w_sink w)).1 :: results).
  simpl in *. rewrite Hcalls, Herr, <- app_assoc. repeat split; try done; [by rewrite Hlen|].
  by destruct (AppendEntries (writeTo wc) entries (w_sink w)).1, firstErr.
Qed.

Lemma decodeAndDispatch_frame wc b segmentNum w :
  w_clock (decodeAndDispatch wc b segmentNum w).2 = w_clock w ∧
  w_opened (decodeAndDispatch wc b segmentNum w).2 = w_opened w ∧
  w_seenSegments (decodeAndDispatch wc b segmentNum w).2 = w_seenSegments w.
Proof.
  unfold decodeAndDispatch. destruct (wal_DecodeRecord wc b) as [rec|e]; [|done].
  destruct (appendLoop_spec wc (RefEntries_ rec) None
              (mkWorld (StoreSeries (writeTo wc) (Series rec) segmentNum (w_sink w))
                       (w_calls w ++ [CallStoreSeries (Series rec) segmentNum])
                       (w_clock w) (w_seenSegments w) (w_opened w)))
    as (results & _ & _ & _ & Hclock & Hopen & Hseen).
  done.
Qed.

Lemma decodeAndDispatch_spec wc b rec segmentNum w :
  wal_DecodeRecord wc b = inl rec →
  ∃ results, length results = length (RefEntries_ rec) ∧
    w_calls (decodeAndDispatch wc b segmentNum w).2 =
      w_calls w ++ CallStoreSeries (Series rec) segmentNum
                   :: zip_with CallAppendEntries (RefEntries_ rec) results ∧
    (decodeAndDispatch wc b segmentNum w).1 = firstError results.
Proof.
  intros Hdec. unfold decodeAndDispatch. rewrite Hdec.
  destruct (appendLoop_spec wc (RefEntries_ rec) None
              (mkWorld (StoreSeries (writeTo wc) (Series rec) segmentNum (w_sink w))
                       (w_calls w ++ [CallStoreSeries (Series rec) segmentNum])
                       (w_clock w) (w_seenSegments w) (w_opened w)))
    as (results & Hlen & Hcalls & Herr & _).
  exists results. rewrite Hcalls, Herr. simpl. by rewrite <- app_assoc.
Qed.

Lemma readSegment_record wc b reader segmentNum w :
  closedAt wc (w_clock w) = false →
  readSegment wc (NextRecord b None :: reader) segmentNum w =
  let d := decodeAndDispatch wc b segmentNum (isClosed wc w).2 in
  match d.1 with
  | Some err => (Some err, reader, d.2)
  | None => readSegment wc reader segmentNum d.2
  end.
Proof.
  intros Hopen. cbn [readSegment].
  change (isClosed wc w).1 with (closedAt wc (w_clock w)). by rewrite Hopen.
Qed.

(** C3, as the source has it: every entry batch of a decoded record is handed
    to the sink, in order, whatever the sink answers, and the first error it
    answered is what decodeAndDispatch returns.  readSegment returns that
    error at once, leaving the rest of the segment unread, and watch returns
    it to run unless its cause is io.EOF. *)
Theorem C3_first_append_error_is_returned
    (wc : Watcher) (b : list Byte.byte) (rec : Record_) (segmentNum : Z)
    (reader : list next) (ticks : list tick) (w : world (writeTo wc)) :
  wal_DecodeRecord wc b = inl rec →
  closedAt wc (w_clock w) = false →
  let r := decodeAndDispatch wc b segmentNum (isClosed wc w).2 in
  ∃ results, length results = length (RefEntries_ rec) ∧
    w_calls r.2 = w_calls w ++ CallStoreSeries (Series rec) segmentNum
                               :: zip_with CallAppendEntries (RefEntries_ rec) results ∧
    r.1 = firstError results ∧
    ∀ err, r.1 = Some err →
      readSegment wc (NextRecord b None :: reader) segmentNum w = (Some err, reader, r.2) ∧
      (isEOF (Cause err) = false →
       watchLoop wc segmentNum (ReadTick :: ticks) (NextRecord b None :: reader) w
       = (WReturned (Some err), ticks, r.2)).
Proof.
  intros Hdec Hopen r.
  destruct (decodeAndDispatch_spec wc b rec segmentNum (isClosed wc w).2 Hdec)
    as (results & Hlen & Hcalls & Herr).
  exists results. fold r in Hcalls, Herr.
  split; [done|]. split; [done|]. split; [done|]. intros err Hfirst. split.
  - rewrite readSegment_record by done. fold r. cbv zeta. by rewrite Hfirst.
  - intros Hcause. cbn [watchLoop]. rewrite readSegment_record by done. fold r. cbv zeta.
    rewrite Hfirst. simpl. by rewrite Hcause.
Qed.

Lemma C3_witness :
  w_calls (decodeAndDispatch (demo_watcher 2) [Byte.x00] 0
             (isClosed (demo_watcher 2) (demo_wal 2 [])).2).2 =
  [CallStoreSeries [mkRefSeries 1 "a"; mkRefSeries 2 "b"; mkRefSeries 3 "c"] 0;
   CallAppendEntries (demo_entries 1) None;
   CallAppendEntries (demo_entries 2) (Some (Opaque "sink closed"));
   CallAppendEntries (demo_entries 3) None] ∧
  watchLoop (demo_watcher 2) 0 [ReadTick]
            [NextRecord [Byte.x00] None; NextRecord [Byte.x01] None] (demo_wal 2 [])
  = (WReturned (Some (Opaque "sink closed")), [],
     (decodeAndDispatch (demo_watcher 2) [Byte.x00] 0
        (isClosed (demo_watcher 2) (demo_wal 2 [])).2).2).
Proof.
  destruct (C3_first_append_error_is_returned (demo_watcher 2) [Byte.x00]
              (mkRecord [mkRefSeries 1 "a"; mkRefSeries 2 "b"; mkRefSeries 3 "c"]
                        [demo_entries 1; demo_entries 2; demo_entries 3])
              0 [NextRecord [Byte.x01] None] [] (demo_wal 2 []) eq_refl eq_refl)
    as (results & Hlen & Hcalls & Hfirst & Hret).
  split; [vm_compute; reflexivity|].
  destruct (Hret (Opaque "sink closed")) as [_ Hwatch]; [vm_compute; reflexivity|].
  apply Hwatch. reflexivity.
Defined.

(** C3, counterexample: the sink refuses the second of three batches of the
    first record.  All three batches are dispatched, but watch returns the
    error, so this tailing of segment 0 ends with the second record not
    read; with a sink that refuses nothing the same tick leaves watch tailing
    with both records dispatched. *)
Lemma C3_counterexample :
  (watch (demo_watcher 2) 0 [ReadTick] (demo_wal 2 [])).1 =
    (WReturned (Some (Opaque "sink closed")), []) ∧
  w_sink (watch (demo_watcher 2) 0 [ReadTick] (demo_wal 2 [])).2 = [1; 3] ∧
  (watch (demo_watcher 0) 0 [ReadTick] (demo_wal 0 [])).1 = (WTailing, []) ∧
  w_sink (watch (demo_watcher 0) 0 [ReadTick] (demo_wal 0 [])).2 = [1; 2; 3; 3].
Proof. vm_compute. repeat split. Qed.

(** *** Tailing *)

Lemma readSegment_opened wc r segmentNum w :
  w_opened (readSegment wc r segmentNum w).2 = w_opened w.
Proof.
  revert w; induction r as [|[b rerr|rerr] r IH]; intros w; [done| |done].
  cbn [readSegment]. change (isClosed wc w).1 with (closedAt wc (w_clock w)).
  destruct (closedAt wc (w_clock w)); [done|]. destruct rerr; [done|].
  destruct (decodeAndDispatch_frame wc b segmentNum (isClosed wc w).2) as (_ & Ho & _).
  destruct (decodeAndDispatch wc b segmentNum (isClosed wc w).2).1; [done|].
  by rewrite IH.
Qed.

Lemma watchLoop_opened wc segmentNum ticks reader w :
  w_opened (watchLoop wc segmentNum ticks reader w).2 = w_opened w.
Proof.
  revert reader w; induction ticks as [|[|dir|] rest IH]; intros reader w; simpl; try done.
  - by destruct (quitAt wc).
  - destruct (firstAndLast dir) as [[first last] [e|]]; [done|].
    destruct (last <=? segmentNum); [apply IH|].
    destruct (causeNotEOF _); simpl; apply readSegment_opened.
  - destruct (causeNotEOF _); simpl; [apply readSegment_opened|].
    rewrite IH. apply readSegment_opened.
Qed.






(** ** The sweep for deleted segments *)

(** X16: a second readSegmentsAndEmitSeriesResets over the same listing answers
    as the first did and changes nothing.  The first sweep of a Watcher that
    has seen no segment calls nothing of the sink; a sweep that cannot list
    the directory returns the error and changes nothing. *)
Theorem X16_sweep_again_resets_nothing (wc : Watcher) (dir : list string + error)
    (w : world (writeTo wc)) :
  let r1 := readSegmentsAndEmitSeriesResets wc dir w in
  let r2 := readSegmentsAndEmitSeriesResets wc dir r1.2 in
  r2 = (r1.1, r1.2) ∧
  (w_seenSegments w = ∅ → w_calls r1.2 = w_calls w ∧ w_sink r1.2 = w_sink w) ∧
  (∀ e, dir = inr e → r1 = (Some e, w)).
Proof.
  intros r1 r2. subst r1 r2. unfold readSegmentsAndEmitSeriesResets.
  destruct (readSegmentNumbers dir) as [segments|e] eqn:Hdir.
  - unfold Difference. split; [|split].
    + destruct (Nat.eqb (size (w_seenSegments w ∖ newDiffset segments)) 0); simpl;
        by rewrite difference_diag_L.
    + intros ->. by rewrite empty_difference_L.
    + intros e ->. done.
  - split; [done|]. split; [done|]. intros e' ->. simpl in Hdir. by simplify_eq.
Qed.

Lemma sweep_one wc files (w : world (writeTo wc)) :
  (∀ s, s ∈ w_seenSegments w → 0 ≤ s) →
  w_seenSegments (readSegmentsAndEmitSeriesResets wc (inl files) w).2
    = list_to_set (omap Atoi files) ∧
  (w_calls (readSegmentsAndEmitSeriesResets wc (inl files) w).2 = w_calls w ∨
   ∃ m, m ∈ w_seenSegments w ∧ (m ∉ omap Atoi files) ∧
        w_calls (readSegmentsAndEmitSeriesResets wc (inl files) w).2
          = w_calls w ++ [CallSeriesReset m]).
Proof.
  intros Hpos.
  unfold readSegmentsAndEmitSeriesResets. rewrite readSegmentNumbers_omap.
  unfold Difference, newDiffset.
  set (absent := w_seenSegments w ∖ list_to_set (omap Atoi files)).
  destruct (Nat.eqb_spec (size absent) 0) as [Hz|Hnz]; simpl; [split; [done|by left]|].
  split; [done|]. right. unfold set_fold. simpl.
  destruct (foldr_maxStep (elements absent)) as (H1 & H2 & H3).
  fold maxStep. set (m := foldr maxStep (-1) (elements absent)) in *.
  exists m. assert (Hm : m ∈ absent).
  { destruct H1 as [H1|H1]; [|by apply elem_of_elements].
    exfalso. destruct (elements absent) as [|x l] eqn:He.
    - apply Hnz. apply elements_empty_iff in He. apply leibniz_equiv in He.
      by rewrite He, size_empty.
    - assert (Hx : x ∈ absent) by (apply elem_of_elements; rewrite He; by left).
      assert (0 ≤ x) by (apply Hpos; by apply elem_of_difference in Hx as [Hx _]).
      specialize (H3 x ltac:(by left)). lia. }
  apply elem_of_difference in Hm as [Hm1 Hm2]. rewrite elem_of_list_to_set in Hm2. done.
Qed.

Lemma increasing_cons m l : (∀ x, x ∈ l → m < x) → increasing l → increasing (m :: l).
Proof.
  intros Hm Hl [|p] [|q] x y Hp Hq Hpq; simplify_eq/=; try lia.
  - apply Hm. by eapply list_elem_of_lookup_2.
  - apply (Hl p q); [done|done|lia].
Qed.

Lemma sweeps_advance wc sweeps lo hi (w : world (writeTo wc)) :
  0 ≤ lo →
  (∀ x, x ∈ w_seenSegments w ↔ lo ≤ x < hi) →
  advancing lo hi sweeps →
  (runSeriesResetWatcher wc ((λ s, SweepTick (inl s.2)) <$> sweeps) w).1 = false ∧
  ∃ resets,
    w_calls (runSeriesResetWatcher wc ((λ s, SweepTick (inl s.2)) <$> sweeps) w).2
      = w_calls w ++ (CallSeriesReset <$> resets) ∧
    (length resets ≤ length sweeps)%nat ∧
    (∀ m, m ∈ resets → lo ≤ m) ∧ increasing resets.
Proof.
  revert lo hi w. induction sweeps as [|[[lo' hi'] files] rest IH]; intros lo hi w Hlo Hseen Hadv.
  { split; [done|]. exists []. simpl. rewrite app_nil_r. split; [done|]. split; [done|].
    split; [|done]. intros m Hm. by apply elem_of_nil in Hm. }
  destruct Hadv as (Hlo' & Hhi' & Hfiles & Hrest).
  destruct (sweep_one wc files w) as [Hs Hcalls].
  { intros s Hs. apply Hseen in Hs. lia. }
  destruct (IH lo' hi' (readSegmentsAndEmitSeriesResets wc (inl files) w).2)
    as (Hret & resets & Hr & Hlen & Hge & Hinc); [lia| |done|].
  { intros x. rewrite Hs, elem_of_list_to_set. apply Hfiles. }
  rewrite fmap_cons. cbn [runSeriesResetWatcher snd]. split; [done|].
  destruct Hcalls as [Hc|(m & Hm1 & Hm2 & Hc)].
  - exists resets. rewrite Hr, Hc. split; [done|]. split; [simpl; lia|]. split; [|done].
    intros m Hm. specialize (Hge m Hm). lia.
  - exists (m :: resets). rewrite Hr, Hc, <- app_assoc. split; [done|].
    apply Hseen in Hm1. rewrite Hfiles in Hm2.
    split; [simpl; lia|]. split.
    + intros x [->|Hx]%elem_of_cons; [lia|]. specialize (Hge x Hx). lia.
    + apply increasing_cons; [|done]. intros x Hx. specialize (Hge x Hx). lia.
Qed.

(** X17: over a WAL directory that moves forward, each listing holding the
    segments between two bounds that never move back, runSeriesResetWatcher
    calls nothing but SeriesReset, at most once for each sweep, and the
    segment numbers it passes are strictly increasing. *)
Theorem X17_series_resets_only_move_forward
    (wc : Watcher) (sweeps : list (Z * Z * list string)) (lo hi : Z)
    (w : world (writeTo wc)) :
  0 ≤ lo →
  (∀ x, x ∈ w_seenSegments w ↔ lo ≤ x < hi) →
  advancing lo hi sweeps →
  ∃ resets,
    w_calls (runSeriesResetWatcher wc ((λ s, SweepTick (inl s.2)) <$> sweeps) w).2
      = w_calls w ++ (CallSeriesReset <$> resets) ∧
    (length resets ≤ length sweeps)%nat ∧
    (∀ m, m ∈ resets → lo ≤ m) ∧ increasing resets.
Proof.
  intros Hlo Hseen Hadv. by destruct (sweeps_advance wc sweeps lo hi w Hlo Hseen Hadv) as [_ ?].
Qed.

Lemma X17_witness :
  ∃ resets,
    w_calls (runSeriesResetWatcher demo_watcher_all
               ((λ s, SweepTick (inl s.2)) <$> demo_sweeps)
               (newWorld demo_sink_all [])).2
      = CallSeriesReset <$> resets ∧ increasing resets.
Proof.
  destruct (X17_series_resets_only_move_forward demo_watcher_all demo_sweeps 0 0
              (newWorld demo_sink_all [])) as (resets & Hcalls & _ & _ & Hinc).
  - lia.
  - intros x. simpl. rewrite elem_of_empty. lia.
  - simpl. split; [lia|]. split; [lia|]. split; [|split; [lia|]; split; [lia|]; split; [|done]].
    + intros x. change (x ∈ [0; 1; 2] ↔ 0 ≤ x < 3).
      rewrite !elem_of_cons, elem_of_nil. lia.
    + intros x. change (x ∈ [2; 3] ↔ 2 ≤ x < 4).
      rewrite !elem_of_cons, elem_of_nil. lia.
  - exists resets. split; [exact Hcalls|exact Hinc].
Defined.

Lemma sweep_calls wc dir (w : world (writeTo wc)) :
  ∃ resets, w_calls (readSegmentsAndEmitSeriesResets wc dir w).2
            = w_calls w ++ (CallSeriesReset <$> resets) ∧ (length resets ≤ 1)%nat.
Proof.
  unfold readSegmentsAndEmitSeriesResets. destruct (readSegmentNumbers dir) as [segments|e].
  - destruct (Nat.eqb _ 0); simpl.
    + exists []. simpl. rewrite app_nil_r. split; [done|lia].
    + eexists [_]. simpl. split; [reflexivity|lia].
  - exists []. simpl. rewrite app_nil_r. split; [done|lia].
Qed.

(** X18: runSeriesResetWatcher calls nothing of the sink but SeriesReset, at
    most once for each tick; it returns only if quit is closed; and a sweep
    that cannot list the directory is passed over, the loop going on as if
    the tick had not come. *)
Theorem X18_runSeriesResetWatcher_only_resets (wc : Watcher) (ticks : list resetTick)
    (w : world (writeTo wc)) :
  (∃ resets, w_calls (runSeriesResetWatcher wc ticks w).2
             = w_calls w ++ (CallSeriesReset <$> resets) ∧
             (length resets ≤ length ticks)%nat) ∧
  ((runSeriesResetWatcher wc ticks w).1 = true → ∃ q, quitAt wc = Some q) ∧
  (∀ e rest, runSeriesResetWatcher wc (SweepTick (inr e) :: rest) w
             = runSeriesResetWatcher wc rest w).
Proof.
  split; [|split].
  - revert w. induction ticks as [|[dir|] rest IH]; intros w; simpl.
    + exists []. by rewrite app_nil_r.
    + destruct (sweep_calls wc dir w) as (r1 & Hc1 & Hl1).
      destruct (IH (readSegmentsAndEmitSeriesResets wc dir w).2) as (r2 & -> & Hl2).
      exists (r1 ++ r2). rewrite Hc1, fmap_app, <- app_assoc. split; [done|].
      rewrite length_app. lia.
    + destruct (quitAt wc); exists []; simpl; rewrite app_nil_r; (split; [done|lia]).
  - revert w. induction ticks as [|[dir|] rest IH]; intros w; simpl; [done|apply IH|].
    destruct (quitAt wc) as [q|]; [by exists q|done].
  - done.
Qed.

(** ** The records of a segment *)

Lemma appendLoop_accepting wc l w :
  (∀ e s, (AppendEntries (writeTo wc) e s).1 = None) →
  (appendLoop wc l None w).1 = None ∧
  w_calls (appendLoop wc l None w).2 = w_calls w ++ ((λ e, CallAppendEntries e None) <$> l).
Proof.
  intros Hsink. revert w. induction l as [|e r IH]; intros w; simpl.
  { by rewrite app_nil_r. }
  rewrite Hsink. destruct (IH (mkWorld (AppendEntries (writeTo wc) e (w_sink w)).2
                                 (w_calls w ++ [CallAppendEntries e None]) (w_clock w)
                                 (w_seenSegments w) (w_opened w))) as [-> ->].
  simpl. by rewrite <- app_assoc.
Qed.

Lemma readSegment_in_order wc bs recs rest n w :
  quitAt wc = None →
  (∀ e s, (AppendEntries (writeTo wc) e s).1 = None) →
  Forall2 (λ b rec, wal_DecodeRecord wc b = inl rec) bs recs →
  ∃ w', readSegment wc (((λ b, NextRecord b None) <$> bs) ++ rest) n w
        = readSegment wc rest n w' ∧
        w_calls w' = w_calls w ++ concat (dispatched n <$> recs).
Proof.
  intros Hq Hsink Hdec. revert w. induction Hdec as [|b rec bs recs Hb _ IH]; intros w.
  { exists w. simpl. by rewrite app_nil_r. }
  assert (Hopen : ∀ w0 : world (writeTo wc), closedAt wc (w_clock w0) = false).
  { intros w0. unfold closedAt. by rewrite Hq. }
  rewrite fmap_cons, <- app_comm_cons, readSegment_record by apply Hopen. cbv zeta.
  unfold decodeAndDispatch. rewrite Hb.
  match goal with |- context [appendLoop wc ?l None ?w0] =>
    destruct (appendLoop_accepting wc l w0 Hsink) as [Hnone Hcalls] end.
  rewrite Hnone.
  match goal with |- context [readSegment wc _ n ?w1] =>
    destruct (IH w1) as (w' & Heq & Hw') end.
  exists w'. split; [done|]. rewrite Hw', Hcalls. simpl. unfold dispatched.
  by rewrite <- !app_assoc.
Qed.

(** X19: with quit open and a sink that refuses nothing, readSegment over a
    reader whose records all decode dispatches every record in order, for
    each one StoreSeries with the segment number and then AppendEntries for
    each of its entry batches, and ends with the wrapped EOF, the reader
    exhausted; the watch loop then goes on to its next tick. *)
Theorem X19_readSegment_dispatches_every_record_in_order
    (wc : Watcher) (bs : list (list Byte.byte)) (recs : list Record_) (n : Z)
    (w : world (writeTo wc)) :
  quitAt wc = None →
  (∀ e s, (AppendEntries (writeTo wc) e s).1 = None) →
  Forall2 (λ b rec, wal_DecodeRecord wc b = inl rec) bs recs →
  let reader := (λ b, NextRecord b None) <$> bs in
  let rs := readSegment wc reader n w in
  rs.1 = (Some (Wrapf EOF "segment"), []) ∧
  w_calls rs.2 = w_calls w ++ concat (dispatched n <$> recs) ∧
  ∀ ticks, watchLoop wc n (ReadTick :: ticks) reader w = watchLoop wc n ticks [] rs.2.
Proof.
  intros Hq Hsink Hdec reader rs.
  destruct (readSegment_in_order wc bs recs [] n w Hq Hsink Hdec) as (w' & Heq & Hcalls).
  rewrite app_nil_r in Heq. fold reader in Heq. fold rs in Heq. simpl in Heq.
  assert (Hrs : rs = (Some (Wrapf EOF "segment"), [], w')) by done.
  rewrite Hrs. simpl. split; [done|]. split; [done|].
  intros ticks. fold rs. by rewrite Hrs.
Qed.

Lemma X19_witness :
  w_calls (readSegment demo_watcher_all
             [NextRecord [Byte.x00] None; NextRecord [Byte.x01] None] 0
             (newWorld demo_sink_all [])).2
  = dispatched 0 (mkRecord [mkRefSeries 1 "a"; mkRefSeries 2 "b"; mkRefSeries 3 "c"]
                           [demo_entries 1; demo_entries 2; demo_entries 3])
    ++ dispatched 0 (mkRecord [] [demo_entries 3]).
Proof.
  destruct (X19_readSegment_dispatches_every_record_in_order demo_watcher_all
              [[Byte.x00]; [Byte.x01]]
              [mkRecord [mkRefSeries 1 "a"; mkRefSeries 2 "b"; mkRefSeries 3 "c"]
                        [demo_entries 1; demo_entries 2; demo_entries 3];
               mkRecord [] [demo_entries 3]]
              0 (newWorld demo_sink_all [])) as (_ & Hcalls & _).
  - reflexivity.
  - intros e s. reflexivity.
  - repeat constructor.
  - exact Hcalls.
Defined.

(** ** After quit is closed *)

Lemma closedAt_mono wc t t' : closedAt wc t = true → (t ≤ t')%nat → closedAt wc t' = true.
Proof.
  unfold closedAt. destruct (quitAt wc) as [q|]; [|done].
  intros H%Nat.leb_le Hle. apply Nat.leb_le. lia.
Qed.

Lemma readSegment_closed wc r n w :
  closedAt wc (w_clock w) = true →
  let rs := readSegment wc r n w in
  w_calls rs.2 = w_calls w ∧ w_sink rs.2 = w_sink w ∧
  (w_clock w ≤ w_clock rs.2)%nat ∧ (length r ≤ S (length rs.1.2))%nat.
Proof.
  intros Hc. destruct r as [|[b rerr|rerr] r']; simpl; try (repeat split; done || lia).
  rewrite Hc. simpl. repeat split; done || lia.
Qed.

Lemma watchLoop_closed wc n ticks reader w :
  closedAt wc (w_clock w) = true →
  let r := watchLoop wc n ticks reader w in
  w_calls r.2 = w_calls w ∧ w_sink r.2 = w_sink w.
Proof.
  revert reader w. induction ticks as [|[|dir|] rest IH]; intros reader w Hc; simpl; [done| | |].
  - by destruct (quitAt wc).
  - destruct (firstAndLast dir) as [[first last] [e|]]; [done|].
    destruct (last <=? n); [by apply IH|].
    destruct (readSegment_closed wc reader n w Hc) as (H1 & H2 & _).
    by destruct (causeNotEOF _).
  - destruct (readSegment_closed wc reader n w Hc) as (H1 & H2 & H3 & _).
    destruct (causeNotEOF _); [done|].
    destruct (IH (readSegment wc reader n w).1.2 (readSegment wc reader n w).2) as [H4 H5].
    { by eapply closedAt_mono. }
    simpl in *. by rewrite H4, H5.
Qed.

(** X20: once quit is closed nothing reaches the sink: readSegment takes at
    most one record off the reader and dispatches nothing, the watch loop
    makes no call, and the loop of run returns nil without opening a
    segment. *)
Theorem X20_nothing_reaches_the_sink_after_quit (wc : Watcher) (w : world (writeTo wc)) :
  closedAt wc (w_clock w) = true →
  (∀ r n, let rs := readSegment wc r n w in
     w_calls rs.2 = w_calls w ∧ w_sink rs.2 = w_sink w ∧ (length r ≤ S (length rs.1.2))%nat) ∧
  (∀ n ticks reader, let r := watchLoop wc n ticks reader w in
     w_calls r.2 = w_calls w ∧ w_sink r.2 = w_sink w) ∧
  (∀ fuel cur ticks,
     runLoop wc (S fuel) cur ticks w = (RReturned None, ticks, (isClosed wc w).2)).
Proof.
  intros Hc. split; [|split].
  - intros r n. destruct (readSegment_closed wc r n w Hc) as (? & ? & _ & ?). done.
  - intros n ticks reader. by apply watchLoop_closed.
  - intros fuel cur ticks. simpl. by rewrite Hc.
Qed.

Lemma X20_witness :
  w_calls (watchLoop demo_watcher_stopped 0 [ReadTick; ReadTick]
             [NextRecord [Byte.x00] None; NextRecord [Byte.x01] None]
             (newWorld demo_sink_all [])).2 = [].
Proof.
  destruct (X20_nothing_reaches_the_sink_after_quit demo_watcher_stopped
              (newWorld demo_sink_all [])) as (_ & Hwatch & _).
  - reflexivity.
  - destruct (Hwatch 0 [ReadTick; ReadTick]
                [NextRecord [Byte.x00] None; NextRecord [Byte.x01] None]) as [Hcalls _].
    exact Hcalls.
Defined.

(** ** The calls of a tailing *)

Lemma tailCall_weaken lo hi lo' hi' c :
  tailCall lo hi c → lo' ≤ lo → hi ≤ hi' → tailCall lo' hi' c.
Proof. destruct c; simpl; try done. lia. Qed.

Lemma appendLoop_calls wc l firstErr w lo hi :
  ∃ new, w_calls (appendLoop wc l firstErr w).2 = w_calls w ++ new ∧
         Forall (tailCall lo hi) new.
Proof.
  destruct (appendLoop_spec wc l firstErr w) as (results & _ & Hcalls & _).
  eexists. split; [done|]. clear. revert results.
  induction l as [|e r IH]; intros [|x results]; simpl; try constructor; [done|apply IH].
Qed.

Lemma decodeAndDispatch_calls wc b n w :
  ∃ new, w_calls (decodeAndDispatch wc b n w).2 = w_calls w ++ new ∧
         Forall (tailCall n (n + 1)) new.
Proof.
  unfold decodeAndDispatch. destruct (wal_DecodeRecord wc b) as [rec|e].
  - match goal with |- context [appendLoop wc ?l None ?w0] =>
      destruct (appendLoop_calls wc l None w0 n (n + 1)) as (new & -> & Hnew) end.
    simpl. eexists. rewrite <- app_assoc. split; [done|]. simpl.
    constructor; [simpl; lia|done].
  - exists []. by rewrite app_nil_r.
Qed.

Lemma readSegment_calls wc r n w :
  ∃ new, w_calls (readSegment wc r n w).2 = w_calls w ++ new ∧
         Forall (tailCall n (n + 1)) new.
Proof.
  revert w. induction r as [|[b rerr|rerr] r IH]; intros w;
    try (exists []; by rewrite app_nil_r).
  cbn [readSegment]. change (isClosed wc w).1 with (closedAt wc (w_clock w)).
  destruct (closedAt wc (w_clock w)); [exists []; by rewrite app_nil_r|].
  destruct rerr; [exists []; by rewrite app_nil_r|].
  destruct (decodeAndDispatch_calls wc b n (isClosed wc w).2) as (new & Hcalls & Hnew).
  destruct (decodeAndDispatch wc b n (isClosed wc w).2).1; [by exists new|].
  destruct (IH (decodeAndDispatch wc b n (isClosed wc w).2).2) as (new2 & -> & Hnew2).
  exists (new ++ new2). rewrite Hcalls. simpl. rewrite <- app_assoc. split; [done|].
  by apply Forall_app.
Qed.

Lemma watchLoop_calls wc n ticks reader w :
  ∃ new, w_calls (watchLoop wc n ticks reader w).2 = w_calls w ++ new ∧
         Forall (tailCall n (n + 1)) new.
Proof.
  revert reader w. induction ticks as [|[|dir|] rest IH]; intros reader w; simpl.
  - exists []. by rewrite app_nil_r.
  - destruct (quitAt wc); exists []; by rewrite app_nil_r.
  - destruct (firstAndLast dir) as [[first last] [e|]]; [exists []; by rewrite app_nil_r|].
    destruct (last <=? n); [apply IH|].
    destruct (causeNotEOF _); simpl; apply readSegment_calls.
  - destruct (causeNotEOF _); simpl; [apply readSegment_calls|].
    destruct (readSegment_calls wc reader n w) as (new & Hcalls & Hnew).
    destruct (IH (readSegment wc reader n w).1.2 (readSegment wc reader n w).2)
      as (new2 & -> & Hnew2).
    exists (new ++ new2). rewrite Hcalls, <- app_assoc. split; [done|]. by apply Forall_app.
Qed.

Lemma runLoop_calls wc fuel cur ticks w :
  ∃ (k : nat) new,
    w_opened (runLoop wc fuel cur ticks w).2 = w_opened w ++ seqZ cur (Z.of_nat k) ∧
    w_calls (runLoop wc fuel cur ticks w).2 = w_calls w ++ new ∧
    Forall (tailCall cur (cur + Z.of_nat k)) new.
Proof.
  revert cur ticks w; induction fuel as [|fuel IH]; intros cur ticks w; simpl.
  { exists 0%nat, []. by rewrite !app_nil_r. }
  destruct (closedAt wc (w_clock w)); [exists 0%nat, []; by rewrite !app_nil_r|].
  unfold watch. destruct (wlog_OpenReadSegment wc cur) as [reader|e];
    [|exists 0%nat, []; by rewrite !app_nil_r].
  match goal with |- context [watchLoop wc cur ticks reader ?w0] =>
    pose proof (watchLoop_opened wc cur ticks reader w0) as Ho;
    destruct (watchLoop_calls wc cur ticks reader w0) as (new & Hcalls & Hnew);
    destruct (watchLoop wc cur ticks reader w0) as [[[[e|]|] ticks1] w1] end; simpl in *.
  - exists 1%nat, new. by rewrite Ho, Hcalls.
  - destruct (cur =? MaxSegment wc); [simpl; exists 1%nat, new; by rewrite Ho, Hcalls|].
    destruct (IH (cur + 1) ticks1 w1) as (k & new2 & Hk & Hc2 & Hn2). exists (S k), (new ++ new2).
    rewrite Hk, Hc2, Ho, Hcalls, <- !app_assoc. split; [|split; [done|]].
    + f_equal. rewrite (seqZ_cons cur (Z.of_nat (S k))) by lia. simpl.
      replace (Z.succ cur) with (cur + 1) by lia.
      by replace (Z.pred (Z.of_nat (S k))) with (Z.of_nat k) by lia.
    + apply Forall_app. split; (eapply Forall_impl; [eassumption|]);
        intros c Hc; eapply tailCall_weaken; try exact Hc; lia.
  - exists 1%nat, new. by rewrite Ho, Hcalls.
Qed.

(** X21: run returns the wrapped error, and does nothing else, when the
    directory cannot be listed.  Otherwise it starts at a segment no lower
    than any in the listing and opens consecutive segments from there; every
    StoreSeries it makes carries the number of a segment it opened, and it
    never calls SeriesReset. *)
Theorem X21_run_tails_from_the_last_segment
    (wc : Watcher) (fuel : nat) (dir : list string + error) (ticks : list tick)
    (w : world (writeTo wc)) :
  let r := run wc fuel dir ticks w in
  (∀ e, dir = inr e → r = (RReturned (Some (Errorf "wal.Segments" e)), ticks, w)) ∧
  (∀ files, dir = inl files →
     ∃ last (k : nat) new,
       (∀ x, x ∈ omap Atoi files → x ≤ last) ∧
       w_opened r.2 = w_opened w ++ seqZ last (Z.of_nat k) ∧
       w_calls r.2 = w_calls w ++ new ∧
       Forall (tailCall last (last + Z.of_nat k)) new).
Proof.
  intros r. subst r. unfold run. split.
  - intros e ->. done.
  - intros files ->. rewrite firstAndLast_unfold.
    destruct (Nat.eqb_spec (length (omap Atoi files)) 0) as [Hz|Hnz].
    + destruct (runLoop_calls wc fuel (-1) ticks w) as (k & new & Ho & Hc & Hn).
      exists (-1), k, new. split; [|done]. intros x Hx.
      destruct (omap Atoi files); [by apply elem_of_nil in Hx|done].
    + destruct (foldl_minmax (omap Atoi files) MaxInt32 (-1)) as (_ & _ & _ & _ & H5).
      cbv zeta.
      destruct (runLoop_calls wc fuel (foldl minmax (MaxInt32, -1) (omap Atoi files)).2 ticks w)
        as (k & new & Ho & Hc & Hn).
      eexists _, k, new. split; [|done]. intros x Hx. by apply H5.
Qed.

(** ** mainLoop *)

Lemma tailCall_notReset lo hi c : tailCall lo hi c → notReset c.
Proof. by destruct c. Qed.

Lemma mainLoop_calls wc turns w :
  ∃ new, w_calls (mainLoop wc turns w).2 = w_calls w ++ new ∧ Forall notReset new.
Proof.
  revert w. induction turns as [|t rest IH]; intros w; simpl.
  { exists []. by rewrite app_nil_r. }
  destruct (closedAt wc (w_clock w)); [exists []; by rewrite app_nil_r|].
  assert (Hrun : ∃ new, w_calls (run wc (S (length (t_ticks t))) (t_dir t) (t_ticks t)
                                     (isClosed wc w).2).2 = w_calls w ++ new ∧
                        Forall notReset new).
  { unfold run. destruct (firstAndLast (t_dir t)) as [[first last] [e|]].
    - exists []. by rewrite app_nil_r.
    - destruct (runLoop_calls wc (S (length (t_ticks t))) last (t_ticks t) (isClosed wc w).2)
        as (k & new & _ & Hc & Hn).
      exists new. split; [done|]. eapply Forall_impl; [exact Hn|].
      intros c. apply tailCall_notReset. }
  destruct Hrun as (new & Hc & Hn).
  destruct (run wc _ (t_dir t) (t_ticks t) _) as [[[e|n|] ticks1] w1]; simpl in *;
    try by exists new.
  - destruct (t_wake t).
    + destruct (quitAt wc); by exists new.
    + destruct (IH w1) as (new2 & -> & Hn2). exists (new ++ new2).
      rewrite Hc, <- app_assoc. split; [done|]. by apply Forall_app.
  - destruct (t_wake t).
    + destruct (quitAt wc); by exists new.
    + destruct (IH w1) as (new2 & -> & Hn2). exists (new ++ new2).
      rewrite Hc, <- app_assoc. split; [done|]. by apply Forall_app.
Qed.

(** X22: mainLoop returns only after quit has been closed; when quit is closed
    as it tests its loop condition it returns without calling run; and it
    never calls SeriesReset. *)
Theorem X22_mainLoop_returns_only_after_quit (wc : Watcher) (turns : list turn)
    (w : world (writeTo wc)) :
  ((mainLoop wc turns w).1 = MReturned →
   ∃ q, quitAt wc = Some q ∧ (q < w_clock (mainLoop wc turns w).2)%nat) ∧
  (closedAt wc (w_clock w) = true → turns ≠ [] →
   mainLoop wc turns w = (MReturned, (isClosed wc w).2)) ∧
  ∃ new, w_calls (mainLoop wc turns w).2 = w_calls w ++ new ∧ Forall notReset new.
Proof.
  split; [|split; [|apply mainLoop_calls]].
  - revert w. induction turns as [|t rest IH]; intros w; simpl; [done|].
    destruct (closedAt wc (w_clock w)) eqn:Hc.
    { intros _. unfold closedAt in Hc. destruct (quitAt wc) as [q|]; [|done].
      exists q. split; [done|]. simpl. apply Nat.leb_le in Hc. lia. }
    destruct (run wc _ (t_dir t) (t_ticks t) _) as [[[e|n|] ticks1] w1]; simpl; try done.
    + destruct (t_wake t); [|apply IH].
      destruct (quitAt wc) as [q|]; [|done]. intros _. exists q. split; [done|]. simpl. lia.
    + destruct (t_wake t); [|apply IH].
      destruct (quitAt wc) as [q|]; [|done]. intros _. exists q. split; [done|]. simpl. lia.
  - intros Hc Hne. destruct turns as [|t rest]; [done|]. simpl. by rewrite Hc.
Qed.

End wal_facts.

(** * Facts about the client Manager *)

Module client_facts.
Import client.

Section manager_facts.
Variables Config Client : Type.
Variable cfg_Name : Config → string.
Variable New : Config → Client + error.
Variable Name : Client → string.

(** ** NewManager and Stop *)

Lemma managerLoop_ok cfgs check cs ws st cs' ws' st' :
  managerLoop Config Client cfg_Name New Name cfgs check cs ws st = (inl (cs', ws'), st') →
  (∀ x, x ∈ check ↔ x ∈ Name <$> cs) → NoDup (Name <$> cs) →
  ∃ new, Forall2 (λ cfg c, New cfg = inl c) cfgs new ∧
         cs' = cs ++ new ∧ ws' = ws ++ (Name <$> new) ∧ st' = st ++ (Name <$> new) ∧
         NoDup (Name <$> cs').
Proof.
  revert check cs ws st. induction cfgs as [|cfg rest IH]; intros check cs ws st H Hcheck Hnd;
    simpl in H.
  { simplify_eq. exists []. rewrite !app_nil_r. repeat split; try done. }
  destruct (New cfg) as [c|e] eqn:Hnew; [|done].
  destruct (decide (Name c ∈ check)) as [Hin|Hnin]; [done|].
  apply IH in H as (new & Hf & -> & -> & -> & Hnd').
  - exists (c :: new). rewrite <- !app_assoc in Hnd' |- *. simpl.
    split; [by constructor|]. repeat split; rewrite <- ?app_assoc; done.
  - intros x. rewrite elem_of_union, elem_of_singleton, fmap_app, elem_of_app, Hcheck.
    simpl. rewrite list_elem_of_singleton. tauto.
  - rewrite fmap_app. apply NoDup_app. split; [done|]. split.
    + intros x Hx [->|Hx']%elem_of_cons; [by apply Hnin, Hcheck|by apply elem_of_nil in Hx'].
    + apply NoDup_singleton.
Qed.

Lemma managerLoop_err cfgs check cs ws st e st' :
  managerLoop Config Client cfg_Name New Name cfgs check cs ws st = (inr e, st') →
  (∀ x, x ∈ check ↔ x ∈ Name <$> cs) →
  ∃ new cfg, Forall2 (λ cfg c, New cfg = inl c) (take (length new) cfgs) new ∧
    cfgs !! length new = Some cfg ∧ st' = st ++ (Name <$> new) ∧
    ((∃ err, New cfg = inr err ∧ e = ClientError err) ∨
     (∃ c, New cfg = inl c ∧ Name c ∈ Name <$> (cs ++ new) ∧ e = DuplicateClient (cfg_Name cfg))).
Proof.
  revert check cs ws st. induction cfgs as [|cfg rest IH]; intros check cs ws st H Hcheck;
    simpl in H; [done|].
  destruct (New cfg) as [c|err] eqn:Hnew.
  - destruct (decide (Name c ∈ check)) as [Hin|Hnin].
    + simplify_eq. exists [], cfg. simpl. rewrite !app_nil_r. repeat split; try done.
      right. exists c. repeat split; try done. by apply Hcheck.
    + apply IH in H as (new & cfg' & Hf & Hk & -> & Hcase).
      * exists (c :: new), cfg'. simpl. rewrite <- !app_assoc. repeat split; try done.
        -- by constructor.
        -- destruct Hcase as [?|(c' & ? & Hin' & ?)]; [by left|]. right. exists c'.
           repeat split; try done. by rewrite <- app_assoc in Hin'.
      * intros x. rewrite elem_of_union, elem_of_singleton, fmap_app, elem_of_app, Hcheck.
        simpl. rewrite list_elem_of_singleton. tauto.
  - simplify_eq. exists [], cfg. simpl. rewrite !app_nil_r. repeat split; try done.
    left. by exists err.
Qed.

(** X23: when NewManager succeeds there was at least one configuration, every
    configuration made a client, the client names are distinct and one
    Watcher was started for each client, in order; none of them is stored in
    walWatchers, so Stop closes the entries channel and stops the clients
    but no Watcher.  When it fails, either there was no configuration, or the
    configurations before the failing one made clients whose Watchers were
    started, and the failing one made no client or one whose name was taken. *)
Theorem X23_NewManager_starts_watchers_that_Stop_never_stops (clientCfgs : list Config) :
  (∀ m started,
     NewManager Config Client cfg_Name New Name clientCfgs = (inl m, started) →
     clientCfgs ≠ [] ∧
     Forall2 (λ cfg c, New cfg = inl c) clientCfgs (clients m) ∧
     NoDup (Name <$> clients m) ∧
     started = Name <$> clients m ∧
     Stop Client m = CloseEntries :: (ClientStop <$> clients m)) ∧
  (∀ e started,
     NewManager Config Client cfg_Name New Name clientCfgs = (inr e, started) →
     (clientCfgs = [] ∧ e = NoClientConfig ∧ started = []) ∨
     ∃ new cfg,
       Forall2 (λ cfg c, New cfg = inl c) (take (length new) clientCfgs) new ∧
       clientCfgs !! length new = Some cfg ∧
       started = Name <$> new ∧
       ((∃ err, New cfg = inr err ∧ e = ClientError err) ∨
        (∃ c, New cfg = inl c ∧ Name c ∈ Name <$> new ∧ e = DuplicateClient (cfg_Name cfg)))).
Proof.
  unfold NewManager. split.
  - intros m started H. destruct clientCfgs as [|cfg rest] eqn:Hcfgs; [done|].
    rewrite <- Hcfgs in *. replace (Nat.eqb (length clientCfgs) 0) with false in H
      by (by rewrite Hcfgs).
    destruct (managerLoop _ _ _ _ _ clientCfgs ∅ [] [] []) as [[[cs ws]|e] st] eqn:Hl;
      simplify_eq.
    apply managerLoop_ok in Hl as (new & Hf & -> & -> & -> & Hnd);
      [|intros x; by rewrite elem_of_empty, elem_of_nil|constructor].
    simpl. repeat split; try done.
  - intros e started H. destruct clientCfgs as [|cfg rest] eqn:Hcfgs.
    { simpl in H. simplify_eq. by left. }
    rewrite <- Hcfgs in *. replace (Nat.eqb (length clientCfgs) 0) with false in H
      by (by rewrite Hcfgs).
    destruct (managerLoop _ _ _ _ _ clientCfgs ∅ [] [] []) as [[[cs ws]|e'] st] eqn:Hl;
      simplify_eq.
    right. apply managerLoop_err in Hl as (new & cfg' & Hf & Hk & -> & Hcase);
      [|intros x; by rewrite elem_of_empty, elem_of_nil].
    by exists new, cfg'.
Qed.

(** ** Name *)

Lemma string_app_cons (x : Ascii.ascii) (a b : string) :
  String x a +:+ b = String x (a +:+ b).
Proof. reflexivity. Qed.

Lemma string_app_assoc (a b c : string) : (a +:+ b) +:+ c = a +:+ (b +:+ c).
Proof. induction a as [|x a IH]; [done|]. by rewrite !string_app_cons, IH. Qed.

Lemma string_app_nil_r (a : string) : a +:+ EmptyString = a.
Proof. induction a as [|x a IH]; [done|]. by rewrite string_app_cons, IH. Qed.

Lemma nameLoop_concat n i cs sb :
  i + Z.of_nat (length cs) = n →
  nameLoop Client Name n i cs sb = sb +:+ String.concat "," (Name <$> cs).
Proof.
  revert i sb. induction cs as [|c rest IH]; intros i sb Hn.
  { simpl. by rewrite string_app_nil_r. }
  cbn [nameLoop]. rewrite IH by (simpl in Hn; lia). destruct rest as [|c2 rest]; simpl in Hn.
  - destruct (Z.eqb_spec i (n - 1)); [|lia]. simpl. by rewrite string_app_nil_r.
  - destruct (Z.eqb_spec i (n - 1)); [lia|]. cbn [negb fmap list_fmap String.concat].
    by rewrite !string_app_assoc.
Qed.

(** X24: Manager.Name is wal: followed by the names of the clients, in order,
    with a comma between each two. *)
Theorem X24_Manager_Name_joins_the_client_names (m : Manager Client) :
  Manager_Name Client Name m = "wal:" +:+ String.concat "," (Name <$> clients m).
Proof. unfold Manager_Name. by apply nameLoop_concat. Qed.

End manager_facts.

Lemma X23_witness :
  ∃ m, NewManager string string id demo_New id ["a"; "b"] = (inl m, ["a"; "b"]) ∧
       Stop string m = [CloseEntries; ClientStop "a"; ClientStop "b"].
Proof.
  destruct (X23_NewManager_starts_watchers_that_Stop_never_stops string string id demo_New id
              ["a"; "b"]) as [Hok _].
  destruct (Hok (mkManager ["a"; "b"] []) ["a"; "b"]) as (_ & _ & _ & _ & Hstop);
    [vm_compute; reflexivity|].
  exists (mkManager ["a"; "b"] []). split; [vm_compute; reflexivity|exact Hstop].
Defined.

End client_facts.
